(** * ComposeBox: the text/markup engine and the submission controller

    A shallow embedding of [src/components/general/ComposeBox.tsx] (both
    variants: the plain one and the one with the inline emoji-suggestion
    dropdown).  JavaScript strings are sequences of UTF-16 code units, so a
    string is a [list N]; the regular expressions of the source are kept as
    syntax trees and run by a backtracking matcher written after the
    continuation semantics of ECMAScript patterns; the markup assigned to
    [innerHTML] is read back by a model of the HTML tokenizer restricted to
    the forms the renderer can produce. *)

From Stdlib Require Import String Ascii.
From Stdlib Require Import NArith ZArith Bool Arith Lia List.
Import ListNotations.

Set Implicit Arguments.

(* ================================================================== *)
(** ** JavaScript strings *)
(* ================================================================== *)

Module Js.

(** A string value: its UTF-16 code units. *)
Definition jsstring := list N.

Definition ch (a : ascii) : N := N_of_ascii a.
Arguments ch _%_char.

Fixpoint js (s : string) : jsstring :=
  match s with
  | EmptyString => []
  | String a s' => ch a :: js s'
  end.
Arguments js _%_string.

Definition LF : N := 10.
Definition CR : N := 13.
Definition NUL : N := 0.
Definition QUOT : N := 34.        (* the double quote *)
Definition APOS : N := 39.        (* the single quote *)

Definition in_range (lo hi c : N) : bool := (lo <=? c)%N && (c <=? hi)%N.

Definition is_digit (c : N) : bool := in_range 48 57 c.
Definition is_upper (c : N) : bool := in_range 65 90 c.
Definition is_lower (c : N) : bool := in_range 97 122 c.
Definition is_alpha (c : N) : bool := is_upper c || is_lower c.
Definition is_alnum (c : N) : bool := is_alpha c || is_digit c.

(** [\w] without the [i] and [u] flags: [A-Za-z0-9_]. *)
Definition is_word (c : N) : bool := is_alnum c || (c =? 95)%N.

(** WhiteSpace and LineTerminator of ECMAScript: what [\s] matches and
    what [String.prototype.trim] removes. *)
Definition is_space (c : N) : bool :=
  in_range 9 13 c || (c =? 32)%N || (c =? 160)%N || (c =? 5760)%N
  || in_range 8192 8202 c || (c =? 8232)%N || (c =? 8233)%N
  || (c =? 8239)%N || (c =? 8287)%N || (c =? 12288)%N || (c =? 65279)%N.

Fixpoint eqs (a b : jsstring) : bool :=
  match a, b with
  | [], [] => true
  | x :: a', y :: b' => (x =? y)%N && eqs a' b'
  | _, _ => false
  end.

(** [s.slice(a, b)] for [0 <= a] and [0 <= b]. *)
Definition slice (a b : nat) (s : jsstring) : jsstring :=
  skipn a (firstn b s).

(** [s.slice(a)] *)
Definition slice_from (a : nat) (s : jsstring) : jsstring := skipn a s.

(** [s.includes(c)] for a one-unit needle. *)
Definition includes (s : jsstring) (c : N) : bool :=
  existsb (N.eqb c) s.

(** [s.endsWith(c)] for a one-unit needle. *)
Definition endsWith (s : jsstring) (c : N) : bool :=
  match rev s with
  | x :: _ => (x =? c)%N
  | [] => false
  end.

Fixpoint trimStart (s : jsstring) : jsstring :=
  match s with
  | c :: s' => if is_space c then trimStart s' else s
  | [] => []
  end.

Definition trim (s : jsstring) : jsstring :=
  rev (trimStart (rev (trimStart s))).

(** ToBoolean of a string. *)
Definition truthy (s : jsstring) : bool :=
  match s with [] => false | _ => true end.

(** [s || ''] for a value that may be undefined. *)
Definition or_empty (v : option jsstring) : jsstring :=
  match v with Some s => s | None => [] end.

End Js.
Export Js.

(* ================================================================== *)
(** ** Regular expressions *)
(* ================================================================== *)

Module Regex.

(** The pattern syntax the source uses. *)
Inductive regex : Type :=
| Chr (p : N -> bool)              (* a character or a class *)
| Eps                              (* the empty pattern *)
| Seq (r1 r2 : regex)
| Alt (r1 r2 : regex)              (* r1|r2, left first *)
| Star (r : regex)                 (* r*, greedy *)
| Bol                              (* ^ *)
| Eol                              (* $ *)
| Group (i : nat) (r : regex).     (* the i-th capturing group *)

Definition Plus (r : regex) : regex := Seq r (Star r).
Definition Opt (r : regex) : regex := Alt r Eps.

Definition Lit1 (c : N) : regex := Chr (N.eqb c).

Fixpoint Lit (s : jsstring) : regex :=
  match s with
  | [] => Eps
  | c :: s' => Seq (Lit1 c) (Lit s')
  end.

(** A match state: the index reached, the input from there on, and the
    captures as [start, end) index pairs. *)
Record mstate : Type := MState {
  pos : nat;
  rest : jsstring;
  caps : list (nat * (nat * nat))
}.

Definition cont := mstate -> option mstate.

Definition advance (x : mstate) (r : jsstring) : mstate :=
  MState (S (pos x)) r (caps x).

Definition set_cap (i : nat) (a b : nat) (x : mstate) : mstate :=
  MState (pos x) (rest x) ((i, (a, b)) :: caps x).

(** The loop of a greedy star over the matcher [body] of its operand: an
    iteration that consumed nothing is refused, as RepeatMatcher does, so
    [fuel], the number of units left, bounds the iterations. *)
Fixpoint star_loop (body : cont -> mstate -> option mstate) (k : cont)
         (fuel : nat) (x : mstate) {struct fuel} : option mstate :=
  match fuel with
  | O => k x
  | S fuel' =>
      match body (fun y => if (pos y =? pos x)%nat then None
                           else star_loop body k fuel' y) x with
      | Some z => Some z
      | None => k x
      end
  end.

(** The matcher of a pattern, in continuation-passing style: [k] is the
    rest of the pattern, and a failure of [k] backtracks into the
    alternatives still open. *)
Fixpoint m (r : regex) (k : cont) (x : mstate) {struct r} : option mstate :=
  match r with
  | Chr p =>
      match rest x with
      | c :: r' => if p c then k (advance x r') else None
      | [] => None
      end
  | Eps => k x
  | Seq r1 r2 => m r1 (m r2 k) x
  | Alt r1 r2 =>
      match m r1 k x with
      | Some z => Some z
      | None => m r2 k x
      end
  | Star r1 => star_loop (m r1) k (length (rest x)) x
  | Bol => if (pos x =? 0)%nat then k x else None
  | Eol => match rest x with [] => k x | _ :: _ => None end
  | Group i r1 => m r1 (fun y => k (set_cap i (pos x) (pos y) y)) x
  end.

(** A successful match: where it starts, where it ends, its captures. *)
Record result : Type := Result {
  index : nat;
  stop : nat;
  groups : list (nat * (nat * nat))
}.

(** Try the pattern at [i], then at every later index up to the end of
    the input. *)
Fixpoint scan (r : regex) (i : nat) (s : jsstring) {struct s} : option result :=
  match m r (fun y => Some y) (MState i s []) with
  | Some y => Some (Result i (pos y) (caps y))
  | None =>
      match s with
      | [] => None
      | _ :: s' => scan r (S i) s'
      end
  end.

(** [regex.exec(s)] with [regex.lastIndex = lastIndex] (for a pattern
    without the [g] flag, [lastIndex] is 0). *)
Definition exec (r : regex) (s : jsstring) (lastIndex : nat) : option result :=
  if (lastIndex <=? length s)%nat then scan r lastIndex (skipn lastIndex s)
  else None.

(** The text of a match and of a capturing group. *)
Definition matched (s : jsstring) (res : result) : jsstring :=
  slice (index res) (stop res) s.

Fixpoint lookup_cap (i : nat) (cs : list (nat * (nat * nat))) : option (nat * nat) :=
  match cs with
  | [] => None
  | (j, ab) :: cs' => if (i =? j)%nat then Some ab else lookup_cap i cs'
  end.

Definition group (s : jsstring) (res : result) (i : nat) : option jsstring :=
  match lookup_cap i (groups res) with
  | Some (a, b) => Some (slice a b s)
  | None => None
  end.

(** [s.replace(r, repl)] for a pattern without the [g] flag: the first
    match only. *)
Definition replace_first (r : regex) (repl s : jsstring) : jsstring :=
  match exec r s 0 with
  | Some res => firstn (index res) s ++ repl ++ skipn (stop res) s
  | None => s
  end.

(** [s.replace(r, repl)] for a pattern with the [g] flag: every match,
    left to right.  [src] is the index up to which the input has been
    copied, [lastIndex] the index the next search starts from; after an
    empty match the search resumes one unit further. *)
Fixpoint replace_loop (fuel : nat) (r : regex) (repl s : jsstring)
         (src lastIndex : nat) : jsstring :=
  match fuel with
  | O => slice_from src s
  | S fuel' =>
      match exec r s lastIndex with
      | None => slice_from src s
      | Some res =>
          slice src (index res) s ++ repl
            ++ replace_loop fuel' r repl s (stop res)
                 (if (stop res =? index res)%nat then S (stop res)
                  else stop res)
      end
  end.

Definition replace_all (r : regex) (repl s : jsstring) : jsstring :=
  replace_loop (2 + length s) r repl s 0 0.

End Regex.
Export Regex.

(* ================================================================== *)
(** ** The editable tree *)
(* ================================================================== *)

Module Dom.

Definition ELEMENT_NODE : N := 1.
Definition TEXT_NODE : N := 3.

(** Nodes that are neither text nor elements. *)
Inductive other_kind : Type := CommentNode | ProcessingInstructionNode.

(** A node of the editable surface.  An element carries its [tagName]
    (upper case for an HTML element), its attributes in source order and
    its child nodes. *)
#[warnings="-register-all"]
Inductive Node : Type :=
| TextNode (data : jsstring)
| ElementNode (tagName : jsstring) (attributes : list (jsstring * jsstring))
              (childNodes : list Node)
| OtherNode (kind : other_kind) (data : jsstring).

Definition nodeType (n : Node) : N :=
  match n with
  | TextNode _ => TEXT_NODE
  | ElementNode _ _ _ => ELEMENT_NODE
  | OtherNode CommentNode _ => 8
  | OtherNode ProcessingInstructionNode _ => 7
  end.

Fixpoint getAttribute (name : jsstring) (attrs : list (jsstring * jsstring))
  : option jsstring :=
  match attrs with
  | [] => None
  | (n, v) :: attrs' => if eqs n name then Some v else getAttribute name attrs'
  end.

(** [element.dataset.emoteUrl]: the value of [data-emote-url], undefined
    when the attribute is absent. *)
Definition dataset_emoteUrl (attrs : list (jsstring * jsstring)) : option jsstring :=
  getAttribute (js "data-emote-url") attrs.

End Dom.
Export Dom.

(* ================================================================== *)
(** ** Reading markup back: the [innerHTML] setter *)
(* ================================================================== *)

(** The fragment of the HTML parsing algorithm that covers what
    [renderContentHtml] can emit: character data, the character references
    [&amp;] [&lt;] [&gt;] [&quot;] and decimal references to printable
    ASCII, and start tags of void elements whose attributes are
    double-quoted.  Input outside this fragment (end tags, comments, other
    references, non-void elements, ...) is not modelled and makes
    [setInnerHTML] answer [None]. *)
Module Html.

Definition REPLACEMENT : N := 65533.

(** Preprocessing of the input stream: CR LF and lone CR become LF. *)
Fixpoint normalize_newlines (s : jsstring) : jsstring :=
  match s with
  | [] => []
  | c :: s' =>
      if (c =? CR)%N then
        match s' with
        | d :: s'' => if (d =? LF)%N then LF :: normalize_newlines s''
                      else LF :: normalize_newlines s'
        | [] => [LF]
        end
      else c :: normalize_newlines s'
  end.

Definition to_lower (c : N) : N := if is_upper c then (c + 32)%N else c.
Definition to_upper (c : N) : N := if is_lower c then (c - 32)%N else c.

(** Tab, line feed, form feed, space. *)
Definition is_html_space (c : N) : bool :=
  (c =? 9)%N || (c =? 10)%N || (c =? 12)%N || (c =? 32)%N.

Definition named_reference (name : jsstring) : option N :=
  if eqs name (js "amp") then Some (ch "&")
  else if eqs name (js "lt") then Some (ch "<")
  else if eqs name (js "gt") then Some (ch ">")
  else if eqs name (js "quot") then Some QUOT
  else None.

(** The void elements whose start tag inserts an element where it stands;
    [col] is not among them: inside a [div] its start tag is ignored. *)
Definition void_elements : list jsstring :=
  [js "area"; js "base"; js "br"; js "embed"; js "hr"; js "img";
   js "input"; js "link"; js "meta"; js "source"; js "track"; js "wbr"].

Definition is_void (name : jsstring) : bool := existsb (eqs name) void_elements.

(** A start tag under construction. *)
Record tag : Type := Tag {
  tag_name : jsstring;
  tag_attrs : list (jsstring * jsstring)
}.

(** A second attribute of the same name is dropped. *)
Definition add_attr (t : tag) (name value : jsstring) : tag :=
  match getAttribute name (tag_attrs t) with
  | Some _ => t
  | None => Tag (tag_name t) (tag_attrs t ++ [(name, value)])
  end.

(** Where character data goes: into the tree, or into the value of the
    attribute being read. *)
Inductive place : Type :=
| InData
| InValue (t : tag) (name value : jsstring).

Inductive tstate : Type :=
| Chars (w : place)                            (* data / attribute value *)
| Named (w : place) (buf : jsstring)           (* after & *)
| Numeric (w : place) (v : option N)           (* after &# *)
| TagOpen                                      (* after < *)
| TagName (name : jsstring)
| BeforeAttrName (t : tag)
| AttrName (t : tag) (name : jsstring)
| BeforeAttrValue (t : tag) (name : jsstring)
| AfterAttrValue (t : tag)
| SelfClosing (t : tag).

(** The children built so far, last one first, and the tokenizer state. *)
Definition config : Type := (list Node * tstate)%type.

(** Inserting a character: it joins the text node before it. *)
Definition insert_char (c : N) (nodes : list Node) : list Node :=
  match nodes with
  | TextNode d :: nodes' => TextNode (d ++ [c]) :: nodes'
  | _ => TextNode [c] :: nodes
  end.

Definition put (w : place) (c : N) (nodes : list Node) : config :=
  match w with
  | InData => (insert_char c nodes, Chars InData)
  | InValue t n v => (nodes, Chars (InValue t n (v ++ [c])))
  end.

Definition emit_tag (t : tag) (nodes : list Node) : option config :=
  if is_void (tag_name t) then
    Some (ElementNode (map to_upper (tag_name t)) (tag_attrs t) [] :: nodes,
          Chars InData)
  else None.

Definition chars_step (w : place) (nodes : list Node) (c : N) : option config :=
  if (c =? ch "&")%N then Some (nodes, Named w [])
  else
    match w with
    | InData =>
        if (c =? ch "<")%N then Some (nodes, TagOpen)
        else if (c =? NUL)%N then Some (nodes, Chars InData)
        else Some (put InData c nodes)
    | InValue t n v =>
        if (c =? QUOT)%N then Some (nodes, AfterAttrValue (add_attr t n v))
        else if (c =? NUL)%N then Some (put w REPLACEMENT nodes)
        else Some (put w c nodes)
    end.

Definition step (cfg : config) (c : N) : option config :=
  let (nodes, st) := cfg in
  match st with
  | Chars w => chars_step w nodes c
  | Named w buf =>
      if is_alnum c then Some (nodes, Named w (buf ++ [c]))
      else
        match buf with
        | [] =>
            if (c =? ch "#")%N then Some (nodes, Numeric w None)
            else
              let (nodes', st') := put w (ch "&") nodes in
              match st' with
              | Chars w' => chars_step w' nodes' c
              | _ => None
              end
        | _ :: _ =>
            if (c =? ch ";")%N then
              match named_reference buf with
              | Some c' => Some (put w c' nodes)
              | None => None
              end
            else None
        end
  | Numeric w v =>
      if is_digit c then
        Some (nodes, Numeric w (Some (10 * match v with Some n => n | None => 0 end
                                      + (c - 48))%N))
      else if (c =? ch ";")%N then
        match v with
        | Some n => if in_range 32 126 n then Some (put w n nodes) else None
        | None => None
        end
      else None
  | TagOpen =>
      if is_alpha c then Some (nodes, TagName [to_lower c]) else None
  | TagName name =>
      if is_html_space c then Some (nodes, BeforeAttrName (Tag name []))
      else if (c =? ch "/")%N then Some (nodes, SelfClosing (Tag name []))
      else if (c =? ch ">")%N then emit_tag (Tag name []) nodes
      else if (c =? NUL)%N then None
      else Some (nodes, TagName (name ++ [to_lower c]))
  | BeforeAttrName t =>
      if is_html_space c then Some (nodes, BeforeAttrName t)
      else if (c =? ch "/")%N then Some (nodes, SelfClosing t)
      else if (c =? ch ">")%N then emit_tag t nodes
      else if (c =? ch "=")%N || (c =? QUOT)%N || (c =? APOS)%N
              || (c =? ch "<")%N || (c =? NUL)%N then None
      else Some (nodes, AttrName t [to_lower c])
  | AttrName t name =>
      if (c =? ch "=")%N then Some (nodes, BeforeAttrValue t name)
      else if is_html_space c || (c =? ch "/")%N || (c =? ch ">")%N
              || (c =? QUOT)%N || (c =? APOS)%N || (c =? ch "<")%N
              || (c =? NUL)%N then None
      else Some (nodes, AttrName t (name ++ [to_lower c]))
  | BeforeAttrValue t name =>
      if is_html_space c then Some (nodes, BeforeAttrValue t name)
      else if (c =? QUOT)%N then Some (nodes, Chars (InValue t name []))
      else None
  | AfterAttrValue t =>
      if is_html_space c then Some (nodes, BeforeAttrName t)
      else if (c =? ch "/")%N then Some (nodes, SelfClosing t)
      else if (c =? ch ">")%N then emit_tag t nodes
      else None
  | SelfClosing t =>
      if (c =? ch ">")%N then emit_tag t nodes else None
  end.

Fixpoint run (cfg : config) (s : jsstring) : option config :=
  match s with
  | [] => Some cfg
  | c :: s' =>
      match step cfg c with
      | Some cfg' => run cfg' s'
      | None => None
      end
  end.

(** End of input: only character data may be pending. *)
Definition finish (cfg : config) : option (list Node) :=
  match cfg with
  | (nodes, Chars InData) => Some (rev nodes)
  | (nodes, Named InData []) => Some (rev (insert_char (ch "&") nodes))
  | _ => None
  end.

(** [editor.innerHTML = html]: the children the editor ends up with. *)
Definition setInnerHTML (html : jsstring) : option (list Node) :=
  match run ([], Chars InData) (normalize_newlines html) with
  | Some cfg => finish cfg
  | None => None
  end.

End Html.
Export Html.

(* ================================================================== *)
(** ** The component *)
(* ================================================================== *)

Module ComposeBox.

(** *** Markup engine *)

(** [/https?:\/\/cdn\.7tv\.app\/emote\/[A-Za-z0-9]+\/\d+x\.(?:webp|png|avif)/g] *)
Definition emoteUrlRegex : regex :=
  Seq (Lit (js "http"))
 (Seq (Opt (Lit1 (ch "s")))
 (Seq (Lit (js "://cdn.7tv.app/emote/"))
 (Seq (Plus (Chr is_alnum))
 (Seq (Lit1 (ch "/"))
 (Seq (Plus (Chr is_digit))
 (Seq (Lit (js "x."))
      (Alt (Lit (js "webp")) (Alt (Lit (js "png")) (Lit (js "avif"))))))))))%list.

(** The five replacements of [escapeHtml], innermost first.  None of the
    replacement texts contains [$], so each is inserted as it stands. *)
Definition escapeHtml (value : jsstring) : jsstring :=
  replace_all (Lit1 APOS) (js "&#039;")
 (replace_all (Lit1 QUOT) (js "&quot;")
 (replace_all (Lit1 (ch ">")) (js "&gt;")
 (replace_all (Lit1 (ch "<")) (js "&lt;")
 (replace_all (Lit1 (ch "&")) (js "&amp;") value)))).

(** [escapeHtml(segment).replace(/\n/g, '<br/>')] *)
Definition text_html (segment : jsstring) : jsstring :=
  replace_all (Lit1 LF) (js "<br/>") (escapeHtml segment).

(** The template literal of the image placeholder. *)
Definition img_html (url : jsstring) : jsstring :=
  js "<img data-emote-url=" ++ [QUOT] ++ url ++ [QUOT]
    ++ js " src=" ++ [QUOT] ++ url ++ [QUOT]
    ++ js " alt=" ++ [QUOT] ++ js "7TV emote" ++ [QUOT]
    ++ js " style=" ++ [QUOT]
    ++ js "height:1.5rem;width:1.5rem;display:inline-block;vertical-align:text-bottom;"
    ++ [QUOT] ++ js " />".

(** The [while] loop of [renderContentHtml].  [regexLastIndex] is the
    [lastIndex] of the regex object, [lastIndex] the local variable of the
    same name; [None] stands for a loop that has not finished within
    [fuel] iterations. *)
Fixpoint render_loop (fuel : nat) (value : jsstring)
         (regexLastIndex lastIndex : nat) (html : jsstring) : option jsstring :=
  match fuel with
  | O => None
  | S fuel' =>
      match exec emoteUrlRegex value regexLastIndex with
      | Some mt =>
          let start := index mt in
          let url := matched value mt in
          let textSegment := slice lastIndex start value in
          let html := html ++ text_html textSegment in
          let html := html ++ img_html url in
          render_loop fuel' value (stop mt) (start + length url) html
      | None =>
          let tail := slice_from lastIndex value in
          Some (html ++ text_html tail)
      end
  end.

Definition renderContentHtml (value : jsstring) : option jsstring :=
  render_loop (S (length value)) value 0 0 [].

Fixpoint serializeEditorContent (node : Node) : jsstring :=
  match node with
  | TextNode data => or_empty (Some data)
  | OtherNode _ _ => []
  | ElementNode tagName attributes childNodes =>
      if eqs tagName (js "IMG") then or_empty (dataset_emoteUrl attributes)
      else if eqs tagName (js "BR") then [LF]
      else
        let text :=
          fold_left (fun text child => text ++ serializeEditorContent child)
                    childNodes [] in
        if eqs tagName (js "DIV") || eqs tagName (js "P") then text ++ [LF]
        else text
  end.

(** [/\n+$/] *)
Definition trailingNewlinesRegex : regex := Seq (Plus (Lit1 LF)) Eol.

(** The value [updateContentFromEditor] computes from the children of
    the editor. *)
Definition editorValue (childNodes : list Node) : jsstring :=
  let nextValue :=
    fold_left (fun nextValue child => nextValue ++ serializeEditorContent child)
              childNodes [] in
  if endsWith nextValue LF then replace_first trailingNewlinesRegex [] nextValue
  else nextValue.

(** The text state and the two refs the synchronisation uses. *)
Record Surface : Type := MkSurface {
  editor : option (list Node);        (* editorRef.current and its children *)
  lastContent : jsstring;             (* lastContentRef.current *)
  surfaceContent : jsstring           (* content *)
}.

Definition updateContentFromEditor (s : Surface) : Surface :=
  match editor s with
  | None => s
  | Some childNodes =>
      let nextValue := editorValue childNodes in
      MkSurface (editor s) nextValue nextValue
  end.

(** [updateEditorFromContent]: [None] when the markup is outside the
    modelled fragment of HTML or the render loop does not finish. *)
Definition updateEditorFromContent (value : jsstring) (s : Surface)
  : option Surface :=
  match editor s with
  | None => Some s
  | Some _ =>
      match renderContentHtml value with
      | Some html =>
          match setInnerHTML html with
          | Some childNodes =>
              Some (MkSurface (Some childNodes) (lastContent s) (surfaceContent s))
          | None => None
          end
      | None => None
      end
  end.

(** *** Emoji query *)

(** The class [[\w+-]] of the emoji pattern. *)
Definition is_query_unit (c : N) : bool :=
  is_word c || (c =? ch "+")%N || (c =? ch "-")%N.

(** The pattern of [updateEmojiQueryFromSelection]: a non-capturing
    group [(?:^|\s)], a colon, the capturing group 1 holding
    [[\w+-]] repeated with a star, and [$]. *)
Definition emojiQueryRegex : regex :=
  Seq (Alt Bol (Chr is_space))
 (Seq (Lit1 (ch ":"))
 (Seq (Group 1 (Star (Chr is_query_unit)))
      Eol)).

(** The first range of the selection, as the function reads it. *)
Record Range : Type := MkRange {
  endContainer : Node;
  endOffset : nat;
  endInEditor : bool                  (* editor.contains(range.endContainer) *)
}.

(** [emojiRangeRef.current] *)
Record EmojiRange : Type := MkEmojiRange {
  range_node : Node;
  range_start : Z;
  range_end : Z
}.

Record EmojiState : Type := MkEmojiState {
  emojiQuery : jsstring;
  emojiRangeRef : option EmojiRange
}.

Definition clearEmoji : EmojiState := MkEmojiState [] None.

(** [hasEditor]: [editorRef.current] is set; [selection]: the ranges of
    [window.getSelection()], [None] when there is no selection object. *)
Definition updateEmojiQueryFromSelection
           (hasEditor : bool) (selection : option (list Range)) : EmojiState :=
  if negb hasEditor then clearEmoji
  else
    match selection with
    | None | Some [] => clearEmoji
    | Some (range :: _) =>
        if negb (endInEditor range) then clearEmoji
        else if negb (nodeType (endContainer range) =? TEXT_NODE)%N then clearEmoji
        else
          let textNode := endContainer range in
          let text :=
            or_empty (match textNode with
                      | TextNode data => Some data
                      | _ => None
                      end) in
          let uptoCursor := slice 0 (endOffset range) text in
          match exec emojiQueryRegex uptoCursor 0 with
          | None => clearEmoji
          | Some mt =>
              let query := or_empty (group uptoCursor mt 1) in
              if negb (truthy query) then clearEmoji
              else
                MkEmojiState query
                  (Some (MkEmojiRange textNode
                           (Z.of_nat (endOffset range) - Z.of_nat (length query) - 1)
                           (Z.of_nat (endOffset range))))
          end
    end.

End ComposeBox.
Export ComposeBox.

(* ================================================================== *)
(** ** Mention validation *)
(* ================================================================== *)

(** The effect that runs whenever [content] (or the network) changes.
    [detectMentionsInText] and [validateAndReturnPublicKey] are imported
    from [@/utils/kaspaAddressUtils] and stay abstract: the validator is an
    external call, so it threads a world of type [W] and every invocation is
    recorded. *)
Module Mentions.
Section Effect.

Variable W : Type.

Record Mention : Type := MkMention { pubkey : jsstring }.

Variable detectMentionsInText : jsstring -> list Mention.

(** The awaited answer: a public key, or a negative result. *)
Variable validateAndReturnPublicKey : jsstring -> W -> option jsstring * W.

Record Pass : Type := MkPass {
  validated : list Mention;          (* the argument of setValidatedMentions *)
  calls : list jsstring;             (* validator invocations, in order *)
  world : W
}.

(** The [for ... of] loop of [validateMentions]. *)
Fixpoint validateLoop (mentions : list Mention) (p : Pass) : Pass :=
  match mentions with
  | [] => p
  | mention :: mentions' =>
      let (validPubkey, w') := validateAndReturnPublicKey (pubkey mention) (world p) in
      let called := calls p ++ [pubkey mention] in
      match validPubkey with
      | Some key =>
          if truthy key then
            validateLoop mentions' (MkPass (validated p ++ [MkMention key]) called w')
          else validateLoop mentions' (MkPass (validated p) called w')
      | None => validateLoop mentions' (MkPass (validated p) called w')
      end
  end.

Definition validateMentions (content : jsstring) (w : W) : Pass :=
  validateLoop (detectMentionsInText content) (MkPass [] [] w).

(** The body of the effect: what [validatedMentions] is set to, which
    validator calls were made, and the world afterwards. *)
Definition mentionsEffect (content : jsstring) (w : W) : Pass :=
  if includes content (ch "@") then validateMentions content w
  else MkPass [] [] w.

End Effect.
End Mentions.
Export Mentions.

(* ================================================================== *)
(** ** Submission *)
(* ================================================================== *)

Module Submit.

(** What the external sender resolves to. *)
Record TxResult : Type := MkTxResult {
  tx_id : jsstring;
  feeAmount : N;
  feeKAS : jsstring
}.

(** What the external sender may throw. *)
Inductive Thrown : Type :=
| ErrorInstance (message : jsstring)     (* error instanceof Error *)
| OtherValue.

Inductive Outcome : Type :=
| Resolved (result : option TxResult)    (* [None]: a falsy result *)
| Rejected (error : Thrown).

Record SendArgs : Type := MkSendArgs {
  arg_privateKey : jsstring;
  userMessage : jsstring;
  arg_type : jsstring;
  mentionedPubkeys : list jsstring
}.

Inductive Effect : Type :=
| SendTransaction (args : SendArgs)
| ToastSuccess (result : TxResult)
| OnPost (content : jsstring)
| ConsoleError (error : Thrown)
| ToastError (title description : jsstring).

(** The state of the component and the context values [handlePost]
    reads. *)
Record State : Type := MkState {
  content : jsstring;
  isSubmitting : bool;
  validatedMentions : list Mention;
  privateKey : option jsstring;          (* useAuth() *)
  hideTransactionPopup : bool            (* useUserSettings() *)
}.

Definition setContent (v : jsstring) (s : State) : State :=
  MkState v (isSubmitting s) (validatedMentions s) (privateKey s)
          (hideTransactionPopup s).

Definition setIsSubmitting (b : bool) (s : State) : State :=
  MkState (content s) b (validatedMentions s) (privateKey s)
          (hideTransactionPopup s).

Definition setValidatedMentions (l : list Mention) (s : State) : State :=
  MkState (content s) (isSubmitting s) l (privateKey s)
          (hideTransactionPopup s).

(** [content.trim() && privateKey && !isSubmitting] *)
Definition canPost (s : State) : bool :=
  truthy (trim (content s))
  && match privateKey s with Some k => truthy k | None => false end
  && negb (isSubmitting s).

(** [handlePost] up to its [await]: the state it leaves, what it did, and
    the render it was called in when a send is now outstanding. *)
Definition handlePost (s : State) : State * list Effect * option State :=
  if canPost s then
    (setIsSubmitting true s,
     [SendTransaction
        (MkSendArgs (or_empty (privateKey s)) (content s) (js "post")
                    (map (fun m => pubkey m) (validatedMentions s)))],
     Some s)
  else (s, [], None).

Definition errorDescription (error : Thrown) : jsstring :=
  match error with
  | ErrorInstance message => message
  | OtherValue => js "Unknown error occurred"
  end.

(** [handlePost] after its [await]: [closure] is the render the call was
    made in, [s] the state when the sender settles. *)
Definition handlePostSettle (closure : State) (o : Outcome) (s : State)
  : State * list Effect :=
  match o with
  | Resolved (Some result) =>
      (setIsSubmitting false (setContent [] s),
       (if hideTransactionPopup closure then [] else [ToastSuccess result])
         ++ [OnPost (content closure)])
  | Resolved None => (setIsSubmitting false s, [])
  | Rejected error =>
      (setIsSubmitting false s,
       [ConsoleError error;
        ToastError (js "An error occurred when sending transaction")
                   (errorDescription error)])
  end.

(** *** The component as a transition system

    The component seen at its renders: a step is one event together with
    the render React makes for it, so the handler of the next event is the
    one of that render.  Two calls of a handler with no render between
    them are not steps of this system; [Renders.act] has them. *)

Inductive Event : Type :=
| Click                                  (* the Post button: handlePost() *)
| Settle (o : Outcome)                   (* the oldest outstanding send settles *)
| Input (value : jsstring)               (* updateContentFromEditor *)
| MentionsValidated (l : list Mention).  (* a validation pass finishes *)

Record Sys : Type := MkSys {
  state : State;
  outstanding : list State;              (* renders of the unsettled sends *)
  log : list Effect
}.

Definition sys_step (y : Sys) (e : Event) : Sys :=
  match e with
  | Click =>
      let '(s', effs, pending) := handlePost (state y) in
      MkSys s'
            (outstanding y ++ match pending with Some c => [c] | None => [] end)
            (log y ++ effs)
  | Settle o =>
      match outstanding y with
      | [] => y
      | closure :: others =>
          let (s', effs) := handlePostSettle closure o (state y) in
          MkSys s' others (log y ++ effs)
      end
  | Input value => MkSys (setContent value (state y)) (outstanding y) (log y)
  | MentionsValidated l =>
      MkSys (setValidatedMentions l (state y)) (outstanding y) (log y)
  end.

Definition sys_run (y : Sys) (events : list Event) : Sys :=
  fold_left sys_step events y.

Definition is_send (e : Effect) : bool :=
  match e with SendTransaction _ => true | _ => false end.

Definition sends (l : list Effect) : nat := length (filter is_send l).

Definition is_settle (e : Event) : bool :=
  match e with Settle _ => true | _ => false end.

(** A freshly mounted component: empty text, nothing in flight. *)
Definition mount (key : option jsstring) (hide : bool) : Sys :=
  MkSys (MkState [] false [] key hide) [] [].

Inductive reachable (key : option jsstring) (hide : bool) : Sys -> Prop :=
| reach_mount : reachable key hide (mount key hide)
| reach_step : forall y e,
    reachable key hide y -> reachable key hide (sys_step y e).

End Submit.
Export Submit.

(* ================================================================== *)
(** ** The properties, stated independently of the code *)
(* ================================================================== *)

Module Spec.

(** A well-formed emote URL:
    [http(s)://cdn.7tv.app/emote/<id>/<digits>x.<webp|png|avif>]. *)
Definition EmoteUrl (u : jsstring) : Prop :=
  exists scheme id scale ext,
    u = scheme ++ js "://cdn.7tv.app/emote/" ++ id ++ js "/" ++ scale
          ++ js "x." ++ ext
    /\ (scheme = js "http" \/ scheme = js "https")
    /\ id <> [] /\ Forall (fun c => is_alnum c = true) id
    /\ scale <> [] /\ Forall (fun c => is_digit c = true) scale
    /\ (ext = js "webp" \/ ext = js "png" \/ ext = js "avif").

(** [u] occurs in [s] as a substring that is an emote URL. *)
Definition HasEmote (s : jsstring) : Prop :=
  exists a u b, s = a ++ u ++ b /\ EmoteUrl u.

(** The entity that stands for one unit of text. *)
Definition escapeUnit (c : N) : jsstring :=
  if (c =? ch "&")%N then js "&amp;"
  else if (c =? ch "<")%N then js "&lt;"
  else if (c =? ch ">")%N then js "&gt;"
  else if (c =? QUOT)%N then js "&quot;"
  else if (c =? APOS)%N then js "&#039;"
  else [c].


(** The markup of one unit of text: escaped, a line feed as a break. *)
Definition markupUnit (c : N) : jsstring :=
  if (c =? LF)%N then js "<br/>" else escapeUnit c.

Fixpoint dropNewlines (s : jsstring) : jsstring :=
  match s with
  | c :: s' => if (c =? LF)%N then dropNewlines s' else s
  | [] => []
  end.

(** The text without the newlines it ends with. *)
Definition stripTrailingNewlines (s : jsstring) : jsstring :=
  rev (dropNewlines (rev s)).

Definition endsWithNewline (s : jsstring) : Prop :=
  exists s', s = s' ++ [LF].

(** Text that markup can carry: line separators are line feeds only, and
    U+0000 does not occur (the HTML parser turns a carriage return into a
    line feed and drops U+0000). *)
Definition CanonicalText (s : jsstring) : Prop :=
  Forall (fun c => c <> CR /\ c <> NUL) s.

(** The serializer as the specification words it: every node kind other
    than text, image, line break and the two block containers contributes
    nothing. *)
Fixpoint contribution_spec (n : Node) : jsstring :=
  match n with
  | TextNode data => data
  | ElementNode tagName attributes childNodes =>
      if eqs tagName (js "IMG") then
        match dataset_emoteUrl attributes with Some u => u | None => [] end
      else if eqs tagName (js "BR") then [LF]
      else if eqs tagName (js "DIV") || eqs tagName (js "P") then
        concat (map contribution_spec childNodes) ++ [LF]
      else []
  | OtherNode _ _ => []
  end.

(** The same, except that an element of any other kind is transparent:
    it contributes what its children contribute. *)
Fixpoint contribution (n : Node) : jsstring :=
  match n with
  | TextNode data => data
  | ElementNode tagName attributes childNodes =>
      if eqs tagName (js "IMG") then
        match dataset_emoteUrl attributes with Some u => u | None => [] end
      else if eqs tagName (js "BR") then [LF]
      else if eqs tagName (js "DIV") || eqs tagName (js "P") then
        concat (map contribution childNodes) ++ [LF]
      else concat (map contribution childNodes)
  | OtherNode _ _ => []
  end.

(** The colon that opens an emoji query: [upto = before ++ ":" ++ query],
    the colon at the start of the text or after white space, the query
    made of word characters, [+] and [-]. *)
Definition QueryAt (upto query : jsstring) : Prop :=
  exists before,
    upto = before ++ ch ":" :: query
    /\ Forall (fun c => is_query_unit c = true) query
    /\ (before = [] \/ exists b c, before = b ++ [c] /\ is_space c = true).

(** Resolving the candidates one after the other, in their order: a
    candidate the validator answers with a key is kept under that key, one
    it answers negatively (or with an empty key) is dropped. *)
Inductive resolves (W : Type)
          (validate : jsstring -> W -> option jsstring * W)
  : list Mention -> W -> list Mention -> W -> Prop :=
| resolves_nil : forall w, resolves validate [] w [] w
| resolves_keep : forall mention mentions w key w' kept w'',
    validate (pubkey mention) w = (Some key, w') -> key <> [] ->
    resolves validate mentions w' kept w'' ->
    resolves validate (mention :: mentions) w (MkMention key :: kept) w''
| resolves_drop : forall mention mentions w answer w' kept w'',
    validate (pubkey mention) w = (answer, w') ->
    answer = None \/ answer = Some [] ->
    resolves validate mentions w' kept w'' ->
    resolves validate (mention :: mentions) w kept w''.

End Spec.
Export Spec.

(* ================================================================== *)
(** ** Deterministic readings of the patterns, used in the proofs *)
(* ================================================================== *)

Module Aux.

Fixpoint strip_prefix (p s : jsstring) : option jsstring :=
  match p, s with
  | [], _ => Some s
  | c :: p', d :: s' => if (c =? d)%N then strip_prefix p' s' else None
  | _ :: _, [] => None
  end.

Fixpoint take_while (p : N -> bool) (s : jsstring) : jsstring :=
  match s with
  | c :: s' => if p c then c :: take_while p s' else []
  | [] => []
  end.

Fixpoint drop_while (p : N -> bool) (s : jsstring) : jsstring :=
  match s with
  | c :: s' => if p c then drop_while p s' else s
  | [] => []
  end.

(** One of the three extensions at the start of [s], and what follows. *)
Definition ext_prefix (s : jsstring) : option (jsstring * jsstring) :=
  match strip_prefix (js "webp") s with
  | Some r => Some (js "webp", r)
  | None =>
      match strip_prefix (js "png") s with
      | Some r => Some (js "png", r)
      | None =>
          match strip_prefix (js "avif") s with
          | Some r => Some (js "avif", r)
          | None => None
          end
      end
  end.

(** An optional [s] at the start of [s1]. *)
Definition opt_s (s1 : jsstring) : jsstring * jsstring :=
  match s1 with
  | c :: r => if (ch "s" =? c)%N then ([c], r) else ([], s1)
  | [] => ([], s1)
  end.

(** The emote URL [s] starts with, and what follows it. *)
Definition emote_prefix (s : jsstring) : option (jsstring * jsstring) :=
  match strip_prefix (js "http") s with
  | None => None
  | Some s1 =>
      match strip_prefix (js "://cdn.7tv.app/emote/") (snd (opt_s s1)) with
      | None => None
      | Some s3 =>
          match take_while is_alnum s3, drop_while is_alnum s3 with
          | _ :: _, c :: s4 =>
              if (ch "/" =? c)%N then
                match take_while is_digit s4 with
                | [] => None
                | _ :: _ =>
                    match strip_prefix (js "x.") (drop_while is_digit s4) with
                    | None => None
                    | Some s6 =>
                        match ext_prefix s6 with
                        | Some (ext, r) =>
                            Some (js "http" ++ fst (opt_s s1)
                                    ++ js "://cdn.7tv.app/emote/"
                                    ++ take_while is_alnum s3 ++ js "/"
                                    ++ take_while is_digit s4 ++ js "x." ++ ext,
                                  r)
                        | None => None
                        end
                    end
                end
              else None
          | _, _ => None
          end
      end
  end.

(** The leftmost emote URL of [s]: the text before it, the URL, the text
    after it. *)
Fixpoint find_emote (s : jsstring) : option (jsstring * jsstring * jsstring) :=
  match emote_prefix s with
  | Some (u, r) => Some ([], u, r)
  | None =>
      match s with
      | [] => None
      | c :: s' =>
          match find_emote s' with
          | Some (a, u, r) => Some (c :: a, u, r)
          | None => None
          end
      end
  end.

(** [renders s h]: [h] is the markup of [s], one leftmost emote URL after
    the other. *)
Inductive renders : jsstring -> jsstring -> Prop :=
| renders_tail : forall s,
    find_emote s = None -> renders s (text_html s)
| renders_emote : forall s a u r h,
    find_emote s = Some (a, u, r) -> renders r h ->
    renders s (text_html a ++ img_html u ++ h).

(** Induction over a node with the hypothesis for every child. *)
Fixpoint Node_ind_Forall (P : Node -> Prop)
         (HT : forall data, P (TextNode data))
         (HE : forall tagName attributes childNodes,
             Forall P childNodes -> P (ElementNode tagName attributes childNodes))
         (HO : forall kind data, P (OtherNode kind data))
         (n : Node) {struct n} : P n :=
  match n with
  | TextNode data => HT data
  | ElementNode tagName attributes childNodes =>
      HE tagName attributes childNodes
         ((fix all (l : list Node) : Forall P l :=
             match l with
             | [] => Forall_nil P
             | x :: l' => Forall_cons x (Node_ind_Forall HT HE HO x) (all l')
             end) childNodes)
  | OtherNode kind data => HO kind data
  end.

(** What the tree receives for one unit of text. *)
Definition insert_unit (c : N) (nodes : list Node) : list Node :=
  if (c =? LF)%N then ElementNode (js "BR") [] [] :: nodes
  else insert_char c nodes.

Definition emote_attributes (u : jsstring) : list (jsstring * jsstring) :=
  [(js "data-emote-url", u); (js "src", u); (js "alt", js "7TV emote");
   (js "style",
    js "height:1.5rem;width:1.5rem;display:inline-block;vertical-align:text-bottom;")].

(** [k] cannot succeed in front of a unit of the class [p]. *)
Definition blocked (p : N -> bool) (k : cont) : Prop :=
  forall i c t cs, p c = true -> k (MState i (c :: t) cs) = None.

(** The units an emote URL is made of. *)
Definition url_unit (c : N) : bool :=
  is_alnum c || (c =? ch ":")%N || (c =? ch "/")%N || (c =? ch ".")%N.

(** What a global replacement of the class [p] by [repl] does to one
    unit. *)
Definition replaceUnit (p : N -> bool) (repl : jsstring) (c : N) : jsstring :=
  if p c then repl else [c].

Definition insert_units (s : jsstring) (nodes : list Node) : list Node :=
  fold_left (fun nodes c => insert_unit c nodes) s nodes.

(** What a sequence of sibling nodes serializes to. *)
Definition text_of (nodes : list Node) : jsstring :=
  concat (map serializeEditorContent nodes).




(** A text node or a line break: what plain text is read into. *)
Definition text_or_break (n : Node) : bool :=
  match n with
  | TextNode _ => true
  | ElementNode tagName _ _ => eqs tagName (js "BR")
  | OtherNode _ _ => false
  end.

End Aux.
Export Aux.

(* ================================================================== *)
(** ** The rest of the controller *)
(* ================================================================== *)

Module Controller.

(** *** Keeping the editor in step with [content] *)

(** The effect on [content], as made by the render in which the state
    was [content]: the effect keeps that value, whatever the state is when
    it runs, and reads the editor and [lastContentRef] as they are then.
    Nothing without an editor, nothing when [content] is what the ref
    holds, a re-render from [content] otherwise.  The state itself is not
    written. *)
Definition syncEffectOf (content : jsstring) (s : Surface) : option Surface :=
  match editor s with
  | None => Some s
  | Some _ =>
      if eqs content (lastContent s) then Some s
      else
        match updateEditorFromContent content s with
        | Some s' =>
            Some (MkSurface (editor s') content (surfaceContent s'))
        | None => None
        end
  end.

(** The effect of the render that shows the state as it is now. *)
Definition syncEffect (s : Surface) : option Surface :=
  syncEffectOf (surfaceContent s) s.

(** *** Emoji suggestions (richer variant) *)

(** An entry of [emojiIndex]. *)
Record EmojiEntry : Type := MkEmojiEntry {
  emoji : jsstring;
  names : list jsstring;
  primaryName : jsstring;
  search : jsstring
}.

(** [hay.includes(needle)] *)
Fixpoint includesString (hay needle : jsstring) : bool :=
  match strip_prefix needle hay with
  | Some _ => true
  | None =>
      match hay with
      | [] => false
      | _ :: hay' => includesString hay' needle
      end
  end.

(** [names.find((name) => name.includes(' '))] *)
Fixpoint findDescriptive (names : list jsstring) : option jsstring :=
  match names with
  | [] => None
  | name :: names' =>
      if includesString name (js " ") then Some name else findDescriptive names'
  end.

Definition pickPrimaryName (names : list jsstring) : jsstring :=
  match names with
  | [] => []
  | first :: _ =>
      match findDescriptive names with
      | Some descriptive => if truthy descriptive then descriptive else first
      | None => first
      end
  end.

Section Suggestions.

(** [String.prototype.toLowerCase], left to the platform. *)
Variable toLowerCase : jsstring -> jsstring.

Definition emojiSuggestions (emojiIndex : list EmojiEntry) (emojiQuery : jsstring)
  : list EmojiEntry :=
  let trimmed := toLowerCase (trim emojiQuery) in
  if negb (truthy trimmed) then []
  else firstn 32 (filter (fun entry => includesString (search entry) trimmed)
                         emojiIndex).

End Suggestions.

(** *** Keys while suggestions are shown *)

Inductive Key : Type :=
| ArrowDown | ArrowUp | Enter | Tab | Escape | OtherKey.

Inductive KeyAction : Type :=
| NoAction
| InsertSuggestion (e : jsstring)          (* insertEmojiSuggestion(pick.emoji) *)
| ClearQuery.                              (* setEmojiQuery(''), range := null *)

Record KeyResult : Type := MkKeyResult {
  defaultPrevented : bool;
  activeIndex : Z;                         (* emojiActiveIndex afterwards *)
  action : KeyAction
}.

(** [emojiSuggestions[emojiActiveIndex]] *)
Definition suggestionAt (suggestions : list EmojiEntry) (i : Z) : option EmojiEntry :=
  if (i <? 0)%Z then None else nth_error suggestions (Z.to_nat i).

(** The [onKeyDown] handler. *)
Definition onKeyDown (suggestions : list EmojiEntry) (emojiActiveIndex : Z)
           (key : Key) : KeyResult :=
  match suggestions with
  | [] => MkKeyResult false emojiActiveIndex NoAction
  | _ :: _ =>
      match key with
      | ArrowDown =>
          MkKeyResult true
            (Z.min (emojiActiveIndex + 1) (Z.of_nat (length suggestions) - 1))
            NoAction
      | ArrowUp =>
          MkKeyResult true (Z.max (emojiActiveIndex - 1) 0) NoAction
      | Enter | Tab =>
          match suggestionAt suggestions emojiActiveIndex with
          | Some pick => MkKeyResult true emojiActiveIndex (InsertSuggestion (emoji pick))
          | None => MkKeyResult true emojiActiveIndex NoAction
          end
      | Escape => MkKeyResult true emojiActiveIndex ClearQuery
      | OtherKey => MkKeyResult false emojiActiveIndex NoAction
      end
  end.

(** The index after a sequence of keys, the list of suggestions staying the
    same. *)
Definition pressKeys (suggestions : list EmojiEntry) (start : Z) (keys : list Key)
  : Z :=
  fold_left (fun i key => activeIndex (onKeyDown suggestions i key)) keys start.

(** *** The Post button *)

(** [disabled={!content.trim() || isSubmitting}] *)
Definition postDisabled (s : State) : bool :=
  negb (truthy (trim (content s))) || isSubmitting s.

End Controller.
Export Controller.

(* ================================================================== *)
(** ** The component between renders *)
(* ================================================================== *)

Module Renders.

(** A handler is made by a render and keeps the state of that render:
    [handlePost] reads [content], [isSubmitting], [validatedMentions] and
    the context values from it, however often it is called before React
    renders again.  What it writes with [setIsSubmitting] and [setContent]
    goes to the state React holds.  [live] is that state, [shown] the state
    of the last render: the handlers in the document and the [disabled] of
    the button come from [shown]. *)
Record Component : Type := MkComponent {
  live : State;
  shown : State;
  inflight : list State;      (* the renders of the sends not yet settled *)
  effects : list Effect
}.

Inductive Action : Type :=
| Invoke                                 (* handlePost() of the last render *)
| Press                                  (* a click on the Post button *)
| Commit                                 (* React renders with the live state *)
| Resolve (i : nat) (o : Outcome)        (* the send at place [i] settles *)
| Edit (value : jsstring)                (* updateContentFromEditor *)
| Validated (l : list Mention).          (* a validation pass finishes *)

(** A call of the [handlePost] of the last render: the guard and the
    arguments of the send are those of [shown]; [setIsSubmitting(true)]
    is applied to the live state. *)
Definition invoke (c : Component) : Component :=
  let '(_, effs, sent) := handlePost (shown c) in
  MkComponent
    (match sent with
     | Some _ => setIsSubmitting true (live c)
     | None => live c
     end)
    (shown c)
    (inflight c ++ match sent with Some closure => [closure] | None => [] end)
    (effects c ++ effs).

Definition act (c : Component) (a : Action) : Component :=
  match a with
  | Invoke => invoke c
  | Press => if postDisabled (shown c) then c else invoke c
  | Commit => MkComponent (live c) (live c) (inflight c) (effects c)
  | Resolve i o =>
      match nth_error (inflight c) i with
      | None => c
      | Some closure =>
          let (s', effs) := handlePostSettle closure o (live c) in
          MkComponent s' (shown c)
                      (firstn i (inflight c) ++ skipn (S i) (inflight c))
                      (effects c ++ effs)
      end
  | Edit value =>
      MkComponent (setContent value (live c)) (shown c) (inflight c) (effects c)
  | Validated l =>
      MkComponent (setValidatedMentions l (live c)) (shown c) (inflight c)
                  (effects c)
  end.

Definition perform (c : Component) (actions : list Action) : Component :=
  fold_left act actions c.

Definition is_resolve (a : Action) : bool :=
  match a with Resolve _ _ => true | _ => false end.

(** A freshly mounted component. *)
Definition mounted (key : option jsstring) (hide : bool) : Component :=
  MkComponent (MkState [] false [] key hide) (MkState [] false [] key hide) [] [].

(** The component of [Submit] seen here: a state that has been rendered. *)
Definition rendered (y : Sys) : Component :=
  MkComponent (state y) (state y) (outstanding y) (log y).

Definition action_of (e : Event) : Action :=
  match e with
  | Click => Invoke
  | Settle o => Resolve 0 o
  | Input value => Edit value
  | MentionsValidated l => Validated l
  end.

End Renders.
Export Renders.

(* ================================================================== *)
(** ** Insertion at the caret *)
(* ================================================================== *)

(** The part of DOM ranges the insertion helpers need: a range whose two
    ends lie in one container, an element or a text node of the editor.
    The container is found from the editor by a path of child indices.  A
    range of any other kind is not modelled ([Unsupported]), and an
    operation answers [None] where the platform would throw or where the
    range is not modelled. *)
Module Caret.

Inductive Boundary : Type :=
| InElement (path : list nat) (offset : nat)
    (* in the element at [path] ([[]] is the editor), before child [offset] *)
| InText (path : list nat) (index : nat) (offset : nat).
    (* in the text node that is child [index] of the element at [path] *)

Record DomRange : Type := MkDomRange {
  startAt : Boundary;
  endAt : nat                 (* the end offset, in the same container *)
}.

Inductive Selection : Type :=
| NoValidRange     (* no selection, no range, or the anchor outside the editor *)
| Ranged (r : DomRange)
| Unsupported.

(** Rewrite the children of the element at [path]. *)
Fixpoint updateAt (path : list nat) (f : list Node -> option (list Node))
         (children : list Node) {struct path} : option (list Node) :=
  match path with
  | [] => f children
  | i :: path' =>
      match nth_error children i with
      | Some (ElementNode tagName attributes childNodes) =>
          match updateAt path' f childNodes with
          | Some childNodes' =>
              Some (firstn i children
                      ++ ElementNode tagName attributes childNodes'
                      :: skipn (S i) children)
          | None => None
          end
      | _ => None
      end
  end.

Definition startOffset (b : Boundary) : nat :=
  match b with InElement _ o => o | InText _ _ o => o end.

Definition boundaryPath (b : Boundary) : list nat :=
  match b with InElement p _ => p | InText p _ _ => p end.

(** What [deleteContents] does to the children of the parent element: the
    children between the two offsets go, or the units between them in the
    text node. *)
Definition deleteIn (b : Boundary) (stop : nat) (cs : list Node)
  : option (list Node) :=
  match b with
  | InElement _ offset =>
      if (offset <=? stop)%nat && (stop <=? length cs)%nat
      then Some (firstn offset cs ++ skipn stop cs)
      else None
  | InText _ index offset =>
      match nth_error cs index with
      | Some (TextNode data) =>
          if (offset <=? stop)%nat && (stop <=? length data)%nat
          then Some (firstn index cs
                       ++ TextNode (firstn offset data ++ skipn stop data)
                       :: skipn (S index) cs)
          else None
      | _ => None
      end
  end.

(** What [insertNode] does there: the node goes before the child at the
    offset, or between the halves of the text node split at the offset. *)
Definition insertIn (b : Boundary) (node : Node) (cs : list Node)
  : option (list Node) :=
  match b with
  | InElement _ offset =>
      if (offset <=? length cs)%nat
      then Some (firstn offset cs ++ node :: skipn offset cs)
      else None
  | InText _ index offset =>
      match nth_error cs index with
      | Some (TextNode data) =>
          if (offset <=? length data)%nat
          then Some (firstn index cs
                       ++ TextNode (firstn offset data) :: node
                       :: TextNode (skipn offset data)
                       :: skipn (S index) cs)
          else None
      | _ => None
      end
  end.

(** The end of a range: the end offset, in the container of the start. *)
Definition endBoundary (r : DomRange) : Boundary :=
  match startAt r with
  | InElement path _ => InElement path (endAt r)
  | InText path index _ => InText path index (endAt r)
  end.

(** [range.deleteContents()] *)
Definition deleteContents (r : DomRange) (children : list Node)
  : option (list Node) :=
  updateAt (boundaryPath (startAt r)) (deleteIn (startAt r) (endAt r)) children.

(** [range.insertNode(node)] for a range that starts at [b]. *)
Definition insertNode (b : Boundary) (node : Node) (children : list Node)
  : option (list Node) :=
  updateAt (boundaryPath b) (insertIn b node) children.

(** [setContent] on the part of the state the surface holds. *)
Definition setSurfaceContent (v : jsstring) (s : Surface) : Surface :=
  MkSurface (editor s) (lastContent s) v.

Definition setEditor (childNodes : list Node) (s : Surface) : Surface :=
  MkSurface (Some childNodes) (lastContent s) (surfaceContent s).

Definition insertTextAtCursor (value : jsstring) (selection : Selection)
           (s : Surface) : option Surface :=
  match editor s with
  | None => Some (setSurfaceContent (surfaceContent s ++ value) s)
  | Some childNodes =>
      match selection with
      | NoValidRange =>
          Some (updateContentFromEditor
                  (setEditor (childNodes ++ [TextNode value]) s))
      | Ranged range =>
          match deleteContents range childNodes with
          | Some deleted =>
              match insertNode (startAt range) (TextNode value) deleted with
              | Some inserted =>
                  Some (updateContentFromEditor (setEditor inserted s))
              | None => None
              end
          | None => None
          end
      | Unsupported => None
      end
  end.

(** The image element [insertEmoteAtCursor] creates; the [style]
    attribute reads as the platform serializes the four declarations. *)
Definition emoteImage (url : jsstring) : Node :=
  ElementNode (js "IMG")
    [(js "src", url); (js "alt", js "7TV emote"); (js "data-emote-url", url);
     (js "style",
      js "height: 1.5rem; width: 1.5rem; display: inline-block; vertical-align: text-bottom;")]
    [].

Definition insertEmoteAtCursor (url : jsstring) (selection : Selection)
           (s : Surface) : option Surface :=
  match editor s with
  | None => Some (setSurfaceContent (surfaceContent s ++ url ++ js " ") s)
  | Some childNodes =>
      let img := emoteImage url in
      let spacer := TextNode (js " ") in
      match selection with
      | NoValidRange =>
          Some (updateContentFromEditor
                  (setEditor ((childNodes ++ [img]) ++ [spacer]) s))
      | Ranged range =>
          match deleteContents range childNodes with
          | Some deleted =>
              match insertNode (startAt range) spacer deleted with
              | Some withSpacer =>
                  match insertNode (startAt range) img withSpacer with
                  | Some withImage =>
                      Some (updateContentFromEditor (setEditor withImage s))
                  | None => None
                  end
              | None => None
              end
          | None => None
          end
      | Unsupported => None
      end
  end.

(** [emojiRangeRef.current] together with the place of its node in the
    editor. *)
Record RangeInfo : Type := MkRangeInfo {
  nodePath : list nat;
  nodeIndex : nat;
  info : EmojiRange
}.

(** [insertEmojiSuggestion]: the surface and the emoji state afterwards. *)
Definition insertEmojiSuggestion (emoji : jsstring) (rangeInfo : option RangeInfo)
           (selection : Selection) (s : Surface) : option (Surface * EmojiState) :=
  match editor s, rangeInfo with
  | Some childNodes, Some ri =>
      if (range_start (info ri) <? 0)%Z || (range_end (info ri) <? 0)%Z then None
      else
        let range :=
          MkDomRange (InText (nodePath ri) (nodeIndex ri)
                             (Z.to_nat (range_start (info ri))))
                     (Z.to_nat (range_end (info ri))) in
        match deleteContents range childNodes with
        | Some deleted =>
            match insertNode (startAt range) (TextNode (emoji ++ js " ")) deleted with
            | Some inserted =>
                Some (updateContentFromEditor (setEditor inserted s), clearEmoji)
            | None => None
            end
        | None => None
        end
  | _, _ =>
      match insertTextAtCursor (emoji ++ js " ") selection s with
      | Some s' => Some (s', clearEmoji)
      | None => None
      end
  end.

(** The caret is not inside an image or a line break: every element on the
    way to the container is one whose children the serializer reads. *)
Fixpoint visible (path : list nat) (children : list Node) {struct path} : bool :=
  match path with
  | [] => true
  | i :: path' =>
      match nth_error children i with
      | Some (ElementNode tagName _ childNodes) =>
          negb (eqs tagName (js "IMG")) && negb (eqs tagName (js "BR"))
          && visible path' childNodes
      | _ => false
      end
  end.

(** The children of the element at [path]. *)
Fixpoint container (path : list nat) (children : list Node) {struct path}
  : option (list Node) :=
  match path with
  | [] => Some children
  | i :: path' =>
      match nth_error children i with
      | Some (ElementNode _ _ childNodes) => container path' childNodes
      | _ => None
      end
  end.

(** What the editor serializes to before and after the element at
    [path]'s children. *)
Fixpoint context (path : list nat) (children : list Node) {struct path}
  : jsstring * jsstring :=
  match path with
  | [] => ([], [])
  | i :: path' =>
      match nth_error children i with
      | Some (ElementNode tagName _ childNodes) =>
          (text_of (firstn i children) ++ fst (context path' childNodes),
           snd (context path' childNodes)
             ++ (if eqs tagName (js "DIV") || eqs tagName (js "P") then [LF]
                 else [])
             ++ text_of (skipn (S i) children))
      | _ => ([], [])
      end
  end.

(** The boundary [b] divides what the list [cs] serializes to into [x]
    before it and [y] after it. *)
Definition Divides (b : Boundary) (cs : list Node) (x y : jsstring) : Prop :=
  match b with
  | InElement _ offset =>
      offset <= length cs
      /\ x = text_of (firstn offset cs) /\ y = text_of (skipn offset cs)
  | InText _ index offset =>
      exists data,
        nth_error cs index = Some (TextNode data)
        /\ offset <= length data
        /\ x = text_of (firstn index cs) ++ firstn offset data
        /\ y = skipn offset data ++ text_of (skipn (S index) cs)
  end.

End Caret.
Export Caret.

(* ================================================================== *)
(** ** The emoji index (richer variant) *)
(* ================================================================== *)

Module EmojiData.

(** [s.split(sep)] for a one-unit separator: the parts between the
    separators, always at least one. *)
Fixpoint split (sep : N) (s : jsstring) : list jsstring :=
  match s with
  | [] => [[]]
  | c :: s' =>
      if (c =? sep)%N then [] :: split sep s'
      else
        match split sep s' with
        | part :: parts => (c :: part) :: parts
        | [] => [[c]]
        end
  end.

(** [l.join(sep)] *)
Fixpoint join (sep : jsstring) (l : list jsstring) : jsstring :=
  match l with
  | [] => []
  | part :: l' =>
      match l' with
      | [] => part
      | _ :: _ => part ++ sep ++ join sep l'
      end
  end.

(** The results of [parseInt] as far as [String.fromCodePoint] tells them
    apart: NaN or an integer.  A Number above 2^53 is no longer the exact
    integer, but it is still above 0x10FFFF and refused like it; -0 counts
    as 0. *)
Inductive Num : Type :=
| NaN
| Int (z : Z).

(** The value of a digit of radix 16. *)
Definition hexDigit (c : N) : option Z :=
  if is_digit c then Some (Z.of_N c - 48)%Z
  else if in_range 97 102 c then Some (Z.of_N c - 87)%Z
  else if in_range 65 70 c then Some (Z.of_N c - 55)%Z
  else None.

(** The digits of the longest prefix made of digits. *)
Fixpoint hexPrefix (s : jsstring) : list Z :=
  match s with
  | c :: s' =>
      match hexDigit c with
      | Some d => d :: hexPrefix s'
      | None => []
      end
  | [] => []
  end.

Definition radix16 (digits : list Z) : Z :=
  fold_left (fun acc d => (16 * acc + d)%Z) digits 0%Z.

(** [parseInt(input, 16)]: leading white space goes, then a sign, then
    [0x] or [0X]; the digits that follow are read, and there must be one. *)
Definition parseInt16 (input : jsstring) : Num :=
  let s := trimStart input in
  let sign := match s with
              | c :: _ => if (c =? 45)%N then (-1)%Z else 1%Z
              | [] => 1%Z
              end in
  let s := match s with
           | c :: s' => if (c =? 45)%N || (c =? 43)%N then s' else s
           | [] => s
           end in
  let s := match s with
           | z :: x :: s' =>
               if (z =? 48)%N && ((x =? 120)%N || (x =? 88)%N) then s' else s
           | _ => s
           end in
  match hexPrefix s with
  | [] => NaN
  | digits => Int (sign * radix16 digits)
  end.

(** UTF16EncodeCodePoint *)
Definition utf16 (cp : Z) : jsstring :=
  if (cp <=? 65535)%Z then [Z.to_N cp]
  else [Z.to_N ((cp - 65536) / 1024 + 55296);
        Z.to_N ((cp - 65536) mod 1024 + 56320)].

(** [String.fromCodePoint(...codePoints)]; [None] is its RangeError. *)
Fixpoint fromCodePoint (codePoints : list Num) : option jsstring :=
  match codePoints with
  | [] => Some []
  | NaN :: _ => None
  | Int z :: rest =>
      if (z <? 0)%Z || (1114111 <? z)%Z then None
      else
        match fromCodePoint rest with
        | Some s => Some (utf16 z ++ s)
        | None => None
        end
  end.

Definition toEmoji (unicode : jsstring) : option jsstring :=
  fromCodePoint (map parseInt16 (split 45 unicode)).

(** An entry of the data file: both fields may be missing. *)
Record RawEntry : Type := MkRawEntry {
  n : option (list jsstring);
  u : option jsstring
}.

(** A category of the data file; it or an entry of it may be [null]. *)
Definition Category : Type := option (list (option RawEntry)).

(** [entry?.u && Array.isArray(entry.n) && entry.n.length] *)
Definition kept (entry : option RawEntry) : bool :=
  match entry with
  | None => false
  | Some e =>
      match u e with
      | None => false
      | Some unicode =>
          truthy unicode
          && match n e with
             | Some l => negb (length l =? 0)
             | None => false
             end
      end
  end.

(** [f] on every element in turn; the first failure is the result. *)
Fixpoint mapAll {A B : Type} (f : A -> option B) (l : list A)
  : option (list B) :=
  match l with
  | [] => Some []
  | x :: l' =>
      match f x with
      | None => None
      | Some y =>
          match mapAll f l' with
          | Some ys => Some (y :: ys)
          | None => None
          end
      end
  end.

Section Index.

(** [String.prototype.toLowerCase], left to the platform. *)
Variable toLowerCase : jsstring -> jsstring.

(** The callback of [map]; reading a field of [null] and calling [split]
    on [undefined] throw. *)
Definition indexEntry (entry : option RawEntry) : option EmojiEntry :=
  match entry with
  | None => None
  | Some e =>
      let names := match n e with Some l => l | None => [] end in
      match u e with
      | None => None
      | Some unicode =>
          match toEmoji unicode with
          | None => None
          | Some emoji =>
              Some (MkEmojiEntry emoji names (pickPrimaryName names)
                                 (toLowerCase (join (js " ") names)))
          end
      end
  end.

(** [category || []] *)
Definition entriesOf (category : Category) : list (option RawEntry) :=
  match category with
  | Some l => l
  | None => []
  end.

(** [emojiIndex], from [Object.values(emojiData)]; [None] when building it
    throws. *)
Definition emojiIndex (categories : list Category) : option (list EmojiEntry) :=
  match mapAll (fun category => mapAll indexEntry (filter kept (entriesOf category)))
               categories with
  | Some lists => Some (concat lists)
  | None => None
  end.

End Index.

(** A numeral of radix 16 and its value: one digit, or a numeral and one
    more digit. *)
Inductive HexNumeral : jsstring -> Z -> Prop :=
| hex_digit : forall c d, hexDigit c = Some d -> HexNumeral [c] d
| hex_more : forall s v c d,
    HexNumeral s v -> hexDigit c = Some d ->
    HexNumeral (s ++ [c]) (16 * v + d)%Z.

(** An entry of the data file and the index entry that stands for it:
    the names are the entry's and there is one, the emoji is the decoded
    [u], the primary name is one of the names, the search text is the names
    joined by spaces, in lower case. *)
Definition Indexed (toLowerCase : jsstring -> jsstring)
           (entry : option RawEntry) (e : EmojiEntry) : Prop :=
  exists raw unicode,
    entry = Some raw
    /\ n raw = Some (names e)
    /\ u raw = Some unicode
    /\ toEmoji unicode = Some (emoji e)
    /\ names e <> []
    /\ In (primaryName e) (names e)
    /\ search e = toLowerCase (join (js " ") (names e)).

End EmojiData.

(* ================================================================== *)
(** ** Further properties, stated independently of the code *)
(* ================================================================== *)

Module Properties.

(** What a rendered text may become in the editor: text, a bare line
    break, or an image with the four attributes of the placeholder and a
    well-formed emote URL. *)
Definition SafeNode (n : Node) : Prop :=
  match n with
  | TextNode _ => True
  | ElementNode tagName attributes childNodes =>
      childNodes = []
      /\ ((tagName = js "BR" /\ attributes = [])
          \/ (tagName = js "IMG"
              /\ exists u, EmoteUrl u /\ attributes = emote_attributes u))
  | OtherNode _ _ => False
  end.

(** [sub] occurs in [s]. *)
Definition Substring (sub s : jsstring) : Prop :=
  exists a b, s = a ++ sub ++ b.


End Properties.
Export Properties.

(* ================================================================== *)
(** ** Lists and strings *)
(* ================================================================== *)

Section ListFacts.

Lemma eqs_refl : forall a, eqs a a = true.
Proof.
  induction a as [|x a IH]; simpl; [reflexivity|].
  now rewrite N.eqb_refl, IH.
Qed.

Lemma eqs_eq : forall a b, eqs a b = true <-> a = b.
Proof.
  induction a as [|x a IH]; destruct b as [|y b]; simpl; split;
    try congruence; try reflexivity.
  - intros H. apply andb_true_iff in H. destruct H as [H1 H2].
    apply N.eqb_eq in H1. apply IH in H2. congruence.
  - intros H. injection H as -> ->. now rewrite N.eqb_refl, eqs_refl.
Qed.

Lemma strip_prefix_app : forall p r, strip_prefix p (p ++ r) = Some r.
Proof.
  induction p as [|c p IH]; intros r; simpl; [reflexivity|].
  now rewrite N.eqb_refl.
Qed.

Lemma strip_prefix_Some : forall p s r, strip_prefix p s = Some r -> s = p ++ r.
Proof.
  induction p as [|c p IH]; intros s r H; simpl in *.
  - congruence.
  - destruct s as [|d s]; [discriminate|].
    destruct (N.eqb_spec c d) as [->|]; [|discriminate].
    simpl. f_equal. now apply IH.
Qed.

Lemma take_drop_while : forall p s, take_while p s ++ drop_while p s = s.
Proof.
  induction s as [|c s IH]; simpl; [reflexivity|].
  destruct (p c); simpl; congruence.
Qed.

Lemma take_while_Forall : forall p s, Forall (fun c => p c = true) (take_while p s).
Proof.
  induction s as [|c s IH]; simpl; [constructor|].
  destruct (p c) eqn:E; constructor; assumption.
Qed.

Lemma drop_while_head : forall p s c r, drop_while p s = c :: r -> p c = false.
Proof.
  induction s as [|d s IH]; simpl; intros c r H; [discriminate|].
  destruct (p d) eqn:E; [eauto|]. congruence.
Qed.

(** A run of units satisfying [p], followed by a text that does not start
    with such a unit, is split where the run ends. *)
Lemma take_while_app : forall p a b,
    Forall (fun c => p c = true) a ->
    match b with c :: _ => p c = false | [] => True end ->
    take_while p (a ++ b) = a /\ drop_while p (a ++ b) = b.
Proof.
  induction a as [|x a IH]; intros b Ha Hb; simpl.
  - destruct b as [|c b]; simpl; [auto|]. now rewrite Hb.
  - inversion Ha; subst. rewrite H1.
    destruct (IH b H2 Hb) as [-> ->]. auto.
Qed.

Lemma skipn_app_exact : forall (a b : jsstring), skipn (length a) (a ++ b) = b.
Proof. induction a; simpl; auto. Qed.

Lemma firstn_app_exact : forall (a b : jsstring), firstn (length a) (a ++ b) = a.
Proof. induction a; simpl; intros; f_equal; auto. Qed.

(** [slice] between the ends of a prefix [a] and of [a ++ b]. *)
Lemma slice_middle : forall (a b c : jsstring),
    slice (length a) (length a + length b) (a ++ b ++ c) = b.
Proof.
  intros a b c. unfold slice.
  replace (a ++ b ++ c) with ((a ++ b) ++ c) by now rewrite app_assoc.
  replace (length a + length b) with (length (a ++ b)) by now rewrite length_app.
  rewrite firstn_app_exact. apply skipn_app_exact.
Qed.

Lemma fold_left_app_concat : forall (A : Type) (f : A -> jsstring) l acc,
    fold_left (fun text child => text ++ f child) l acc = acc ++ concat (map f l).
Proof.
  induction l as [|x l IH]; intros acc; simpl.
  - now rewrite app_nil_r.
  - rewrite IH. now rewrite app_assoc.
Qed.

End ListFacts.

(* ================================================================== *)
(** ** The matcher on the shapes of pattern the source uses *)
(* ================================================================== *)

Section MatcherFacts.

Lemma m_Lit : forall s k x,
    m (Lit s) k x =
    match strip_prefix s (rest x) with
    | Some r => k (MState (pos x + length s) r (caps x))
    | None => None
    end.
Proof.
  induction s as [|c s IH]; intros k [i t cs]; simpl.
  - now rewrite Nat.add_0_r.
  - destruct t as [|d t]; [reflexivity|].
    destruct (c =? d)%N; [|reflexivity].
    rewrite IH. simpl. destruct (strip_prefix s t); [|reflexivity].
    now rewrite Nat.add_succ_r.
Qed.

(** A greedy star over a class, followed by a pattern that cannot start
    with a unit of the class, takes the longest run and never gives any
    of it back. *)
Lemma star_loop_class : forall p k body,
    (forall k' x, body k' x = m (Chr p) k' x) ->
    blocked p k ->
    forall fuel i t cs,
      length t <= fuel ->
      star_loop body k fuel (MState i t cs) =
      k (MState (i + length (take_while p t)) (drop_while p t) cs).
Proof.
  intros p k body Hbody Hb.
  induction fuel as [|fuel IH]; intros i t cs Hlen.
  - destruct t; [|simpl in Hlen; lia]. simpl. now rewrite Nat.add_0_r.
  - cbn [star_loop]. rewrite Hbody.
    destruct t as [|c t]; cbn [m rest pos take_while drop_while].
    + simpl. now rewrite Nat.add_0_r.
    + destruct (p c) eqn:Hc; cbn [length].
      * unfold advance. cbn [pos caps].
        destruct (Nat.eqb_spec (S i) i) as [E|_]; [lia|].
        rewrite IH by (simpl in Hlen; lia).
        replace (S i + length (take_while p t))
          with (i + S (length (take_while p t))) by lia.
        match goal with |- match ?e with _ => _ end = _ => destruct e eqn:Hk end;
          [reflexivity|].
        now apply Hb.
      * now rewrite Nat.add_0_r.
Qed.

Lemma m_Star_class : forall p k i t cs,
    blocked p k ->
    m (Star (Chr p)) k (MState i t cs) =
    k (MState (i + length (take_while p t)) (drop_while p t) cs).
Proof.
  intros. cbn [m rest]. apply star_loop_class with (p := p); auto.
Qed.

(** The same for [+]: the run must not be empty. *)
Lemma m_Plus_class : forall p k i t cs,
    blocked p k ->
    m (Plus (Chr p)) k (MState i t cs) =
    match take_while p t with
    | [] => None
    | _ :: _ => k (MState (i + length (take_while p t)) (drop_while p t) cs)
    end.
Proof.
  intros p k i t cs Hb. unfold Plus.
  change (m (Seq (Chr p) (Star (Chr p))) k (MState i t cs))
    with (m (Chr p) (m (Star (Chr p)) k) (MState i t cs)).
  destruct t as [|c t]; cbn [m rest take_while drop_while]; [reflexivity|].
  destruct (p c) eqn:Hc; [|reflexivity].
  unfold advance; cbn [pos caps length].
  rewrite star_loop_class with (p := p) by (auto; lia).
  now replace (S i + length (take_while p t))
    with (i + S (length (take_while p t))) by lia.
Qed.

Lemma blocked_Lit1 : forall p c k, p c = false -> blocked p (m (Lit1 c) k).
Proof.
  intros p c k Hc i d t cs Hd. simpl.
  destruct (N.eqb_spec c d) as [->|]; [congruence|reflexivity].
Qed.

Lemma blocked_Eol : forall p k, blocked p (m Eol k).
Proof. intros p k i d t cs Hd. reflexivity. Qed.

End MatcherFacts.

(* ================================================================== *)
(** ** The emote pattern *)
(* ================================================================== *)

Section EmotePattern.

Lemma blocked_Lit : forall p c s k, p c = false -> blocked p (m (Lit (c :: s)) k).
Proof.
  intros p c s k Hc i d t cs Hd. rewrite m_Lit. cbn [rest strip_prefix].
  destruct (N.eqb_spec c d) as [->|]; [congruence|reflexivity].
Qed.

Lemma m_Opt_Lit1 : forall c k i t cs,
    blocked (N.eqb c) k ->
    m (Opt (Lit1 c)) k (MState i t cs) =
    match t with
    | d :: r => if (c =? d)%N then k (MState (S i) r cs) else k (MState i t cs)
    | [] => k (MState i t cs)
    end.
Proof.
  intros c k i t cs Hb. unfold Opt, Lit1. cbn [m rest].
  destruct t as [|d r]; [reflexivity|].
  destruct (c =? d)%N eqn:E; [|reflexivity].
  unfold advance; cbn [pos caps].
  destruct (k (MState (S i) r cs)); [reflexivity|].
  now apply Hb.
Qed.

Lemma m_Seq : forall a b k x, m (Seq a b) k x = m a (m b k) x.
Proof. reflexivity. Qed.

Lemma m_Chr : forall p k i t cs,
    m (Chr p) k (MState i t cs) =
    match t with
    | c :: r => if p c then k (MState (S i) r cs) else None
    | [] => None
    end.
Proof. reflexivity. Qed.

Lemma m_Alt : forall a b k x,
    m (Alt a b) k x = match m a k x with Some z => Some z | None => m b k x end.
Proof. reflexivity. Qed.

Lemma m_exts : forall i s cs,
    m (Alt (Lit (js "webp")) (Alt (Lit (js "png")) (Lit (js "avif"))))
      (fun y => Some y) (MState i s cs) =
    match ext_prefix s with
    | Some (ext, r) => Some (MState (i + length ext) r cs)
    | None => None
    end.
Proof.
  intros i s cs. unfold ext_prefix.
  rewrite !m_Alt, !m_Lit. cbn [rest pos caps].
  destruct (strip_prefix (js "webp") s); [reflexivity|].
  destruct (strip_prefix (js "png") s); [reflexivity|].
  destruct (strip_prefix (js "avif") s); reflexivity.
Qed.

(** The pattern at one index: it matches exactly when [emote_prefix]
    finds a URL there, and ends where that URL ends. *)
Lemma m_emote : forall i s cs,
    m emoteUrlRegex (fun y => Some y) (MState i s cs) =
    match emote_prefix s with
    | Some (u, r) => Some (MState (i + length u) r cs)
    | None => None
    end.
Proof.
  intros i s cs. unfold emoteUrlRegex, emote_prefix.
  rewrite m_Seq, m_Lit. cbn [rest pos caps].
  destruct (strip_prefix (js "http") s) as [s1|]; [|reflexivity].
  rewrite m_Seq, m_Opt_Lit1.
  2:{ change (m (Seq ?a ?b) ?k) with (m a (m b k)).
      apply blocked_Lit. reflexivity. }
  set (K := m (Seq (Lit (js "://cdn.7tv.app/emote/")) _) _).
  assert (HK : forall j t,
    K (MState j t cs) =
    match strip_prefix (js "://cdn.7tv.app/emote/") t with
    | None => None
    | Some s3 =>
        match take_while is_alnum s3, drop_while is_alnum s3 with
        | _ :: _, c :: s4 =>
            if (ch "/" =? c)%N then
              match take_while is_digit s4 with
              | [] => None
              | _ :: _ =>
                  match strip_prefix (js "x.") (drop_while is_digit s4) with
                  | None => None
                  | Some s6 =>
                      match ext_prefix s6 with
                      | Some (ext, r) =>
                          Some (MState
                                  (j + length (js "://cdn.7tv.app/emote/"
                                    ++ take_while is_alnum s3 ++ js "/"
                                    ++ take_while is_digit s4 ++ js "x." ++ ext))
                                  r cs)
                      | None => None
                      end
                  end
              end
            else None
        | _, _ => None
        end
    end).
  { intros j t. subst K.
    rewrite m_Seq, m_Lit. cbn [rest pos caps].
    destruct (strip_prefix (js "://cdn.7tv.app/emote/") t) as [s3|]; [|reflexivity].
    rewrite m_Seq, m_Plus_class by (apply blocked_Lit1; reflexivity).
    destruct (take_while is_alnum s3) as [|a0 id] eqn:Eid; [reflexivity|].
    rewrite m_Seq. unfold Lit1 at 1. rewrite m_Chr.
    destruct (drop_while is_alnum s3) as [|c s4]; [reflexivity|].
    destruct (ch "/" =? c)%N; [|reflexivity].
    rewrite m_Seq, m_Plus_class.
    2:{ change (m (Seq ?a ?b) ?k) with (m a (m b k)).
        apply blocked_Lit. reflexivity. }
    destruct (take_while is_digit s4) as [|d0 ds] eqn:Eds; [reflexivity|].
    rewrite m_Seq, m_Lit. cbn [rest pos caps].
    destruct (strip_prefix (js "x.") (drop_while is_digit s4)) as [s6|];
      [|reflexivity].
    rewrite m_exts. destruct (ext_prefix s6) as [[ext r]|]; [|reflexivity].
    f_equal; f_equal. rewrite !length_app. cbn [length js]. lia. }
  assert (Hfin : forall j t pre,
    j = i + length (js "http" ++ pre) ->
    K (MState j t cs) =
    match
      match strip_prefix (js "://cdn.7tv.app/emote/") t with
      | None => None
      | Some s3 =>
          match take_while is_alnum s3, drop_while is_alnum s3 with
          | _ :: _, c :: s4 =>
              if (ch "/" =? c)%N then
                match take_while is_digit s4 with
                | [] => None
                | _ :: _ =>
                    match strip_prefix (js "x.") (drop_while is_digit s4) with
                    | None => None
                    | Some s6 =>
                        match ext_prefix s6 with
                        | Some (ext, r) =>
                            Some (js "http" ++ pre
                                    ++ js "://cdn.7tv.app/emote/"
                                    ++ take_while is_alnum s3 ++ js "/"
                                    ++ take_while is_digit s4 ++ js "x." ++ ext,
                                  r)
                        | None => None
                        end
                    end
                end
              else None
          | _, _ => None
          end
      end
    with
    | Some (u, r) => Some (MState (i + length u) r cs)
    | None => None
    end).
  { intros j t pre ->. rewrite HK.
    destruct (strip_prefix (js "://cdn.7tv.app/emote/") t) as [s3|]; [|reflexivity].
    destruct (take_while is_alnum s3); [reflexivity|].
    destruct (drop_while is_alnum s3) as [|c s4]; [reflexivity|].
    destruct (ch "/" =? c)%N; [|reflexivity].
    destruct (take_while is_digit s4); [reflexivity|].
    destruct (strip_prefix (js "x.") (drop_while is_digit s4)); [|reflexivity].
    destruct (ext_prefix _) as [[ext r]|]; [|reflexivity].
    f_equal; f_equal. rewrite !length_app. lia. }
  unfold opt_s. destruct s1 as [|c r1].
  - cbn [fst snd]. apply Hfin. rewrite length_app. simpl. lia.
  - destruct (ch "s" =? c)%N; cbn [fst snd]; apply Hfin;
      rewrite length_app; simpl; lia.
Qed.

End EmotePattern.

Section EmoteUrls.

Lemma ext_prefix_sound : forall s ext r,
    ext_prefix s = Some (ext, r) ->
    s = ext ++ r /\ (ext = js "webp" \/ ext = js "png" \/ ext = js "avif").
Proof.
  unfold ext_prefix. intros s ext r H.
  destruct (strip_prefix (js "webp") s) eqn:E1.
  { injection H as <- <-. apply strip_prefix_Some in E1. auto. }
  destruct (strip_prefix (js "png") s) eqn:E2.
  { injection H as <- <-. apply strip_prefix_Some in E2. auto. }
  destruct (strip_prefix (js "avif") s) eqn:E3; [|discriminate].
  injection H as <- <-. apply strip_prefix_Some in E3. auto.
Qed.

Lemma ext_prefix_complete : forall ext r,
    ext = js "webp" \/ ext = js "png" \/ ext = js "avif" ->
    ext_prefix (ext ++ r) = Some (ext, r).
Proof.
  intros ext r [->|[->| ->]]; unfold ext_prefix.
  - now rewrite strip_prefix_app.
  - replace (strip_prefix (js "webp") (js "png" ++ r)) with (@None jsstring)
      by reflexivity.
    now rewrite strip_prefix_app.
  - replace (strip_prefix (js "webp") (js "avif" ++ r)) with (@None jsstring)
      by reflexivity.
    replace (strip_prefix (js "png") (js "avif" ++ r)) with (@None jsstring)
      by reflexivity.
    now rewrite strip_prefix_app.
Qed.

(** [emote_prefix] finds only well-formed emote URLs, at the start of the
    text. *)
Lemma emote_prefix_sound : forall s u r,
    emote_prefix s = Some (u, r) -> s = u ++ r /\ EmoteUrl u.
Proof.
  unfold emote_prefix. intros s u r H.
  destruct (strip_prefix (js "http") s) as [s1|] eqn:E1; [|discriminate].
  apply strip_prefix_Some in E1.
  assert (Hs1 : s1 = fst (opt_s s1) ++ snd (opt_s s1)
                /\ (fst (opt_s s1) = [] \/ fst (opt_s s1) = js "s")).
  { unfold opt_s. destruct s1 as [|c r1]; [auto|].
    destruct (N.eqb_spec (ch "s") c) as [<-|]; auto. }
  destruct (opt_s s1) as [pre s2]. cbn [fst snd] in *.
  destruct Hs1 as [Hs1 Hopt].
  destruct (strip_prefix _ s2) as [s3|] eqn:E3; [|discriminate].
  apply strip_prefix_Some in E3.
  pose proof (take_drop_while is_alnum s3) as Hid.
  pose proof (take_while_Forall is_alnum s3) as Fid.
  destruct (take_while is_alnum s3) as [|a0 id] eqn:Eid; [discriminate|].
  destruct (drop_while is_alnum s3) as [|c s4] eqn:E4; [discriminate|].
  destruct (N.eqb_spec (ch "/") c) as [<-|]; [|discriminate].
  pose proof (take_drop_while is_digit s4) as Hds.
  pose proof (take_while_Forall is_digit s4) as Fds.
  destruct (take_while is_digit s4) as [|d0 ds] eqn:Eds; [discriminate|].
  destruct (strip_prefix (js "x.") _) as [s6|] eqn:E6; [|discriminate].
  apply strip_prefix_Some in E6.
  destruct (ext_prefix s6) as [[ext r']|] eqn:E7; [|discriminate].
  apply ext_prefix_sound in E7. destruct E7 as [E7 Hext].
  injection H as <- <-.
  rewrite E6, E7 in Hds. split.
  - rewrite E1, Hs1, E3, <- Hid, <- Hds.
    repeat (simpl; rewrite <- app_assoc). reflexivity.
  - exists (js "http" ++ pre), (a0 :: id), (d0 :: ds), ext.
    split; [now rewrite <- !app_assoc|].
    split; [destruct Hopt as [->| ->]; auto|].
    repeat split; auto; discriminate.
Qed.

(** Conversely it finds every well-formed emote URL a text starts with. *)
Lemma emote_prefix_complete : forall u r,
    EmoteUrl u -> emote_prefix (u ++ r) = Some (u, r).
Proof.
  intros u r (scheme & id & scale & ext & -> & Hs & Hid & Fid & Hsc & Fsc & Hext).
  assert (Hopt : exists pre, scheme = js "http" ++ pre
                             /\ (pre = [] \/ pre = js "s")).
  { destruct Hs as [->| ->]; [exists []|exists (js "s")]; auto. }
  destruct Hopt as (pre & -> & Hpre).
  unfold emote_prefix. rewrite <- !app_assoc. rewrite strip_prefix_app.
  assert (Ho : opt_s (pre ++ js "://cdn.7tv.app/emote/" ++ id ++ js "/"
                        ++ scale ++ js "x." ++ ext ++ r)
               = (pre, js "://cdn.7tv.app/emote/" ++ id ++ js "/"
                        ++ scale ++ js "x." ++ ext ++ r)).
  { destruct Hpre as [->| ->]; reflexivity. }
  rewrite Ho. cbn [fst snd]. rewrite strip_prefix_app.
  destruct (@take_while_app is_alnum id (js "/" ++ scale ++ js "x." ++ ext ++ r))
    as [T1 D1]; [assumption|reflexivity|].
  rewrite T1, D1.
  destruct id as [|a0 id]; [congruence|].
  change (js "/") with [ch "/"]. cbn [app]. rewrite N.eqb_refl.
  destruct (@take_while_app is_digit scale (js "x." ++ ext ++ r))
    as [T2 D2]; [assumption|reflexivity|].
  rewrite T2, D2.
  destruct scale as [|d0 ds]; [congruence|].
  rewrite strip_prefix_app, ext_prefix_complete by assumption.
  reflexivity.
Qed.

Lemma Forall_js : forall (p : N -> bool) s,
    forallb p (js s) = true -> Forall (fun c => p c = true) (js s).
Proof. intros p s H. now apply Forall_forall, forallb_forall. Qed.

Lemma EmoteUrl_units : forall u,
    EmoteUrl u -> Forall (fun c => url_unit c = true) u.
Proof.
  intros u (scheme & id & scale & ext & -> & Hs & _ & Fid & _ & Fsc & Hext).
  assert (Hw : forall p q : N -> bool, (forall c, p c = true -> q c = true) ->
               forall l, Forall (fun c => p c = true) l ->
                         Forall (fun c => q c = true) l).
  { intros p q Hpq l Hl. eapply Forall_impl; [|exact Hl]. exact Hpq. }
  apply Forall_app; split.
  { destruct Hs as [->| ->]; now apply Forall_js. }
  apply Forall_app; split; [now apply Forall_js|].
  apply Forall_app; split.
  { apply (Hw is_alnum); [|assumption].
    intros c Hc. unfold url_unit. now rewrite Hc. }
  apply Forall_app; split; [now apply Forall_js|].
  apply Forall_app; split.
  { apply (Hw is_digit); [|assumption].
    intros c Hc. unfold url_unit, is_alnum. rewrite Hc.
    now rewrite orb_true_r. }
  apply Forall_app; split; [now apply Forall_js|].
  destruct Hext as [->|[->| ->]]; now apply Forall_js.
Qed.

Lemma EmoteUrl_nonempty : forall u, EmoteUrl u -> u <> [].
Proof.
  intros u (scheme & id & scale & ext & -> & Hs & _).
  destruct Hs as [->| ->]; discriminate.
Qed.

(** At most one emote URL starts at a given place. *)
Lemma EmoteUrl_unique : forall u u' r r',
    EmoteUrl u -> EmoteUrl u' -> u ++ r = u' ++ r' -> u = u'.
Proof.
  intros u u' r r' Hu Hu' E.
  pose proof (emote_prefix_complete r Hu) as H1.
  pose proof (emote_prefix_complete r' Hu') as H2.
  rewrite E in H1. congruence.
Qed.

(** [find_emote] returns the leftmost emote URL. *)
Lemma find_emote_Some : forall s a u r,
    find_emote s = Some (a, u, r) ->
    s = a ++ u ++ r /\ EmoteUrl u /\
    (forall a' u' r', s = a' ++ u' ++ r' -> EmoteUrl u' -> length a <= length a').
Proof.
  induction s as [|c s IH]; intros a u r H; cbn [find_emote] in H.
  - destruct (emote_prefix []) as [[u0 r0]|] eqn:E; [|discriminate].
    injection H as <- <- <-. apply emote_prefix_sound in E.
    destruct E as [E Hu]. repeat split; auto. intros; simpl; lia.
  - destruct (emote_prefix (c :: s)) as [[u0 r0]|] eqn:E.
    + injection H as <- <- <-. apply emote_prefix_sound in E.
      destruct E as [E Hu]. repeat split; auto. intros; simpl; lia.
    + destruct (find_emote s) as [[[a1 u1] r1]|] eqn:F; [|discriminate].
      injection H as <- <- <-.
      destruct (IH _ _ _ eq_refl) as (-> & Hu & Hmin).
      repeat split; auto.
      intros a' u' r' E' Hu'. destruct a' as [|c' a'].
      * simpl in E'. rewrite E' in E.
        rewrite (emote_prefix_complete r' Hu') in E. discriminate.
      * simpl in E'. injection E' as _ E'. simpl.
        apply le_n_S. eapply Hmin; eauto.
Qed.

Lemma find_emote_None : forall s, find_emote s = None -> ~ HasEmote s.
Proof.
  induction s as [|c s IH]; intros H (a & u & b & E & Hu); cbn [find_emote] in H.
  - destruct (emote_prefix []) as [[u0 r0]|] eqn:P; [discriminate|].
    destruct a; [|discriminate]. simpl in E. rewrite E in P.
    rewrite (emote_prefix_complete b Hu) in P. discriminate.
  - destruct (emote_prefix (c :: s)) as [[u0 r0]|] eqn:P; [discriminate|].
    destruct (find_emote s) as [[[a1 u1] r1]|] eqn:F; [discriminate|].
    destruct a as [|c' a].
    + simpl in E. rewrite E in P.
      rewrite (emote_prefix_complete b Hu) in P. discriminate.
    + simpl in E. injection E as _ E.
      apply (IH eq_refl). now exists a, u, b.
Qed.

(** Conversely the leftmost emote URL is what [find_emote] returns. *)
Lemma find_emote_eq : forall s,
    find_emote s =
    match emote_prefix s with
    | Some (u, r) => Some ([], u, r)
    | None =>
        match s with
        | [] => None
        | c :: s' =>
            match find_emote s' with
            | Some (a, u, r) => Some (c :: a, u, r)
            | None => None
            end
        end
    end.
Proof. destruct s; reflexivity. Qed.

Lemma find_emote_leftmost : forall a u r,
    EmoteUrl u ->
    (forall a' u' r', a ++ u ++ r = a' ++ u' ++ r' -> EmoteUrl u' ->
                      length a <= length a') ->
    find_emote (a ++ u ++ r) = Some (a, u, r).
Proof.
  induction a as [|c a IH]; intros u r Hu Hmin.
  - cbn [app]. now rewrite find_emote_eq, (emote_prefix_complete r Hu).
  - cbn [app]. rewrite find_emote_eq.
    destruct (emote_prefix (c :: a ++ u ++ r)) as [[u0 r0]|] eqn:P.
    + apply emote_prefix_sound in P. destruct P as [E Hu0].
      specialize (Hmin [] u0 r0 E Hu0). simpl in Hmin. lia.
    + rewrite IH; auto.
      intros a' u' r' E Hu'.
      specialize (Hmin (c :: a') u' r'). cbn [app] in Hmin.
      rewrite E in Hmin. specialize (Hmin eq_refl Hu'). simpl in Hmin. lia.
Qed.

End EmoteUrls.

(* ================================================================== *)
(** ** Global replacement of a class, and the escaper *)
(* ================================================================== *)

Section Replace.

Lemma exec_at : forall r (pre t : jsstring),
    exec r (pre ++ t) (length pre) = scan r (length pre) t.
Proof.
  intros r pre t. unfold exec.
  rewrite skipn_app_exact.
  destruct (Nat.leb_spec (length pre) (length (pre ++ t))) as [_|H];
    [reflexivity|].
  rewrite length_app in H. lia.
Qed.

Lemma exec_0 : forall r (s : jsstring), exec r s 0 = scan r 0 s.
Proof. reflexivity. Qed.

Lemma scan_Chr : forall p t i,
    scan (Chr p) i t =
    match drop_while (fun c => negb (p c)) t with
    | [] => None
    | _ :: _ =>
        let n := length (take_while (fun c => negb (p c)) t) in
        Some (Result (i + n) (S (i + n)) [])
    end.
Proof.
  induction t as [|c t IH]; intros i; [reflexivity|].
  cbn [scan m rest take_while drop_while].
  destruct (p c) eqn:Hc; cbn [negb].
  - unfold advance. cbn [pos caps length]. now rewrite Nat.add_0_r.
  - rewrite IH. destruct (drop_while _ t); [reflexivity|].
    cbn [length]. cbv zeta. do 2 f_equal; lia.
Qed.

Lemma flat_map_unmatched : forall p repl t,
    Forall (fun c => negb (p c) = true) t ->
    flat_map (replaceUnit p repl) t = t.
Proof.
  induction 1 as [|c t Hc _ IH]; simpl; [reflexivity|].
  unfold replaceUnit at 1. apply negb_true_iff in Hc. rewrite Hc.
  simpl. now rewrite IH.
Qed.

Lemma replace_loop_class : forall p repl fuel (pre t : jsstring),
    length t < fuel ->
    replace_loop fuel (Chr p) repl (pre ++ t) (length pre) (length pre) =
    flat_map (replaceUnit p repl) t.
Proof.
  intros p repl. induction fuel as [|fuel IH]; intros pre t Hlen; [lia|].
  cbn [replace_loop]. rewrite exec_at, scan_Chr.
  pose proof (take_drop_while (fun c => negb (p c)) t) as Hsplit.
  pose proof (take_while_Forall (fun c => negb (p c)) t) as Hun.
  cbv beta in Hun.
  destruct (drop_while (fun c => negb (p c)) t) as [|c b] eqn:Hd.
  - unfold slice_from. rewrite skipn_app_exact.
    rewrite app_nil_r in Hsplit. rewrite <- Hsplit at 2.
    now rewrite flat_map_unmatched.
  - set (a := take_while (fun c => negb (p c)) t) in *.
    cbv zeta. cbn [index stop].
    destruct (Nat.eqb_spec (S (length pre + length a)) (length pre + length a));
      [lia|].
    assert (Hc : p c = true).
    { apply drop_while_head in Hd. now apply negb_false_iff in Hd. }
    rewrite <- Hsplit.
    rewrite slice_middle.
    replace (pre ++ a ++ c :: b) with ((pre ++ a ++ [c]) ++ b)
      by (rewrite <- !app_assoc; reflexivity).
    replace (S (length pre + length a)) with (length (pre ++ a ++ [c]))
      by (rewrite !length_app; simpl; lia).
    rewrite IH.
    + rewrite flat_map_app. cbn [flat_map].
      rewrite (@flat_map_unmatched p repl a Hun).
      unfold replaceUnit. now rewrite Hc.
    + rewrite <- Hsplit in Hlen. rewrite length_app in Hlen.
      simpl in Hlen. lia.
Qed.

(** A global replacement of a class acts on each unit by itself. *)
Lemma replace_all_class : forall p repl s,
    replace_all (Chr p) repl s = flat_map (replaceUnit p repl) s.
Proof.
  intros p repl s. unfold replace_all.
  apply (@replace_loop_class p repl (2 + length s) [] s). simpl. lia.
Qed.

Lemma flat_map_cons_app : forall (f : N -> jsstring) c s,
    flat_map f (c :: s) = f c ++ flat_map f s.
Proof. reflexivity. Qed.

Lemma escapeUnit_other : forall c,
    c <> ch "&" -> c <> ch "<" -> c <> ch ">" -> c <> QUOT -> c <> APOS ->
    escapeUnit c = [c].
Proof.
  intros c H1 H2 H3 H4 H5. unfold escapeUnit.
  destruct (N.eqb_spec c (ch "&")); [contradiction|].
  destruct (N.eqb_spec c (ch "<")); [contradiction|].
  destruct (N.eqb_spec c (ch ">")); [contradiction|].
  destruct (N.eqb_spec c QUOT); [contradiction|].
  destruct (N.eqb_spec c APOS); [contradiction|].
  reflexivity.
Qed.

(** One unit through the five replacements. *)
Lemma escape_chain_unit : forall c,
    flat_map (replaceUnit (N.eqb APOS) (js "&#039;"))
      (flat_map (replaceUnit (N.eqb QUOT) (js "&quot;"))
         (flat_map (replaceUnit (N.eqb (ch ">")) (js "&gt;"))
            (flat_map (replaceUnit (N.eqb (ch "<")) (js "&lt;"))
               (replaceUnit (N.eqb (ch "&")) (js "&amp;") c))))
    = escapeUnit c.
Proof.
  intros c. unfold replaceUnit.
  destruct (N.eqb_spec (ch "&") c) as [<-|N1]; [reflexivity|].
  cbn [flat_map app].
  destruct (N.eqb_spec (ch "<") c) as [<-|N2]; [reflexivity|].
  cbn [flat_map app].
  destruct (N.eqb_spec (ch ">") c) as [<-|N3]; [reflexivity|].
  cbn [flat_map app].
  destruct (N.eqb_spec QUOT c) as [<-|N4]; [reflexivity|].
  cbn [flat_map app].
  destruct (N.eqb_spec APOS c) as [<-|N5]; [reflexivity|].
  cbn [app]. symmetry. apply escapeUnit_other; congruence.
Qed.

(** The five replacements, in their order, amount to replacing each unit
    of the input by its entity: no entity is escaped again. *)
Lemma escapeHtml_units : forall s, escapeHtml s = flat_map escapeUnit s.
Proof.
  intros s. unfold escapeHtml, Lit1. rewrite !replace_all_class.
  induction s as [|c s IH]; [reflexivity|].
  rewrite !flat_map_cons_app, !flat_map_app, IH. f_equal.
  apply escape_chain_unit.
Qed.

Lemma markup_chain_unit : forall c,
    flat_map (replaceUnit (N.eqb LF) (js "<br/>")) (escapeUnit c) = markupUnit c.
Proof.
  intros c. unfold markupUnit.
  destruct (N.eqb_spec c LF) as [->|NL]; [reflexivity|].
  unfold escapeUnit.
  destruct (N.eqb_spec c (ch "&")) as [->|]; [reflexivity|].
  destruct (N.eqb_spec c (ch "<")) as [->|]; [reflexivity|].
  destruct (N.eqb_spec c (ch ">")) as [->|]; [reflexivity|].
  destruct (N.eqb_spec c QUOT) as [->|]; [reflexivity|].
  destruct (N.eqb_spec c APOS) as [->|]; [reflexivity|].
  cbn [flat_map app]. unfold replaceUnit.
  destruct (N.eqb_spec LF c); [congruence|reflexivity].
Qed.

(** Escaping, then turning line feeds into breaks, is again unit by
    unit. *)
Lemma text_html_units : forall s, text_html s = flat_map markupUnit s.
Proof.
  intros s. unfold text_html, Lit1.
  rewrite replace_all_class, escapeHtml_units.
  induction s as [|c s IH]; [reflexivity|].
  rewrite !flat_map_cons_app, !flat_map_app, IH. f_equal.
  apply markup_chain_unit.
Qed.

Lemma text_html_app : forall a b, text_html (a ++ b) = text_html a ++ text_html b.
Proof. intros. rewrite !text_html_units. apply flat_map_app. Qed.

End Replace.

(* ================================================================== *)
(** ** The render loop *)
(* ================================================================== *)

Section RenderLoop.

(** [exec] of the emote pattern finds the leftmost emote URL at or after
    the index it starts from. *)
Lemma scan_emote : forall s i,
    scan emoteUrlRegex i s =
    match find_emote s with
    | Some (a, u, r) =>
        Some (Result (i + length a) (i + length a + length u) [])
    | None => None
    end.
Proof.
  induction s as [|c s IH]; intros i; cbn [scan find_emote]; rewrite m_emote.
  - destruct (emote_prefix []) as [[u r]|]; [|reflexivity].
    cbn [pos caps length]. now rewrite Nat.add_0_r.
  - destruct (emote_prefix (c :: s)) as [[u r]|].
    + cbn [pos caps length]. now rewrite Nat.add_0_r.
    + rewrite IH. destruct (find_emote s) as [[[a u] r]|]; [|reflexivity].
      cbn [length]. do 2 f_equal; lia.
Qed.

Lemma render_loop_renders : forall s h,
    renders s h ->
    forall fuel pre html,
      length s < fuel ->
      render_loop fuel (pre ++ s) (length pre) (length pre) html
      = Some (html ++ h).
Proof.
  induction 1 as [s Hf|s a u r h Hf Hr IH]; intros fuel pre html Hlen;
    (destruct fuel as [|fuel]; [lia|]);
    cbn [render_loop]; rewrite exec_at, scan_emote, Hf.
  - unfold slice_from. now rewrite skipn_app_exact.
  - apply find_emote_Some in Hf. destruct Hf as (-> & Hu & _).
    cbv zeta. cbn [index stop]. unfold matched. cbn [index stop].
    rewrite slice_middle.
    replace (pre ++ a ++ u ++ r) with ((pre ++ a) ++ u ++ r)
      by now rewrite <- app_assoc.
    replace (length pre + length a) with (length (pre ++ a))
      by now rewrite length_app.
    rewrite slice_middle.
    replace ((pre ++ a) ++ u ++ r) with (((pre ++ a) ++ u) ++ r)
      by now rewrite <- !app_assoc.
    replace (length (pre ++ a) + length u) with (length ((pre ++ a) ++ u))
      by now rewrite length_app.
    rewrite IH.
    + now rewrite <- !app_assoc.
    + assert (length u <> 0).
      { intros E. apply length_zero_iff_nil in E.
        now apply EmoteUrl_nonempty in Hu. }
      rewrite !length_app in Hlen. lia.
Qed.

Lemma find_emote_shorter : forall s a u r,
    find_emote s = Some (a, u, r) -> length r < length s.
Proof.
  intros s a u r H. apply find_emote_Some in H. destruct H as (-> & Hu & _).
  assert (length u <> 0).
  { intros E. apply length_zero_iff_nil in E.
    now apply EmoteUrl_nonempty in Hu. }
  rewrite !length_app. lia.
Qed.

(** Every text has a rendering. *)
Lemma renders_total : forall s, exists h, renders s h.
Proof.
  intros s. remember (length s) as n eqn:Hn. revert s Hn.
  induction n as [n IH] using lt_wf_ind. intros s ->.
  destruct (find_emote s) as [[[a u] r]|] eqn:Hf.
  - destruct (IH (length r) (find_emote_shorter _ Hf) r eq_refl) as [h Hh].
    eexists. eapply renders_emote; eauto.
  - eexists. now apply renders_tail.
Qed.

(** The loop of [renderContentHtml] ends, and computes that rendering. *)
Lemma renderContentHtml_renders : forall s h,
    renderContentHtml s = Some h <-> renders s h.
Proof.
  intros s h. unfold renderContentHtml.
  assert (Hrun : forall h', renders s h' ->
                 render_loop (S (length s)) s 0 0 [] = Some h').
  { intros h' Hh'.
    apply (@render_loop_renders s h' Hh' (S (length s)) [] []). lia. }
  split.
  - intros H. destruct (renders_total s) as [h' Hh'].
    rewrite (Hrun _ Hh') in H. now injection H as <-.
  - apply Hrun.
Qed.

End RenderLoop.

(* ================================================================== *)
(** ** Reading rendered markup back *)
(* ================================================================== *)

Section ReadBack.

Lemma run_app : forall a b cfg,
    run cfg (a ++ b) =
    match run cfg a with Some cfg' => run cfg' b | None => None end.
Proof.
  induction a as [|c a IH]; intros b cfg; simpl; [reflexivity|].
  destruct (step cfg c); [apply IH|reflexivity].
Qed.

(** The markup of one unit of text puts that unit into the tree: a break
    for a line feed, a character otherwise. *)
Lemma run_markupUnit : forall c nodes,
    c <> NUL ->
    run (nodes, Chars InData) (markupUnit c)
    = Some (insert_unit c nodes, Chars InData).
Proof.
  intros c nodes Hc. unfold markupUnit, insert_unit, escapeUnit.
  destruct (N.eqb_spec c LF) as [->|]; [reflexivity|].
  destruct (N.eqb_spec c (ch "&")) as [->|N1]; [reflexivity|].
  destruct (N.eqb_spec c (ch "<")) as [->|N2]; [reflexivity|].
  destruct (N.eqb_spec c (ch ">")) as [->|]; [reflexivity|].
  destruct (N.eqb_spec c QUOT) as [->|]; [reflexivity|].
  destruct (N.eqb_spec c APOS) as [->|]; [reflexivity|].
  cbn [run step]. unfold chars_step.
  apply N.eqb_neq in N1, N2, Hc. rewrite N1, N2, Hc. reflexivity.
Qed.

Lemma run_text_html : forall s nodes,
    Forall (fun c => c <> NUL) s ->
    run (nodes, Chars InData) (text_html s)
    = Some (insert_units s nodes, Chars InData).
Proof.
  intros s nodes H. rewrite text_html_units. revert nodes.
  induction H as [|c s Hc _ IH]; intros nodes; [reflexivity|].
  rewrite flat_map_cons_app, run_app, run_markupUnit by assumption.
  apply IH.
Qed.

(** The units of an emote URL are copied into an attribute value as they
    are. *)
Lemma run_value : forall u nodes t name v,
    Forall (fun c => url_unit c = true) u ->
    run (nodes, Chars (InValue t name v)) u
    = Some (nodes, Chars (InValue t name (v ++ u))).
Proof.
  induction u as [|c u IH]; intros nodes t name v H.
  - now rewrite app_nil_r.
  - inversion H as [|? ? Hc Hu]; subst. cbn [run step chars_step].
    assert (Hne : (c =? ch "&")%N = false /\ (c =? QUOT)%N = false
                  /\ (c =? NUL)%N = false).
    { repeat split;
        match goal with
        | |- (c =? ?k)%N = false =>
            destruct (N.eqb_spec c k) as [->|]; [discriminate Hc|reflexivity]
        end. }
    unfold chars_step. destruct Hne as (-> & -> & ->). cbn [put].
    rewrite IH by assumption. now rewrite <- app_assoc.
Qed.

(** The image placeholder becomes one [IMG] element carrying the URL in
    [data-emote-url]. *)
Lemma run_img_html : forall u nodes,
    Forall (fun c => url_unit c = true) u ->
    run (nodes, Chars InData) (img_html u)
    = Some (ElementNode (js "IMG") (emote_attributes u) [] :: nodes,
            Chars InData).
Proof.
  intros u nodes Hu. unfold img_html.
  rewrite run_app.
  replace (run (nodes, Chars InData) (js "<img data-emote-url="))
    with (Some (nodes, BeforeAttrValue (Tag (js "img") []) (js "data-emote-url")))
    by reflexivity.
  rewrite run_app.
  replace (run (nodes, BeforeAttrValue (Tag (js "img") []) (js "data-emote-url"))
               [QUOT])
    with (Some (nodes, Chars (InValue (Tag (js "img") []) (js "data-emote-url") [])))
    by reflexivity.
  rewrite run_app, run_value by assumption. change ([] ++ u) with u.
  rewrite run_app.
  replace (run (nodes, Chars (InValue (Tag (js "img") []) (js "data-emote-url") u))
               [QUOT])
    with (Some (nodes, AfterAttrValue
                         (Tag (js "img") [(js "data-emote-url", u)])))
    by reflexivity.
  rewrite run_app.
  replace (run (nodes, AfterAttrValue (Tag (js "img") [(js "data-emote-url", u)]))
               (js " src="))
    with (Some (nodes, BeforeAttrValue
                         (Tag (js "img") [(js "data-emote-url", u)]) (js "src")))
    by reflexivity.
  rewrite run_app.
  replace (run (nodes, BeforeAttrValue
                         (Tag (js "img") [(js "data-emote-url", u)]) (js "src"))
               [QUOT])
    with (Some (nodes, Chars (InValue (Tag (js "img") [(js "data-emote-url", u)])
                                      (js "src") [])))
    by reflexivity.
  rewrite run_app, run_value by assumption. change ([] ++ u) with u.
  reflexivity.
Qed.

Lemma serialize_img : forall u,
    serializeEditorContent (ElementNode (js "IMG") (emote_attributes u) []) = u.
Proof. reflexivity. Qed.

Lemma text_of_app : forall a b, text_of (a ++ b) = text_of a ++ text_of b.
Proof. intros. unfold text_of. now rewrite map_app, concat_app. Qed.

Lemma text_of_insert_unit : forall c nodes,
    text_of (rev (insert_unit c nodes)) = text_of (rev nodes) ++ [c].
Proof.
  intros c nodes. unfold insert_unit.
  destruct (N.eqb_spec c LF) as [->|].
  - cbn [rev]. now rewrite text_of_app.
  - unfold insert_char.
    destruct nodes as [|[d|tg at_ ch_|k d] nodes]; cbn [rev];
      rewrite ?text_of_app; try reflexivity.
    unfold text_of. cbn [map concat serializeEditorContent or_empty].
    now rewrite !app_nil_r, app_assoc.
Qed.

Lemma text_of_insert_units : forall s nodes,
    text_of (rev (insert_units s nodes)) = text_of (rev nodes) ++ s.
Proof.
  unfold insert_units. induction s as [|c s IH]; intros nodes; cbn [fold_left].
  - now rewrite app_nil_r.
  - rewrite IH, text_of_insert_unit. now rewrite <- app_assoc.
Qed.

(** Rendered markup is inside the modelled fragment of HTML, and the tree
    it is read into holds the text it was rendered from. *)
Lemma run_renders : forall s h,
    renders s h ->
    Forall (fun c => c <> NUL) s ->
    forall nodes, exists nodes',
      run (nodes, Chars InData) h = Some (nodes', Chars InData)
      /\ text_of (rev nodes') = text_of (rev nodes) ++ s.
Proof.
  induction 1 as [s Hf|s a u r h Hf Hr IH]; intros Hs nodes.
  - exists (insert_units s nodes). split.
    + now apply run_text_html.
    + apply text_of_insert_units.
  - apply find_emote_Some in Hf. destruct Hf as (-> & Hu & _).
    apply Forall_app in Hs. destruct Hs as [Ha Hs].
    apply Forall_app in Hs. destruct Hs as [_ Hrr].
    destruct (IH Hrr (ElementNode (js "IMG") (emote_attributes u) []
                        :: insert_units a nodes)) as (nodes' & Hrun & Htext).
    exists nodes'. split.
    + rewrite run_app, run_text_html by assumption.
      rewrite run_app, run_img_html by now apply EmoteUrl_units.
      exact Hrun.
    + rewrite Htext. cbn [rev]. rewrite text_of_app, text_of_insert_units.
      unfold text_of at 2. cbn [map concat]. rewrite serialize_img.
      now rewrite app_nil_r, <- !app_assoc.
Qed.

End ReadBack.

Section Newlines.

Lemma normalize_newlines_id : forall s,
    Forall (fun c => c <> CR) s -> normalize_newlines s = s.
Proof.
  induction 1 as [|c s Hc _ IH]; [reflexivity|].
  cbn [normalize_newlines].
  destruct (N.eqb_spec c CR); [contradiction|]. now rewrite IH.
Qed.

Lemma Forall_js_neq : forall k s,
    forallb (fun c => negb (c =? k)%N) (js s) = true ->
    Forall (fun c => c <> k) (js s).
Proof.
  intros k s H. apply Forall_forall. intros c Hin.
  rewrite forallb_forall in H. specialize (H c Hin).
  apply negb_true_iff in H. now apply N.eqb_neq.
Qed.

Lemma markupUnit_no_CR : forall c,
    c <> CR -> Forall (fun d => d <> CR) (markupUnit c).
Proof.
  intros c Hc. unfold markupUnit, escapeUnit.
  repeat match goal with
         | |- context [(c =? ?k)%N] =>
             destruct (N.eqb_spec c k) as [->|];
             [now apply Forall_js_neq|]
         end.
  now constructor.
Qed.

Lemma text_html_no_CR : forall s,
    Forall (fun c => c <> CR) s -> Forall (fun c => c <> CR) (text_html s).
Proof.
  intros s H. rewrite text_html_units.
  induction H as [|c s Hc _ IH]; [constructor|].
  rewrite flat_map_cons_app. apply Forall_app. split; [|assumption].
  now apply markupUnit_no_CR.
Qed.

Lemma img_html_no_CR : forall u,
    EmoteUrl u -> Forall (fun c => c <> CR) (img_html u).
Proof.
  intros u Hu.
  assert (Hc : Forall (fun c => c <> CR) u).
  { eapply Forall_impl; [|apply EmoteUrl_units; exact Hu].
    intros c Hc ->. discriminate Hc. }
  assert (Hq : Forall (fun c => c <> CR) [QUOT]).
  { constructor; [discriminate|constructor]. }
  unfold img_html.
  repeat (apply Forall_app; split);
    try assumption; now apply Forall_js_neq.
Qed.

Lemma renders_no_CR : forall s h,
    renders s h -> Forall (fun c => c <> CR) s -> Forall (fun c => c <> CR) h.
Proof.
  induction 1 as [s Hf|s a u r h Hf Hr IH]; intros Hs.
  - now apply text_html_no_CR.
  - apply find_emote_Some in Hf. destruct Hf as (-> & Hu & _).
    apply Forall_app in Hs. destruct Hs as [Ha Hs].
    apply Forall_app in Hs. destruct Hs as [_ Hrr].
    apply Forall_app; split; [now apply text_html_no_CR|].
    apply Forall_app; split; [now apply img_html_no_CR|auto].
Qed.

(** *** Trailing newlines *)

Lemma endsWith_app_LF : forall s, endsWith (s ++ [LF]) LF = true.
Proof. intros s. unfold endsWith. now rewrite rev_app_distr. Qed.

Lemma endsWith_false : forall s, ~ endsWithNewline s -> endsWith s LF = false.
Proof.
  intros s H. unfold endsWith. destruct (rev s) as [|x t] eqn:E; [reflexivity|].
  destruct (N.eqb_spec x LF) as [->|]; [|reflexivity].
  exfalso. apply H. exists (rev t).
  rewrite <- (rev_involutive s), E. reflexivity.
Qed.

Lemma repeat_snoc : forall k, repeat LF (S k) = repeat LF k ++ [LF].
Proof. induction k; simpl in *; congruence. Qed.

Lemma not_endsWithNewline_tail : forall c s,
    ~ endsWithNewline (c :: s) -> ~ endsWithNewline s.
Proof. intros c s H [s' ->]. apply H. now exists (c :: s'). Qed.

Lemma take_while_repeat : forall k t,
    take_while (N.eqb LF) (repeat LF k ++ t) = repeat LF k ++ take_while (N.eqb LF) t
    /\ drop_while (N.eqb LF) (repeat LF k ++ t) = drop_while (N.eqb LF) t.
Proof.
  induction k as [|k IH]; intros t; cbn [repeat app take_while drop_while];
    [auto|].
  rewrite N.eqb_refl. destruct (IH t) as [-> ->]. auto.
Qed.

(** A text made of line feeds only, and not empty. *)
Lemma all_newlines : forall t,
    t <> [] -> drop_while (N.eqb LF) t = [] -> endsWithNewline t.
Proof.
  induction t as [|c t IH]; intros Hne Hd; [congruence|].
  cbn [drop_while] in Hd.
  destruct (N.eqb_spec LF c) as [<-|]; [|discriminate].
  destruct t as [|d t].
  - now exists [].
  - destruct IH as [s' Hs']; [discriminate|assumption|].
    exists (LF :: s'). now rewrite Hs'.
Qed.

Lemma m_trailing : forall i t,
    m trailingNewlinesRegex (fun y => Some y) (MState i t []) =
    match take_while (N.eqb LF) t, drop_while (N.eqb LF) t with
    | _ :: _, [] => Some (MState (i + length (take_while (N.eqb LF) t)) [] [])
    | _, _ => None
    end.
Proof.
  intros i t. unfold trailingNewlinesRegex, Lit1.
  rewrite m_Seq, m_Plus_class by apply blocked_Eol.
  destruct (take_while (N.eqb LF) t); [reflexivity|].
  cbn [m rest]. destruct (drop_while (N.eqb LF) t); reflexivity.
Qed.

(** The pattern [\n+$] first matches where the final run of newlines
    begins, and the match runs to the end of the text. *)
Lemma scan_trailing : forall body k i,
    ~ endsWithNewline body ->
    scan trailingNewlinesRegex i (body ++ repeat LF (S k))
    = Some (Result (i + length body) (i + length body + S k) []).
Proof.
  induction body as [|c body IH]; intros k i Hb.
  - cbn [app]. destruct (repeat LF (S k)) eqn:E; [discriminate|].
    rewrite <- E. clear E.
    assert (Hm : m trailingNewlinesRegex (fun y => Some y)
                   (MState i (repeat LF (S k)) [])
                 = Some (MState (i + S k) [] [])).
    { rewrite m_trailing.
      destruct (take_while_repeat (S k) []) as [T D].
      rewrite app_nil_r in T, D. rewrite T, D. cbn [take_while drop_while].
      rewrite app_nil_r. cbn [repeat]. now rewrite length_cons, repeat_length. }
    cbn [repeat] in *. cbn [scan]. rewrite Hm. cbn [pos caps length].
    now rewrite Nat.add_0_r.
  - cbn [app scan]. rewrite m_trailing.
    assert (Hnone :
      match take_while (N.eqb LF) (c :: body ++ repeat LF (S k)),
            drop_while (N.eqb LF) (c :: body ++ repeat LF (S k)) with
      | _ :: _, [] =>
          Some (MState (i + length (take_while (N.eqb LF)
                                      (c :: body ++ repeat LF (S k)))) [] [])
      | _, _ => None
      end = None).
    { destruct (take_while _ _); [reflexivity|].
      destruct (drop_while (N.eqb LF) (c :: body ++ repeat LF (S k))) eqn:D;
        [|reflexivity].
      exfalso.
      assert (Hall : forall a b, drop_while (N.eqb LF) (a ++ b) = [] ->
                                 drop_while (N.eqb LF) a = []).
      { induction a as [|x a IHa]; intros b Hd; [reflexivity|].
        cbn [app drop_while] in *. destruct (LF =? x)%N; [eauto|discriminate]. }
      apply (Hall (c :: body)) in D.
      apply Hb. apply all_newlines; [discriminate|assumption]. }
    rewrite Hnone. rewrite IH by now apply not_endsWithNewline_tail in Hb.
    cbn [length]. do 2 f_equal; lia.
Qed.

Lemma dropNewlines_repeat : forall k t,
    dropNewlines (repeat LF k ++ t) = dropNewlines t.
Proof.
  induction k as [|k IH]; intros t; cbn [repeat app dropNewlines];
    [reflexivity|].
  rewrite N.eqb_refl. apply IH.
Qed.

Lemma rev_repeat_LF : forall k, rev (repeat LF k) = repeat LF k.
Proof.
  induction k as [|k IH]; [reflexivity|].
  rewrite repeat_snoc at 1. rewrite rev_app_distr, IH. reflexivity.
Qed.

Lemma stripTrailingNewlines_split : forall body k,
    ~ endsWithNewline body ->
    stripTrailingNewlines (body ++ repeat LF k) = body.
Proof.
  intros body k Hb. unfold stripTrailingNewlines.
  rewrite rev_app_distr.
  rewrite rev_repeat_LF.
  rewrite dropNewlines_repeat.
  destruct (rev body) as [|x t] eqn:E.
  - simpl. rewrite <- (rev_involutive body), E. reflexivity.
  - simpl. destruct (N.eqb_spec x LF) as [->|].
    + exfalso. apply Hb. exists (rev t).
      rewrite <- (rev_involutive body), E. reflexivity.
    + rewrite <- E. apply rev_involutive.
Qed.

(** Every text is a body that does not end with a newline, followed by
    newlines. *)
Lemma trailing_split : forall s,
    exists body k, s = body ++ repeat LF k /\ ~ endsWithNewline body.
Proof.
  intros s. rewrite <- (rev_involutive s).
  induction (rev s) as [|x t IH].
  - exists [], 0. split; [reflexivity|]. intros [s' H].
    now destruct s'.
  - destruct (N.eqb_spec x LF) as [->|Hx].
    + destruct IH as (body & k & E & Hb).
      exists body, (S k). split; [|assumption].
      cbn [rev]. rewrite E, repeat_snoc. now rewrite app_assoc.
    + exists (rev (x :: t)), 0. split; [now rewrite app_nil_r|].
      intros [s' H]. cbn [rev] in H.
      apply app_inj_tail in H. destruct H as [_ H]. congruence.
Qed.

(** The stripping code of [updateContentFromEditor] removes the whole
    final run of newlines. *)
Lemma strip_code_split : forall body k,
    ~ endsWithNewline body ->
    (if endsWith (body ++ repeat LF k) LF
     then replace_first trailingNewlinesRegex [] (body ++ repeat LF k)
     else body ++ repeat LF k) = body.
Proof.
  intros body k Hb. destruct k as [|k].
  - cbn [repeat]. rewrite app_nil_r. now rewrite endsWith_false.
  - assert (He : endsWith (body ++ repeat LF (S k)) LF = true).
    { rewrite repeat_snoc, app_assoc. apply endsWith_app_LF. }
    rewrite He. unfold replace_first. rewrite exec_0.
    rewrite scan_trailing by assumption. cbn [index stop length app plus].
    rewrite firstn_app_exact.
    replace (length body + S k) with (length (body ++ repeat LF (S k)))
      by now rewrite length_app, repeat_length.
    rewrite skipn_all. apply app_nil_r.
Qed.

Lemma editorValue_strip : forall childNodes,
    editorValue childNodes = stripTrailingNewlines (text_of childNodes).
Proof.
  intros childNodes. unfold editorValue.
  rewrite fold_left_app_concat. cbn [app]. fold (text_of childNodes).
  destruct (trailing_split (text_of childNodes)) as (body & k & -> & Hb).
  now rewrite strip_code_split, stripTrailingNewlines_split.
Qed.

End Newlines.

(* ================================================================== *)
(** ** Round trip *)
(* ================================================================== *)

(** The round trip, as a lemma the later developments share. *)
Lemma C1_round_trip_holds : forall text,
    CanonicalText text ->
    exists html childNodes,
      renderContentHtml text = Some html
      /\ setInnerHTML html = Some childNodes
      /\ editorValue childNodes = stripTrailingNewlines text.
Proof.
  intros text Hc.
  assert (Hcr : Forall (fun c => c <> CR) text)
    by (eapply Forall_impl; [|exact Hc]; now intros c [? ?]).
  assert (Hnul : Forall (fun c => c <> NUL) text)
    by (eapply Forall_impl; [|exact Hc]; now intros c [? ?]).
  destruct (renders_total text) as [html Hr].
  destruct (run_renders Hr Hnul []) as (nodes & Hrun & Htext).
  exists html, (rev nodes). split; [|split].
  - now apply renderContentHtml_renders.
  - unfold setInnerHTML.
    rewrite normalize_newlines_id by (eapply renders_no_CR; eauto).
    now rewrite Hrun.
  - rewrite editorValue_strip, Htext. reflexivity.
Qed.

(** C1.  Serializing the markup rendered from a canonical text gives the
    text back, up to the trailing newlines: for every canonical [text],
    with any number of emote URLs and newlines in it, the render loop
    finishes with some markup, the editor reads that markup into a tree,
    and the value computed from the tree is [stripTrailingNewlines text]. *)
Theorem C1_round_trip : forall text,
    CanonicalText text ->
    exists html childNodes,
      renderContentHtml text = Some html
      /\ setInnerHTML html = Some childNodes
      /\ editorValue childNodes = stripTrailingNewlines text.
Proof.
  intros text Hc.
  assert (Hcr : Forall (fun c => c <> CR) text)
    by (eapply Forall_impl; [|exact Hc]; now intros c [? ?]).
  assert (Hnul : Forall (fun c => c <> NUL) text)
    by (eapply Forall_impl; [|exact Hc]; now intros c [? ?]).
  destruct (renders_total text) as [html Hr].
  destruct (run_renders Hr Hnul []) as (nodes & Hrun & Htext).
  exists html, (rev nodes). split; [|split].
  - now apply renderContentHtml_renders.
  - unfold setInnerHTML.
    rewrite normalize_newlines_id by (eapply renders_no_CR; eauto).
    now rewrite Hrun.
  - rewrite editorValue_strip, Htext. reflexivity.
Qed.

Lemma C1_round_trip_witness :
  exists html childNodes,
    renderContentHtml (js "a&b https://cdn.7tv.app/emote/x1/2x.webp" ++ [LF; LF])
      = Some html
    /\ setInnerHTML html = Some childNodes
    /\ editorValue childNodes
       = stripTrailingNewlines
           (js "a&b https://cdn.7tv.app/emote/x1/2x.webp" ++ [LF; LF]).
Proof.
  apply C1_round_trip.
  unfold CanonicalText. cbn [js app].
  repeat (constructor; [split; discriminate|]). constructor.
Defined.

(* ================================================================== *)
(** ** The serializer *)
(* ================================================================== *)

Section Serializer.

Lemma serialize_children : forall childNodes,
    Forall (fun n => serializeEditorContent n = contribution n) childNodes ->
    fold_left (fun text child => text ++ serializeEditorContent child) childNodes []
    = concat (map contribution childNodes).
Proof.
  intros childNodes H. rewrite fold_left_app_concat. cbn [app].
  f_equal. induction H as [|n l Hn _ IH]; [reflexivity|].
  cbn [map]. now rewrite Hn, IH.
Qed.

End Serializer.

(** C2 (as stated, refuted).  A [SPAN] holding the text "hi" is neither
    text, image, line break nor block container, yet the serializer returns
    "hi" for it where the stated definition returns the empty string. *)
Lemma C2_other_element_counterexample :
  serializeEditorContent (ElementNode (js "SPAN") [] [TextNode (js "hi")]) = js "hi"
  /\ contribution_spec (ElementNode (js "SPAN") [] [TextNode (js "hi")]) = []
  /\ serializeEditorContent (ElementNode (js "SPAN") [] [TextNode (js "hi")])
     <> contribution_spec (ElementNode (js "SPAN") [] [TextNode (js "hi")]).
Proof. repeat split. discriminate. Qed.

(** C2 (amended).  The serializer is the recursive definition
    [contribution]: a text node gives its text, an image the URL of its
    data attribute or nothing when the attribute is absent, a line break one
    newline, a [DIV] or [P] what its children give followed by exactly one
    newline, any other element what its children give, and a node that is
    neither text nor element nothing. *)
Theorem C2_serializer_reference : forall node,
    serializeEditorContent node = contribution node.
Proof.
  induction node as [data|tagName attributes childNodes IH|kind data]
    using Node_ind_Forall.
  - reflexivity.
  - cbn [serializeEditorContent contribution].
    destruct (eqs tagName (js "IMG")).
    { destruct (dataset_emoteUrl attributes); reflexivity. }
    destruct (eqs tagName (js "BR")); [reflexivity|].
    rewrite serialize_children by assumption.
    destruct (eqs tagName (js "DIV") || eqs tagName (js "P")); reflexivity.
  - reflexivity.
Qed.

(** C5.  The value taken from the editor is the concatenation of what its
    direct children contribute, in order, without the whole run of newlines
    it ends with: if the concatenation is [body] followed by [k] newlines,
    [body] itself not ending with one, the value is [body]. *)
Theorem C5_strip_all_trailing_newlines : forall childNodes body k,
    concat (map serializeEditorContent childNodes) = body ++ repeat LF k ->
    ~ endsWithNewline body ->
    editorValue childNodes = body
    /\ forall s, editor s = Some childNodes ->
                 surfaceContent (updateContentFromEditor s) = body
                 /\ lastContent (updateContentFromEditor s) = body.
Proof.
  intros childNodes body k E Hb.
  assert (Hv : editorValue childNodes = body).
  { rewrite editorValue_strip. unfold text_of. rewrite E.
    now apply stripTrailingNewlines_split. }
  split; [exact Hv|].
  intros s Hs. unfold updateContentFromEditor. rewrite Hs. cbn. auto.
Qed.

Lemma C5_strip_all_trailing_newlines_witness :
  editorValue [TextNode (js "a"); ElementNode (js "DIV") [] [];
               ElementNode (js "BR") [] []; ElementNode (js "BR") [] []] = js "a"
  /\ forall s,
      editor s = Some [TextNode (js "a"); ElementNode (js "DIV") [] [];
                       ElementNode (js "BR") [] []; ElementNode (js "BR") [] []] ->
      surfaceContent (updateContentFromEditor s) = js "a"
      /\ lastContent (updateContentFromEditor s) = js "a".
Proof.
  apply (@C5_strip_all_trailing_newlines
           [TextNode (js "a"); ElementNode (js "DIV") [] [];
            ElementNode (js "BR") [] []; ElementNode (js "BR") [] []]
           (js "a") 3).
  - reflexivity.
  - intros [s' H]. destruct s' as [|x [|y s']]; discriminate H.
Defined.

(* ================================================================== *)
(** ** The escaper *)
(* ================================================================== *)

Section Escaper.




End Escaper.


(** The example of the specification: the five reserved characters. *)
Example escapeHtml_script :
  escapeHtml (js "<script>&" ++ [QUOT; APOS])
  = js "&lt;script&gt;&amp;&quot;&#039;".
Proof. reflexivity. Qed.

(** An entity already present in the input is escaped once, as text. *)
Example escapeHtml_entity : escapeHtml (js "&lt;") = js "&amp;lt;".
Proof. reflexivity. Qed.

(* ================================================================== *)
(** ** Emote detection *)
(* ================================================================== *)

Section Detection.

Lemma insert_units_plain : forall s nodes,
    forallb text_or_break nodes = true ->
    forallb text_or_break (insert_units s nodes) = true.
Proof.
  unfold insert_units. induction s as [|c s IH]; intros nodes H; [exact H|].
  cbn [fold_left]. apply IH. unfold insert_unit.
  destruct (c =? LF)%N; [exact H|].
  unfold insert_char. destruct nodes as [|[d|tg at_ ch_|k d] nodes]; exact H.
Qed.

Lemma not_EmoteUrl : forall u r t,
    emote_prefix u = Some (r, t) -> t <> [] -> ~ EmoteUrl u.
Proof.
  intros u r t H Hne Hu.
  pose proof (emote_prefix_complete [] Hu) as P.
  rewrite app_nil_r in P. congruence.
Qed.

Lemma no_emote_find : forall s, ~ HasEmote s -> find_emote s = None.
Proof.
  intros s H. destruct (find_emote s) as [[[a u] r]|] eqn:F; [|reflexivity].
  exfalso. apply H. apply find_emote_Some in F.
  destruct F as (E & Hu & _). now exists a, u, r.
Qed.

Lemma forallb_rev : forall (f : Node -> bool) l,
    forallb f l = true -> forallb f (rev l) = true.
Proof.
  intros f l H. apply forallb_forall. intros x Hx.
  rewrite forallb_forall in H. apply H. now apply in_rev.
Qed.

End Detection.

(** C4 (as stated, refuted).  A URL whose extension is not one of the three
    listed, [.pngx], is not of the emote shape, yet it is not emitted as
    plain text: its first part is of the shape, and the renderer emits an
    image placeholder for that part and the text "x" after it. *)
Lemma C4_unlisted_extension_counterexample :
  ~ EmoteUrl (js "https://cdn.7tv.app/emote/abc/1x.pngx")
  /\ renderContentHtml (js "https://cdn.7tv.app/emote/abc/1x.pngx")
     = Some (img_html (js "https://cdn.7tv.app/emote/abc/1x.png") ++ js "x")
  /\ renderContentHtml (js "https://cdn.7tv.app/emote/abc/1x.pngx")
     <> Some (text_html (js "https://cdn.7tv.app/emote/abc/1x.pngx")).
Proof.
  split; [|split].
  - apply (@not_EmoteUrl _ (js "https://cdn.7tv.app/emote/abc/1x.png") (js "x"));
      [vm_compute; reflexivity|discriminate].
  - vm_compute. reflexivity.
  - vm_compute. discriminate.
Qed.

(** C4 (amended).  The renderer works on substrings.  The loop always
    ends; a text none of whose substrings is an emote URL is emitted whole
    as escaped text, and read back it gives text nodes and line breaks
    only; otherwise the leftmost substring of the shape
    [http(s)://cdn.7tv.app/emote/<alphanumeric id>/<digits>x.<webp|png|avif>]
    becomes one image placeholder, the text before it is escaped, and the
    text after it is rendered in the same way. *)
Theorem C4_emote_detection : forall value,
    (exists html, renderContentHtml value = Some html)
    /\ (~ HasEmote value ->
        renderContentHtml value = Some (text_html value)
        /\ (CanonicalText value ->
            exists childNodes,
              setInnerHTML (text_html value) = Some childNodes
              /\ forallb text_or_break childNodes = true))
    /\ (forall a u r,
          value = a ++ u ++ r -> EmoteUrl u ->
          (forall a' u' r', value = a' ++ u' ++ r' -> EmoteUrl u' ->
                            length a <= length a') ->
          exists h, renderContentHtml r = Some h
                    /\ renderContentHtml value
                       = Some (text_html a ++ img_html u ++ h)).
Proof.
  intros value. split; [|split].
  - destruct (renders_total value) as [h Hh]. exists h.
    now apply renderContentHtml_renders.
  - intros Hno. apply no_emote_find in Hno. split.
    + apply renderContentHtml_renders. now apply renders_tail.
    + intros Hc.
      assert (Hcr : Forall (fun c => c <> CR) value)
        by (eapply Forall_impl; [|exact Hc]; now intros c [? ?]).
      assert (Hnul : Forall (fun c => c <> NUL) value)
        by (eapply Forall_impl; [|exact Hc]; now intros c [? ?]).
      exists (rev (insert_units value [])). split.
      * unfold setInnerHTML.
        rewrite normalize_newlines_id by now apply text_html_no_CR.
        now rewrite run_text_html.
      * apply forallb_rev. now apply insert_units_plain.
  - intros a u r -> Hu Hmin.
    destruct (renders_total r) as [h Hh]. exists h. split.
    + now apply renderContentHtml_renders.
    + apply renderContentHtml_renders.
      apply renders_emote with (r := r); [|assumption].
      now apply find_emote_leftmost.
Qed.

Lemma C4_emote_detection_witness :
  (renderContentHtml (js "https://cdn.7tv.app/emote/abc/1x.jpg")
   = Some (text_html (js "https://cdn.7tv.app/emote/abc/1x.jpg"))
   /\ exists childNodes,
        setInnerHTML (text_html (js "https://cdn.7tv.app/emote/abc/1x.jpg"))
        = Some childNodes
        /\ forallb text_or_break childNodes = true)
  /\ exists h,
      renderContentHtml [] = Some h
      /\ renderContentHtml (js "https://cdn.7tv.app/emote/abc/1x.png")
         = Some (text_html [] ++ img_html (js "https://cdn.7tv.app/emote/abc/1x.png")
                   ++ h).
Proof.
  split.
  - assert (Hno : ~ HasEmote (js "https://cdn.7tv.app/emote/abc/1x.jpg"))
      by (apply find_emote_None; vm_compute; reflexivity).
    destruct (C4_emote_detection (js "https://cdn.7tv.app/emote/abc/1x.jpg"))
      as (_ & Hplain & _).
    destruct (Hplain Hno) as [Hr Hdom]. split; [exact Hr|].
    apply Hdom. unfold CanonicalText. cbn [js].
    repeat (constructor; [split; discriminate|]). constructor.
  - destruct (C4_emote_detection (js "https://cdn.7tv.app/emote/abc/1x.png"))
      as (_ & _ & Hemote).
    apply (Hemote [] (js "https://cdn.7tv.app/emote/abc/1x.png") []).
    + reflexivity.
    + exists (js "https"), (js "abc"), (js "1"), (js "png").
      repeat split; try discriminate; auto.
      * repeat constructor.
      * repeat constructor.
    + intros. apply Nat.le_0_l.
Defined.

(** The example of the specification: an extension that is not listed. *)
Example render_jpg_is_text :
  renderContentHtml (js "https://cdn.7tv.app/emote/abc/1x.jpg")
  = Some (js "https://cdn.7tv.app/emote/abc/1x.jpg").
Proof. vm_compute. reflexivity. Qed.

(* ================================================================== *)
(** ** Emoji query *)
(* ================================================================== *)

Section EmojiQuery.

Lemma m_Group : forall i r k x,
    m (Group i r) k x = m r (fun y => k (set_cap i (pos x) (pos y) y)) x.
Proof. reflexivity. Qed.

(** The part of the emoji pattern after its first group: a colon, then
    query units up to the end of the text. *)
Lemma m_query_tail : forall j t cs,
    m (Seq (Lit1 (ch ":")) (Seq (Group 1 (Star (Chr is_query_unit))) Eol))
      (fun y => Some y) (MState j t cs) =
    match t with
    | c :: r =>
        if (ch ":" =? c)%N then
          match drop_while is_query_unit r with
          | [] =>
              Some (MState (S j + length (take_while is_query_unit r)) []
                           ((1, (S j, S j + length (take_while is_query_unit r)))
                              :: cs))
          | _ :: _ => None
          end
        else None
    | [] => None
    end.
Proof.
  intros j t cs. rewrite m_Seq. unfold Lit1. rewrite m_Chr.
  destruct t as [|c r]; [reflexivity|].
  destruct (ch ":" =? c)%N; [|reflexivity].
  rewrite m_Seq, m_Group. cbn [pos].
  rewrite m_Star_class.
  - cbn [m rest set_cap pos caps].
    destruct (drop_while is_query_unit r); reflexivity.
  - intros i d t' cs' Hd. reflexivity.
Qed.

Lemma query_tail_sound : forall j t cs z,
    m (Seq (Lit1 (ch ":")) (Seq (Group 1 (Star (Chr is_query_unit))) Eol))
      (fun y => Some y) (MState j t cs) = Some z ->
    exists q, t = ch ":" :: q
              /\ Forall (fun c => is_query_unit c = true) q
              /\ caps z = (1, (S j, S j + length q)) :: cs.
Proof.
  intros j t cs z H. rewrite m_query_tail in H.
  destruct t as [|c r]; [discriminate|].
  destruct (N.eqb_spec (ch ":") c) as [<-|]; [|discriminate].
  pose proof (take_drop_while is_query_unit r) as Hs.
  pose proof (take_while_Forall is_query_unit r) as Hf.
  destruct (drop_while is_query_unit r); [|discriminate].
  rewrite app_nil_r in Hs. rewrite Hs in *.
  injection H as <-. exists r. auto.
Qed.

Lemma query_tail_complete : forall j q cs,
    Forall (fun c => is_query_unit c = true) q ->
    m (Seq (Lit1 (ch ":")) (Seq (Group 1 (Star (Chr is_query_unit))) Eol))
      (fun y => Some y) (MState j (ch ":" :: q) cs) <> None.
Proof.
  intros j q cs Hq. rewrite m_query_tail. rewrite N.eqb_refl.
  destruct (@take_while_app is_query_unit q [] Hq I) as [_ D].
  rewrite app_nil_r in D. rewrite D. discriminate.
Qed.

(** The whole pattern at one index: the colon is tried at this index when
    the index is the start of the text, and after this unit when the unit
    is white space. *)
Lemma m_query : forall i t,
    m emojiQueryRegex (fun y => Some y) (MState i t []) =
    match
      (if (i =? 0)%nat then
         m (Seq (Lit1 (ch ":")) (Seq (Group 1 (Star (Chr is_query_unit))) Eol))
           (fun y => Some y) (MState i t [])
       else None)
    with
    | Some z => Some z
    | None =>
        match t with
        | c :: r =>
            if is_space c then
              m (Seq (Lit1 (ch ":")) (Seq (Group 1 (Star (Chr is_query_unit))) Eol))
                (fun y => Some y) (MState (S i) r [])
            else None
        | [] => None
        end
    end.
Proof.
  intros i t. unfold emojiQueryRegex. rewrite m_Seq, m_Alt.
  rewrite m_Chr. reflexivity.
Qed.

Lemma scan_query_sound : forall t pre res,
    scan emojiQueryRegex (length pre) t = Some res ->
    exists before q,
      pre ++ t = before ++ ch ":" :: q
      /\ Forall (fun c => is_query_unit c = true) q
      /\ (before = [] \/ exists b c, before = b ++ [c] /\ is_space c = true)
      /\ groups res = [(1, (S (length before), S (length before) + length q))].
Proof.
  induction t as [|c t IH]; intros pre res H; cbn [scan] in H;
    rewrite m_query in H.
  - destruct (length pre =? 0)%nat; [|discriminate].
    rewrite m_query_tail in H. discriminate.
  - destruct (Nat.eqb_spec (length pre) 0) as [E0|_].
    + destruct (m _ _ (MState (length pre) (c :: t) [])) as [z|] eqn:Hz.
      * injection H as <-. apply query_tail_sound in Hz.
        destruct Hz as (q & E & Hq & Hc).
        apply length_zero_iff_nil in E0. subst pre.
        exists [], q. cbn [app groups length]. auto.
      * destruct (is_space c) eqn:Hsp.
        -- destruct (m _ _ (MState (S (length pre)) t [])) as [z|] eqn:Hz2.
           ++ injection H as <-. apply query_tail_sound in Hz2.
              destruct Hz2 as (q & E & Hq & Hc).
              exists (pre ++ [c]), q. subst t.
              rewrite <- app_assoc. cbn [app groups].
              rewrite Hc, length_app. cbn [length].
              rewrite Nat.add_1_r. repeat split; eauto.
           ++ specialize (IH (pre ++ [c]) res).
              rewrite length_app, Nat.add_1_r in IH. cbn [length] in IH.
              rewrite <- app_assoc in IH. apply IH. exact H.
        -- specialize (IH (pre ++ [c]) res).
           rewrite length_app, Nat.add_1_r in IH. cbn [length] in IH.
           rewrite <- app_assoc in IH. apply IH. exact H.
    + destruct (is_space c) eqn:Hsp.
      * destruct (m _ _ (MState (S (length pre)) t [])) as [z|] eqn:Hz2.
        -- injection H as <-. apply query_tail_sound in Hz2.
           destruct Hz2 as (q & E & Hq & Hc).
           exists (pre ++ [c]), q. subst t.
           rewrite <- app_assoc. cbn [app groups].
           rewrite Hc, length_app. cbn [length].
           rewrite Nat.add_1_r. repeat split; eauto.
        -- specialize (IH (pre ++ [c]) res).
           rewrite length_app, Nat.add_1_r in IH. cbn [length] in IH.
           rewrite <- app_assoc in IH. apply IH. exact H.
      * specialize (IH (pre ++ [c]) res).
        rewrite length_app, Nat.add_1_r in IH. cbn [length] in IH.
        rewrite <- app_assoc in IH. apply IH. exact H.
Qed.

Lemma scan_query_after_space : forall mid i c q,
    is_space c = true ->
    Forall (fun c => is_query_unit c = true) q ->
    scan emojiQueryRegex i (mid ++ c :: ch ":" :: q) <> None.
Proof.
  induction mid as [|x mid IH]; intros i c q Hc Hq; cbn [app scan].
  - rewrite m_query. rewrite Hc.
    destruct (if (i =? 0)%nat then _ else None); [discriminate|].
    destruct (m _ _ (MState (S i) (ch ":" :: q) [])) eqn:E; [discriminate|].
    exfalso. revert E. now apply query_tail_complete.
  - destruct (m emojiQueryRegex _ _); [discriminate|]. now apply IH.
Qed.

Lemma scan_query_at_start : forall q,
    Forall (fun c => is_query_unit c = true) q ->
    scan emojiQueryRegex 0 (ch ":" :: q) <> None.
Proof.
  intros q Hq. cbn [scan]. rewrite m_query. cbn [Nat.eqb].
  destruct (m _ _ (MState 0 (ch ":" :: q) [])) eqn:E; [discriminate|].
  exfalso. revert E. now apply query_tail_complete.
Qed.

(** The query follows the last colon of the text, so a text has at most
    one. *)
Lemma colon_split_unique : forall a a' q q',
    a ++ ch ":" :: q = a' ++ ch ":" :: q' ->
    Forall (fun c => is_query_unit c = true) q ->
    Forall (fun c => is_query_unit c = true) q' ->
    a = a' /\ q = q'.
Proof.
  assert (Hin : forall a q q',
             q = a ++ ch ":" :: q' ->
             Forall (fun c => is_query_unit c = true) q -> False).
  { intros a q q' -> H. apply Forall_app in H. destruct H as [_ H].
    inversion H as [|? ? Hc _]. discriminate Hc. }
  induction a as [|x a IH]; intros a' q q' E Hq Hq'.
  - destruct a' as [|x' a'].
    + injection E as ->. auto.
    + cbn [app] in E. injection E as _ E. exfalso. eapply Hin; eauto.
  - destruct a' as [|x' a'].
    + cbn [app] in E. injection E as _ E. exfalso. symmetry in E.
      eapply Hin; eauto.
    + cbn [app] in E. injection E as -> E.
      destruct (IH _ _ _ E Hq Hq') as [-> ->]. auto.
Qed.

Lemma QueryAt_unique : forall upto q q',
    QueryAt upto q -> QueryAt upto q' -> q = q'.
Proof.
  intros upto q q' (b & E & Hq & _) (b' & E' & Hq' & _).
  rewrite E in E'. now destruct (colon_split_unique _ _ E' Hq Hq').
Qed.

(** [exec] of the emoji pattern: it matches exactly when the text has a
    query, and group 1 is then that query. *)
Lemma exec_query : forall upto,
    match exec emojiQueryRegex upto 0 with
    | Some mt => exists q, QueryAt upto q /\ group upto mt 1 = Some q
    | None => forall q, ~ QueryAt upto q
    end.
Proof.
  intros upto. rewrite exec_0.
  destruct (scan emojiQueryRegex 0 upto) as [mt|] eqn:S.
  - apply (scan_query_sound upto []) in S.
    destruct S as (before & q & E & Hq & Hb & Hg). cbn [app] in E.
    exists q. split; [now exists before|].
    unfold group. rewrite Hg. cbn [lookup_cap Nat.eqb].
    f_equal. rewrite E.
    replace (before ++ ch ":" :: q) with ((before ++ [ch ":"]) ++ q ++ [])
      by (rewrite <- app_assoc, app_nil_r; reflexivity).
    replace (S (length before)) with (length (before ++ [ch ":"]))
      by (rewrite length_app; cbn [length]; lia).
    apply slice_middle.
  - intros q (before & E & Hq & Hb). subst upto. revert S.
    destruct Hb as [->|(b & c & -> & Hc)].
    + now apply scan_query_at_start.
    + rewrite <- app_assoc. now apply scan_query_after_space.
Qed.

End EmojiQuery.

(** C9.  The richer variant reads the text of the caret's node up to the
    caret and looks for a colon, at the start of that text or after white
    space, followed up to the caret by word characters, [+] and [-] only.
    When there is one and the run after it is not empty, the run is the
    query and the range goes from the colon to the caret; when the run is
    empty, when no colon qualifies (the last colon is preceded by a unit
    that is not white space, or the text has no colon at all), the query
    and the range are cleared.  So "hello :sma" gives "sma", and
    "hello:sma", "hellosma" and "hello :" give nothing. *)
Theorem C9_emoji_query : forall text offset others,
    let upto := slice 0 offset text in
    let found :=
      updateEmojiQueryFromSelection
        true (Some (MkRange (TextNode text) offset true :: others)) in
    (forall q, QueryAt upto q -> q <> [] ->
               found = MkEmojiState q
                         (Some (MkEmojiRange (TextNode text)
                                  (Z.of_nat offset - Z.of_nat (length q) - 1)
                                  (Z.of_nat offset))))
    /\ (QueryAt upto [] -> found = clearEmoji)
    /\ ((forall q, ~ QueryAt upto q) -> found = clearEmoji)
    /\ (forall b c q, upto = b ++ c :: ch ":" :: q -> is_space c = false ->
                      Forall (fun d => is_query_unit d = true) q ->
                      found = clearEmoji)
    /\ (~ In (ch ":") upto -> found = clearEmoji)
    /\ updateEmojiQueryFromSelection
         true (Some [MkRange (TextNode (js "hello :sma")) 10 true])
       = MkEmojiState (js "sma")
           (Some (MkEmojiRange (TextNode (js "hello :sma")) 6 10))
    /\ updateEmojiQueryFromSelection
         true (Some [MkRange (TextNode (js "hello:sma")) 9 true]) = clearEmoji
    /\ updateEmojiQueryFromSelection
         true (Some [MkRange (TextNode (js "hellosma")) 8 true]) = clearEmoji
    /\ updateEmojiQueryFromSelection
         true (Some [MkRange (TextNode (js "hello :")) 7 true]) = clearEmoji.
Proof.
  intros text offset others upto found.
  assert (Hfound :
    found =
    match exec emojiQueryRegex upto 0 with
    | None => clearEmoji
    | Some mt =>
        let query := or_empty (group upto mt 1) in
        if negb (truthy query) then clearEmoji
        else MkEmojiState query
               (Some (MkEmojiRange (TextNode text)
                        (Z.of_nat offset - Z.of_nat (length query) - 1)
                        (Z.of_nat offset)))
    end) by reflexivity.
  pose proof (exec_query upto) as Hx.
  assert (Hnone : (forall q, ~ QueryAt upto q) -> found = clearEmoji).
  { intros Hno. rewrite Hfound.
    destruct (exec emojiQueryRegex upto 0) as [mt|]; [|reflexivity].
    destruct Hx as (q & Hq & _). now apply Hno in Hq. }
  split; [|split; [|split; [|split; [|split]]]].
  - intros q Hq Hne. rewrite Hfound.
    destruct (exec emojiQueryRegex upto 0) as [mt|].
    + destruct Hx as (q' & Hq' & Hg).
      rewrite (QueryAt_unique Hq Hq'), Hg. cbn [or_empty].
      rewrite (QueryAt_unique Hq Hq') in Hne.
      destruct q'; [congruence|reflexivity].
    + now apply Hx in Hq.
  - intros Hq. rewrite Hfound.
    destruct (exec emojiQueryRegex upto 0) as [mt|]; [|reflexivity].
    destruct Hx as (q' & Hq' & Hg).
    rewrite <- (QueryAt_unique Hq Hq') in Hg. now rewrite Hg.
  - exact Hnone.
  - intros b c q E Hc Hq. apply Hnone.
    intros q' (b' & E' & Hq' & Hb').
    rewrite E in E'.
    replace (b ++ c :: ch ":" :: q) with ((b ++ [c]) ++ ch ":" :: q) in E'
      by now rewrite <- app_assoc.
    destruct (colon_split_unique _ _ E' Hq Hq') as [<- _].
    destruct Hb' as [Hb'|(b0 & c0 & Hb' & Hc0)].
    + now destruct b.
    + apply app_inj_tail in Hb'. destruct Hb' as [_ <-]. congruence.
  - intros Hno. apply Hnone. intros q (b & E & _).
    apply Hno. rewrite E. apply in_or_app. right. now left.
  - repeat split; vm_compute; reflexivity.
Qed.

Lemma C9_emoji_query_witness :
  updateEmojiQueryFromSelection
    true (Some [MkRange (TextNode (js "so :+1 and more")) 6 true])
  = MkEmojiState (js "+1")
      (Some (MkEmojiRange (TextNode (js "so :+1 and more")) 3 6))
  /\ updateEmojiQueryFromSelection
       true (Some [MkRange (TextNode (js "a:b")) 3 true]) = clearEmoji.
Proof.
  split.
  - apply (proj1 (C9_emoji_query (js "so :+1 and more") 6 []) (js "+1")).
    + exists (js "so "). split; [reflexivity|]. split.
      * repeat constructor.
      * right. exists (js "so"), (ch " "). split; reflexivity.
    + discriminate.
  - apply (proj1 (proj2 (proj2 (proj2 (C9_emoji_query (js "a:b") 3 []))))
             [] (ch "a") (js "b")).
    + reflexivity.
    + reflexivity.
    + repeat constructor.
Defined.

(* ================================================================== *)
(** ** Mention validation *)
(* ================================================================== *)

Section MentionFacts.

Variable W : Type.
Variable validate : jsstring -> W -> option jsstring * W.

Lemma validateLoop_resolves : forall mentions p,
    exists kept,
      validated (validateLoop validate mentions p) = validated p ++ kept
      /\ calls (validateLoop validate mentions p)
         = calls p ++ map pubkey mentions
      /\ resolves validate mentions (world p) kept
                  (world (validateLoop validate mentions p)).
Proof.
  induction mentions as [|mention mentions IH]; intros p.
  - exists []. cbn. rewrite !app_nil_r. repeat split. constructor.
  - cbn [validateLoop map].
    destruct (validate (pubkey mention) (world p)) as [answer w'] eqn:V.
    destruct answer as [[|k key]|].
    + destruct (IH (MkPass (validated p) (calls p ++ [pubkey mention]) w'))
        as (kept & Hv & Hc & Hr).
      exists kept. cbn [truthy]. rewrite Hv, Hc. cbn [validated calls world] in *.
      rewrite <- app_assoc. repeat split.
      eapply resolves_drop; eauto.
    + destruct (IH (MkPass (validated p ++ [MkMention (k :: key)])
                           (calls p ++ [pubkey mention]) w'))
        as (kept & Hv & Hc & Hr).
      exists (MkMention (k :: key) :: kept). cbn [truthy]. rewrite Hv, Hc.
      cbn [validated calls world] in *.
      rewrite <- !app_assoc. repeat split.
      eapply resolves_keep; eauto. discriminate.
    + destruct (IH (MkPass (validated p) (calls p ++ [pubkey mention]) w'))
        as (kept & Hv & Hc & Hr).
      exists kept. rewrite Hv, Hc. cbn [validated calls world] in *.
      rewrite <- app_assoc. repeat split.
      eapply resolves_drop; eauto.
Qed.

End MentionFacts.

(** C8.  A text without [@] sets the validated mentions to the empty list
    and makes no call to the validator (the world is left as it was).  A
    text with [@] calls the validator once for each candidate the detector
    extracts, in their order and each on the world the previous call left;
    the candidates that resolve are kept in that order, the others dropped;
    and the list so obtained replaces the previous one whatever it was. *)
Theorem C8_mention_validation :
  forall (W : Type) (detect : jsstring -> list Mention)
         (validate : jsstring -> W -> option jsstring * W)
         (content : jsstring) (w : W),
    (~ In (ch "@") content ->
     mentionsEffect detect validate content w = MkPass [] [] w)
    /\ (In (ch "@") content ->
        calls (mentionsEffect detect validate content w)
        = map pubkey (detect content)
        /\ resolves validate (detect content) w
             (validated (mentionsEffect detect validate content w))
             (world (mentionsEffect detect validate content w)))
    /\ (forall s,
           Submit.validatedMentions
             (setValidatedMentions
                (validated (mentionsEffect detect validate content w)) s)
           = validated (mentionsEffect detect validate content w)).
Proof.
  intros W detect validate content w.
  assert (Hinc : includes content (ch "@") = true <-> In (ch "@") content).
  { unfold includes. rewrite existsb_exists. split.
    - intros (x & Hin & Hx). apply N.eqb_eq in Hx. now subst.
    - intros Hin. exists (ch "@"). split; [assumption|apply N.eqb_refl]. }
  split; [|split].
  - intros Hno. unfold mentionsEffect.
    destruct (includes content (ch "@")); [|reflexivity].
    exfalso. apply Hno. now apply Hinc.
  - intros Hin. apply Hinc in Hin. unfold mentionsEffect, validateMentions.
    rewrite Hin.
    destruct (validateLoop_resolves validate (detect content) (MkPass [] [] w))
      as (kept & Hv & Hc & Hr).
    cbn [validated calls world app] in *. rewrite Hc, Hv. auto.
  - reflexivity.
Qed.

Lemma C8_mention_validation_witness :
  mentionsEffect (fun _ => [MkMention (js "k1")])
                 (fun key (n : nat) => (Some key, S n)) (js "plain text") 0
  = MkPass [] [] 0
  /\ calls (mentionsEffect
              (fun _ => [MkMention (js "bad"); MkMention (js "k1")])
              (fun key (n : nat) =>
                 (if eqs key (js "bad") then None else Some key, S n))
              (js "hi @bad @k1") 0)
     = map pubkey [MkMention (js "bad"); MkMention (js "k1")].
Proof.
  split.
  - apply (proj1 (C8_mention_validation
                    (fun _ => [MkMention (js "k1")])
                    (fun key (n : nat) => (Some key, S n)) (js "plain text") 0)).
    cbn. intros H. repeat (destruct H as [H|H]; [discriminate H|]). exact H.
  - apply (proj1 (proj2 (C8_mention_validation
                    (fun _ => [MkMention (js "bad"); MkMention (js "k1")])
                    (fun key (n : nat) =>
                       (if eqs key (js "bad") then None else Some key, S n))
                    (js "hi @bad @k1") 0))).
    cbn. auto 10.
Defined.

(* ================================================================== *)
(** ** Submission *)
(* ================================================================== *)

Section SubmitFacts.

Lemma trimStart_spaces : forall s,
    Forall (fun c => is_space c = true) s -> trimStart s = [].
Proof.
  induction 1 as [|c s Hc _ IH]; [reflexivity|].
  cbn [trimStart]. now rewrite Hc.
Qed.

Lemma trim_spaces : forall s,
    Forall (fun c => is_space c = true) s -> trim s = [].
Proof.
  intros s H. unfold trim. rewrite (trimStart_spaces H). reflexivity.
Qed.

(** While a send is outstanding, clicks, edits and validation passes
    neither send nor touch the flag. *)
Lemma busy_run : forall events y,
    isSubmitting (state y) = true ->
    forallb (fun e => negb (is_settle e)) events = true ->
    isSubmitting (state (sys_run y events)) = true
    /\ log (sys_run y events) = log y
    /\ outstanding (sys_run y events) = outstanding y.
Proof.
  unfold sys_run.
  induction events as [|e events IH]; intros y Hb Hev; [auto|].
  cbn [forallb] in Hev. apply andb_true_iff in Hev. destruct Hev as [He Hev].
  cbn [fold_left].
  assert (Hstep : isSubmitting (state (sys_step y e)) = true
                  /\ log (sys_step y e) = log y
                  /\ outstanding (sys_step y e) = outstanding y).
  { destruct e as [|o|v|l]; cbn [sys_step].
    - unfold handlePost, canPost. rewrite Hb, andb_false_r.
      cbn. now rewrite !app_nil_r.
    - discriminate He.
    - cbn. auto.
    - cbn. auto. }
  destruct Hstep as (H1 & H2 & H3).
  destruct (IH (sys_step y e) H1 Hev) as (I1 & I2 & I3).
  rewrite I1, I2, I3, H2, H3. auto.
Qed.

Lemma sys_run_app : forall a b y, sys_run y (a ++ b) = sys_run (sys_run y a) b.
Proof. intros. unfold sys_run. apply fold_left_app. Qed.

(** In every state the component can reach, the flag is set exactly while
    one send is outstanding, and never more than one is. *)
Lemma reachable_flag : forall key hide y,
    reachable key hide y ->
    (isSubmitting (state y) = true /\ exists closure, outstanding y = [closure])
    \/ (isSubmitting (state y) = false /\ outstanding y = []).
Proof.
  intros key hide y H. induction H as [|y e _ IH].
  - right. auto.
  - destruct e as [|o|v|l]; cbn [sys_step].
    + unfold handlePost. destruct IH as [[Hb [c Hc]]|[Hb Hc]].
      * unfold canPost. rewrite Hb, andb_false_r. cbn.
        rewrite app_nil_r. left. eauto.
      * destruct (canPost (state y)); cbn; rewrite Hc; cbn; [left|right]; eauto.
    + destruct IH as [[Hb [c Hc]]|[Hb Hc]]; rewrite Hc.
      * right. destruct o as [[r|]|err]; cbn; auto.
      * right. auto.
    + destruct IH as [[Hb [c Hc]]|[Hb Hc]]; [left|right]; cbn; eauto.
    + destruct IH as [[Hb [c Hc]]|[Hb Hc]]; [left|right]; cbn; eauto.
Qed.

End SubmitFacts.

(** C7.  When the sender throws, the failure is caught: it is logged, an
    error notification carries its message (or "Unknown error occurred"
    when what was thrown is not an [Error]), the text is left as it is, and
    the flag is cleared.  The flag is cleared whatever the send settles
    with, and a call turned away at the guard never sets it: in every
    reachable state, after any event, the flag is set only while a send is
    still outstanding. *)
Theorem C7_failure_and_flag : forall key hide y,
    reachable key hide y ->
    (forall closure others error,
        outstanding y = closure :: others ->
        content (state (sys_step y (Settle (Rejected error)))) = content (state y)
        /\ isSubmitting (state (sys_step y (Settle (Rejected error)))) = false
        /\ log (sys_step y (Settle (Rejected error)))
           = log y ++ [ConsoleError error;
                       ToastError (js "An error occurred when sending transaction")
                                  (match error with
                                   | ErrorInstance message => message
                                   | OtherValue => js "Unknown error occurred"
                                   end)])
    /\ (forall closure others o,
           outstanding y = closure :: others ->
           isSubmitting (state (sys_step y (Settle o))) = false)
    /\ (canPost (state y) = false -> sys_step y Click = y)
    /\ (forall e, outstanding (sys_step y e) = [] ->
                  isSubmitting (state (sys_step y e)) = false).
Proof.
  intros key hide y Hy. split; [|split; [|split]].
  - intros closure others error Ho. cbn [sys_step]. rewrite Ho.
    destruct error; cbn; auto.
  - intros closure others o Ho. cbn [sys_step]. rewrite Ho.
    destruct o as [[r|]|err]; reflexivity.
  - intros Hc. cbn [sys_step]. unfold handlePost. rewrite Hc.
    destruct y as [st out lg]. cbn. now rewrite !app_nil_r.
  - intros e He.
    destruct (reachable_flag (reach_step e Hy)) as [[_ [c Hc]]|[Hb _]].
    + rewrite Hc in He. discriminate.
    + exact Hb.
Qed.

Lemma C7_failure_and_flag_witness :
  content (state (sys_step
                    (sys_step (sys_step (mount (Some (js "key")) false)
                                        (Input (js "hello"))) Click)
                    (Settle (Rejected (ErrorInstance (js "no funds"))))))
  = js "hello"
  /\ isSubmitting
       (state (sys_step
                 (sys_step (sys_step (mount (Some (js "key")) false)
                                     (Input (js "hello"))) Click)
                 (Settle (Rejected (ErrorInstance (js "no funds")))))) = false.
Proof.
  destruct (C7_failure_and_flag
              (reach_step Click
                 (reach_step (Input (js "hello"))
                    (reach_mount (Some (js "key")) false))))
    as (Hfail & _).
  destruct (Hfail (MkState (js "hello") false [] (Some (js "key")) false) []
                  (ErrorInstance (js "no funds")) eq_refl)
    as (H1 & H2 & _).
  split; [exact H1|exact H2].
Defined.

(** C10.  With a text that is empty or white space only, or without a
    private key, a click sends nothing and changes nothing: [handlePost]
    returns the state it was given, no effect and no pending send, so the
    text, the validated mentions and the flag keep their values. *)
Theorem C10_nothing_to_post : forall s,
    Forall (fun c => is_space c = true) (content s)
    \/ privateKey s = None \/ privateKey s = Some [] ->
    handlePost s = (s, [], None)
    /\ forall out lg, sys_step (MkSys s out lg) Click = MkSys s out lg.
Proof.
  intros s H.
  assert (Hc : canPost s = false).
  { unfold canPost. destruct H as [H|[H|H]].
    - now rewrite (trim_spaces H).
    - rewrite H. now rewrite andb_false_r.
    - rewrite H. cbn [truthy]. now rewrite andb_false_r. }
  assert (Hp : handlePost s = (s, [], None)) by (unfold handlePost; now rewrite Hc).
  split; [exact Hp|].
  intros out lg. cbn [sys_step state outstanding log]. rewrite Hp.
  now rewrite !app_nil_r.
Qed.

Lemma C10_nothing_to_post_witness :
  handlePost (MkState (js "  " ++ [LF]) false [MkMention (js "k")]
                      (Some (js "key")) false)
  = (MkState (js "  " ++ [LF]) false [MkMention (js "k")] (Some (js "key")) false,
     [], None)
  /\ forall out lg,
      sys_step (MkSys (MkState (js "  " ++ [LF]) false [MkMention (js "k")]
                               (Some (js "key")) false) out lg) Click
      = MkSys (MkState (js "  " ++ [LF]) false [MkMention (js "k")]
                       (Some (js "key")) false) out lg.
Proof.
  apply C10_nothing_to_post. left. cbn. repeat constructor.
Defined.

(* ================================================================== *)
(** ** Editor and content in step *)
(* ================================================================== *)

Section Sync.

Lemma CanonicalText_split : forall a b,
    CanonicalText (a ++ b) -> CanonicalText a /\ CanonicalText b.
Proof. intros a b H. now apply Forall_app in H. Qed.

Lemma stripTrailingNewlines_canonical : forall s,
    CanonicalText s -> CanonicalText (stripTrailingNewlines s).
Proof.
  intros s H. destruct (trailing_split s) as (body & k & -> & Hb).
  rewrite stripTrailingNewlines_split by assumption.
  now apply CanonicalText_split in H.
Qed.

Lemma stripTrailingNewlines_no_newline : forall s,
    ~ endsWithNewline (stripTrailingNewlines s).
Proof.
  intros s. destruct (trailing_split s) as (body & k & -> & Hb).
  now rewrite stripTrailingNewlines_split.
Qed.

Lemma stripTrailingNewlines_fixed : forall s,
    ~ endsWithNewline s -> stripTrailingNewlines s = s.
Proof.
  intros s H. rewrite <- (app_nil_r s) at 1.
  now apply (stripTrailingNewlines_split 0).
Qed.

End Sync.

(** X1.  What [updateContentFromEditor] stores never ends with a newline,
    whatever the editor holds. *)
Theorem X1_content_has_no_trailing_newline : forall s childNodes,
    editor s = Some childNodes ->
    ~ endsWithNewline (surfaceContent (updateContentFromEditor s))
    /\ lastContent (updateContentFromEditor s)
       = surfaceContent (updateContentFromEditor s).
Proof.
  intros s childNodes Hs. unfold updateContentFromEditor. rewrite Hs.
  cbn [surfaceContent lastContent]. split; [|reflexivity].
  rewrite editorValue_strip. apply stripTrailingNewlines_no_newline.
Qed.

Lemma X1_content_has_no_trailing_newline_witness :
  ~ endsWithNewline
      (surfaceContent
         (updateContentFromEditor
            (MkSurface (Some [ElementNode (js "DIV") [] [TextNode (js "a")];
                              ElementNode (js "DIV") [] [ElementNode (js "BR") [] []]])
                       [] [])))
  /\ lastContent
       (updateContentFromEditor
          (MkSurface (Some [ElementNode (js "DIV") [] [TextNode (js "a")];
                            ElementNode (js "DIV") [] [ElementNode (js "BR") [] []]])
                     [] []))
     = surfaceContent
         (updateContentFromEditor
            (MkSurface (Some [ElementNode (js "DIV") [] [TextNode (js "a")];
                              ElementNode (js "DIV") [] [ElementNode (js "BR") [] []]])
                       [] [])).
Proof.
  apply (@X1_content_has_no_trailing_newline
           (MkSurface (Some [ElementNode (js "DIV") [] [TextNode (js "a")];
                             ElementNode (js "DIV") [] [ElementNode (js "BR") [] []]])
                      [] [])
           [ElementNode (js "DIV") [] [TextNode (js "a")];
            ElementNode (js "DIV") [] [ElementNode (js "BR") [] []]]).
  reflexivity.
Defined.

(** X2.  The text taken from the editor is a fixed point of the engine:
    rendering it and reading the markup back gives exactly that text
    again, with no further normalisation. *)
Theorem X2_editor_text_is_stable : forall childNodes,
    CanonicalText (concat (map serializeEditorContent childNodes)) ->
    exists html childNodes',
      renderContentHtml (editorValue childNodes) = Some html
      /\ setInnerHTML html = Some childNodes'
      /\ editorValue childNodes' = editorValue childNodes.
Proof.
  intros childNodes Hc.
  assert (Hv : CanonicalText (editorValue childNodes)).
  { rewrite editorValue_strip. now apply stripTrailingNewlines_canonical. }
  destruct (C1_round_trip_holds Hv) as (html & nodes & H1 & H2 & H3).
  exists html, nodes. repeat split; auto.
  rewrite H3. apply stripTrailingNewlines_fixed.
  rewrite editorValue_strip. apply stripTrailingNewlines_no_newline.
Qed.

Lemma X2_editor_text_is_stable_witness :
  exists html childNodes',
    renderContentHtml
      (editorValue [TextNode (js "<b>"); ElementNode (js "BR") [] [];
                    ElementNode (js "BR") [] []]) = Some html
    /\ setInnerHTML html = Some childNodes'
    /\ editorValue childNodes'
       = editorValue [TextNode (js "<b>"); ElementNode (js "BR") [] [];
                      ElementNode (js "BR") [] []].
Proof.
  apply X2_editor_text_is_stable.
  unfold CanonicalText. cbn.
  repeat (constructor; [split; discriminate|]). constructor.
Defined.

(** X3.  The effects that run after an input.  [updateContentFromEditor]
    has stored the text it read, [next], in the state and in the ref.  The
    effect of the render that shows [next] finds it in the ref and leaves
    everything as it is.  An effect made by an older render, whose
    [content] is another text, does not: it rebuilds the editor from that
    older text and puts it in the ref, the state still holding [next]; the
    effect of the render that shows [next] then rebuilds the editor once
    more, from [next], and the two are in step again. *)
Theorem X3_effects_after_input : forall s childNodes content,
    editor s = Some childNodes ->
    CanonicalText (concat (map serializeEditorContent childNodes)) ->
    CanonicalText content ->
    content <> editorValue childNodes ->
    let next := editorValue childNodes in
    let s1 := updateContentFromEditor s in
    s1 = MkSurface (Some childNodes) next next
    /\ syncEffectOf next s1 = Some s1
    /\ exists older newer,
        syncEffectOf content s1 = Some (MkSurface (Some older) content next)
        /\ editorValue older = stripTrailingNewlines content
        /\ syncEffectOf next (MkSurface (Some older) content next)
           = Some (MkSurface (Some newer) next next)
        /\ editorValue newer = next.
Proof.
  intros s childNodes content He Hc Hcc Hne next s1.
  assert (E1 : s1 = MkSurface (Some childNodes) next next).
  { unfold s1, updateContentFromEditor. now rewrite He. }
  assert (Hn : CanonicalText next).
  { unfold next. rewrite editorValue_strip.
    now apply stripTrailingNewlines_canonical. }
  assert (Hfix : stripTrailingNewlines next = next).
  { apply stripTrailingNewlines_fixed. unfold next.
    rewrite editorValue_strip. apply stripTrailingNewlines_no_newline. }
  destruct (C1_round_trip_holds Hcc) as (html & older & R1 & R2 & R3).
  destruct (C1_round_trip_holds Hn) as (html' & newer & R1' & R2' & R3').
  assert (Q1 : eqs content next = false).
  { destruct (eqs content next) eqn:E; [|reflexivity].
    apply eqs_eq in E. contradiction. }
  assert (Q2 : eqs next content = false).
  { destruct (eqs next content) eqn:E; [|reflexivity].
    apply eqs_eq in E. now symmetry in E. }
  split; [exact E1|]. rewrite E1. split.
  - unfold syncEffectOf. cbn [editor lastContent]. now rewrite eqs_refl.
  - exists older, newer. split; [|split; [exact R3|split]].
    + unfold syncEffectOf, updateEditorFromContent.
      cbn [editor lastContent surfaceContent]. now rewrite Q1, R1, R2.
    + unfold syncEffectOf, updateEditorFromContent.
      cbn [editor lastContent surfaceContent]. now rewrite Q2, R1', R2'.
    + now rewrite R3'.
Qed.

Lemma X3_effects_after_input_witness :
  let childNodes := [TextNode (js "hello")] in
  let next := editorValue childNodes in
  let s1 := updateContentFromEditor (MkSurface (Some childNodes) [] []) in
  s1 = MkSurface (Some childNodes) next next
  /\ syncEffectOf next s1 = Some s1
  /\ exists older newer,
      syncEffectOf [] s1 = Some (MkSurface (Some older) [] next)
      /\ editorValue older = stripTrailingNewlines []
      /\ syncEffectOf next (MkSurface (Some older) [] next)
         = Some (MkSurface (Some newer) next next)
      /\ editorValue newer = next.
Proof.
  apply (@X3_effects_after_input
           (MkSurface (Some [TextNode (js "hello")]) [] [])
           [TextNode (js "hello")] []).
  - reflexivity.
  - unfold CanonicalText. cbn.
    repeat (constructor; [split; discriminate|]). constructor.
  - constructor.
  - discriminate.
Defined.

(** X4.  When [content] is changed from outside the editor to a canonical
    text, the effect re-renders: the editor then holds a tree whose value
    is that text without its trailing newlines, the text is recorded as
    last seen, and running the effect again changes nothing. *)
Theorem X4_rerender_on_external_change : forall s childNodes,
    editor s = Some childNodes ->
    surfaceContent s <> lastContent s ->
    CanonicalText (surfaceContent s) ->
    exists s' childNodes',
      syncEffect s = Some s'
      /\ editor s' = Some childNodes'
      /\ editorValue childNodes' = stripTrailingNewlines (surfaceContent s)
      /\ lastContent s' = surfaceContent s
      /\ surfaceContent s' = surfaceContent s
      /\ syncEffect s' = Some s'.
Proof.
  intros s childNodes He Hne Hc.
  destruct (C1_round_trip_holds Hc) as (html & nodes & H1 & H2 & H3).
  exists (MkSurface (Some nodes) (surfaceContent s) (surfaceContent s)), nodes.
  assert (Hneq : eqs (surfaceContent s) (lastContent s) = false).
  { destruct (eqs (surfaceContent s) (lastContent s)) eqn:E; [|reflexivity].
    apply eqs_eq in E. contradiction. }
  repeat split; auto.
  - unfold syncEffect, syncEffectOf, updateEditorFromContent.
    now rewrite He, Hneq, H1, H2.
  - unfold syncEffect, syncEffectOf. cbn [editor surfaceContent lastContent].
    now rewrite eqs_refl.
Qed.

Lemma X4_rerender_on_external_change_witness :
  exists s' childNodes',
    syncEffect (MkSurface (Some [TextNode (js "old")]) (js "old") []) = Some s'
    /\ editor s' = Some childNodes'
    /\ editorValue childNodes' = stripTrailingNewlines []
    /\ lastContent s' = []
    /\ surfaceContent s' = []
    /\ syncEffect s' = Some s'.
Proof.
  apply (@X4_rerender_on_external_change
           (MkSurface (Some [TextNode (js "old")]) (js "old") [])
           [TextNode (js "old")]).
  - reflexivity.
  - discriminate.
  - constructor.
Defined.

(* ================================================================== *)
(** ** What rendered markup can put into the editor *)
(* ================================================================== *)

Section SafeMarkup.

Lemma insert_units_safe : forall s nodes,
    Forall SafeNode nodes -> Forall SafeNode (insert_units s nodes).
Proof.
  unfold insert_units. induction s as [|c s IH]; intros nodes H; [exact H|].
  cbn [fold_left]. apply IH. unfold insert_unit.
  destruct (c =? LF)%N.
  - constructor; [|exact H]. cbn. auto.
  - unfold insert_char. destruct nodes as [|[d|tg at_ ch_|k d] nodes].
    + constructor; [exact I|exact H].
    + inversion H; subst. constructor; [exact I|assumption].
    + constructor; [exact I|exact H].
    + constructor; [exact I|exact H].
Qed.

Lemma run_renders_safe : forall s h,
    renders s h ->
    Forall (fun c => c <> NUL) s ->
    forall nodes, Forall SafeNode nodes ->
      exists nodes',
        run (nodes, Chars InData) h = Some (nodes', Chars InData)
        /\ Forall SafeNode nodes'.
Proof.
  induction 1 as [s Hf|s a u r h Hf Hr IH]; intros Hs nodes Hn.
  - exists (insert_units s nodes). split.
    + now apply run_text_html.
    + now apply insert_units_safe.
  - apply find_emote_Some in Hf. destruct Hf as (-> & Hu & _).
    apply Forall_app in Hs. destruct Hs as [Ha Hs].
    apply Forall_app in Hs. destruct Hs as [_ Hrr].
    destruct (IH Hrr (ElementNode (js "IMG") (emote_attributes u) []
                        :: insert_units a nodes)) as (nodes' & Hrun & Hsafe).
    + constructor; [|now apply insert_units_safe].
      cbn. split; [reflexivity|]. right. split; [reflexivity|]. now exists u.
    + exists nodes'. split; [|exact Hsafe].
      rewrite run_app, run_text_html by assumption.
      rewrite run_app, run_img_html by now apply EmoteUrl_units.
      exact Hrun.
Qed.

Lemma run_escapeUnit : forall c nodes,
    c <> NUL ->
    run (nodes, Chars InData) (escapeUnit c)
    = Some (insert_char c nodes, Chars InData).
Proof.
  intros c nodes Hc. unfold escapeUnit.
  destruct (N.eqb_spec c (ch "&")) as [->|N1]; [reflexivity|].
  destruct (N.eqb_spec c (ch "<")) as [->|N2]; [reflexivity|].
  destruct (N.eqb_spec c (ch ">")) as [->|]; [reflexivity|].
  destruct (N.eqb_spec c QUOT) as [->|]; [reflexivity|].
  destruct (N.eqb_spec c APOS) as [->|]; [reflexivity|].
  cbn [run step]. unfold chars_step.
  apply N.eqb_neq in N1, N2, Hc. rewrite N1, N2, Hc. reflexivity.
Qed.

Lemma run_escaped_text : forall s d nodes,
    Forall (fun c => c <> NUL) s ->
    run (TextNode d :: nodes, Chars InData) (flat_map escapeUnit s)
    = Some (TextNode (d ++ s) :: nodes, Chars InData).
Proof.
  induction s as [|c s IH]; intros d nodes H.
  - cbn. now rewrite app_nil_r.
  - inversion H; subst.
    rewrite flat_map_cons_app, run_app, run_escapeUnit by assumption.
    cbn [insert_char]. rewrite IH by assumption.
    now rewrite <- app_assoc.
Qed.

Lemma escapeUnit_no_CR : forall c,
    c <> CR -> Forall (fun d => d <> CR) (escapeUnit c).
Proof.
  intros c Hc. unfold escapeUnit.
  repeat match goal with
         | |- context [(c =? ?k)%N] =>
             destruct (N.eqb_spec c k) as [->|];
             [now apply Forall_js_neq|]
         end.
  now constructor.
Qed.

End SafeMarkup.

(** X5.  Whatever a canonical text contains (tags, quotes, attributes,
    entities), the tree the editor receives for it holds text nodes, bare
    line breaks, and images whose attributes are the four of the
    placeholder with a well-formed emote URL, and nothing else: no element
    comes from the text. *)
Theorem X5_rendered_tree_is_safe : forall text,
    CanonicalText text ->
    exists html childNodes,
      renderContentHtml text = Some html
      /\ setInnerHTML html = Some childNodes
      /\ Forall SafeNode childNodes.
Proof.
  intros text Hc.
  assert (Hcr : Forall (fun c => c <> CR) text)
    by (eapply Forall_impl; [|exact Hc]; now intros c [? ?]).
  assert (Hnul : Forall (fun c => c <> NUL) text)
    by (eapply Forall_impl; [|exact Hc]; now intros c [? ?]).
  destruct (renders_total text) as [html Hr].
  destruct (run_renders_safe Hr Hnul (Forall_nil SafeNode))
    as (nodes & Hrun & Hsafe).
  exists html, (rev nodes). split; [|split].
  - now apply renderContentHtml_renders.
  - unfold setInnerHTML.
    rewrite normalize_newlines_id by (eapply renders_no_CR; eauto).
    now rewrite Hrun.
  - now apply Forall_rev.
Qed.

Lemma X5_rendered_tree_is_safe_witness :
  exists html childNodes,
    renderContentHtml (js "<img src=x onerror=alert(1)><script>") = Some html
    /\ setInnerHTML html = Some childNodes
    /\ Forall SafeNode childNodes.
Proof.
  apply X5_rendered_tree_is_safe.
  unfold CanonicalText. cbn.
  repeat (constructor; [split; discriminate|]). constructor.
Defined.

(** X6.  Escaping is undone by the parser: the markup [escapeHtml] gives
    for a non-empty text without U+0000 and carriage returns is read back
    as one text node holding exactly that text. *)
Theorem X6_escape_round_trip : forall c s,
    Forall (fun d => d <> NUL /\ d <> CR) (c :: s) ->
    setInnerHTML (escapeHtml (c :: s)) = Some [TextNode (c :: s)].
Proof.
  intros c s H.
  assert (Hnul : Forall (fun d => d <> NUL) (c :: s))
    by (eapply Forall_impl; [|exact H]; now intros d [? ?]).
  assert (Hcr : Forall (fun d => d <> CR) (c :: s))
    by (eapply Forall_impl; [|exact H]; now intros d [? ?]).
  unfold setInnerHTML. rewrite escapeHtml_units.
  rewrite normalize_newlines_id.
  - inversion Hnul; subst.
    rewrite flat_map_cons_app, run_app, run_escapeUnit by assumption.
    cbn [insert_char]. rewrite run_escaped_text by assumption. reflexivity.
  - clear Hnul H. induction Hcr as [|d l Hd _ IH]; [constructor|].
    rewrite flat_map_cons_app. apply Forall_app. split; [|exact IH].
    now apply escapeUnit_no_CR.
Qed.

Lemma X6_escape_round_trip_witness :
  setInnerHTML (escapeHtml (ch "<" :: js "a href='x'>&amp;"))
  = Some [TextNode (ch "<" :: js "a href='x'>&amp;")].
Proof.
  apply X6_escape_round_trip. cbn.
  repeat (constructor; [split; discriminate|]). constructor.
Defined.

(* ================================================================== *)
(** ** When a click sends, and what follows *)
(* ================================================================== *)

Section Posting.





End Posting.



(** X8.  A post that succeeds: the click sends the text of that moment;
    whatever is typed while the send is outstanding, when the sender
    resolves with a result the success notification is shown unless the
    popup is hidden, [onPost] receives the text that was sent, the text is
    emptied and the flag cleared. *)
Theorem X8_successful_post : forall s events result,
    canPost s = true ->
    forallb (fun e => negb (is_settle e)) events = true ->
    let y := sys_run (MkSys s [] [])
                     (Click :: events ++ [Settle (Resolved (Some result))]) in
    content (state y) = []
    /\ isSubmitting (state y) = false
    /\ outstanding y = []
    /\ log y
       = [SendTransaction
            (MkSendArgs (or_empty (privateKey s)) (content s) (js "post")
                        (map (fun m => pubkey m) (validatedMentions s)))]
           ++ (if hideTransactionPopup s then [] else [ToastSuccess result])
           ++ [OnPost (content s)].
Proof.
  intros s events result Hc Hev y. subst y.
  change (Click :: events ++ [Settle (Resolved (Some result))])
    with ([Click] ++ events ++ [Settle (Resolved (Some result))]).
  rewrite !sys_run_app.
  assert (H1 : sys_run (MkSys s [] []) [Click]
               = MkSys (setIsSubmitting true s) [s]
                   [SendTransaction
                      (MkSendArgs (or_empty (privateKey s)) (content s) (js "post")
                                  (map (fun m => pubkey m) (validatedMentions s)))]).
  { cbn. unfold handlePost. rewrite Hc. reflexivity. }
  rewrite H1.
  destruct (busy_run events
              (MkSys (setIsSubmitting true s) [s]
                 [SendTransaction
                    (MkSendArgs (or_empty (privateKey s)) (content s) (js "post")
                                (map (fun m => pubkey m) (validatedMentions s)))])
              eq_refl Hev) as (B1 & B2 & B3).
  unfold sys_run at 1 3 5 7. cbn [fold_left sys_step].
  rewrite B3. cbn [handlePostSettle state outstanding log].
  rewrite B2. cbn [content isSubmitting setIsSubmitting setContent].
  auto.
Qed.

Lemma X8_successful_post_witness :
  let y := sys_run (MkSys (MkState (js "gm") false [] (Some (js "k")) false) [] [])
                   (Click :: [Input (js "gm, again")]
                      ++ [Settle (Resolved (Some (MkTxResult (js "tx1") 5 (js "0.1"))))]) in
  content (state y) = []
  /\ isSubmitting (state y) = false
  /\ outstanding y = []
  /\ log y
     = [SendTransaction (MkSendArgs (js "k") (js "gm") (js "post") [])]
         ++ [ToastSuccess (MkTxResult (js "tx1") 5 (js "0.1"))]
         ++ [OnPost (js "gm")].
Proof.
  apply (@X8_successful_post (MkState (js "gm") false [] (Some (js "k")) false)
           [Input (js "gm, again")] (MkTxResult (js "tx1") 5 (js "0.1")));
    reflexivity.
Defined.

(** X9.  A send that resolves without a result is silent: nothing is
    notified and [onPost] is not called; the text stays as the user left
    it and the flag is cleared. *)
Theorem X9_no_result_is_silent : forall s events,
    canPost s = true ->
    forallb (fun e => negb (is_settle e)) events = true ->
    let before := sys_run (MkSys s [] []) (Click :: events) in
    let y := sys_step before (Settle (Resolved None)) in
    log y
    = [SendTransaction
         (MkSendArgs (or_empty (privateKey s)) (content s) (js "post")
                     (map (fun m => pubkey m) (validatedMentions s)))]
    /\ content (state y) = content (state before)
    /\ isSubmitting (state y) = false
    /\ outstanding y = [].
Proof.
  intros s events Hc Hev before y. subst y before.
  change (Click :: events) with ([Click] ++ events).
  rewrite !sys_run_app.
  assert (H1 : sys_run (MkSys s [] []) [Click]
               = MkSys (setIsSubmitting true s) [s]
                   [SendTransaction
                      (MkSendArgs (or_empty (privateKey s)) (content s) (js "post")
                                  (map (fun m => pubkey m) (validatedMentions s)))]).
  { cbn. unfold handlePost. rewrite Hc. reflexivity. }
  rewrite H1.
  destruct (busy_run events
              (MkSys (setIsSubmitting true s) [s]
                 [SendTransaction
                    (MkSendArgs (or_empty (privateKey s)) (content s) (js "post")
                                (map (fun m => pubkey m) (validatedMentions s)))])
              eq_refl Hev) as (B1 & B2 & B3).
  cbn [sys_step]. rewrite B3. cbn [handlePostSettle state outstanding log].
  rewrite B2, app_nil_r. auto.
Qed.

Lemma X9_no_result_is_silent_witness :
  let before := sys_run (MkSys (MkState (js "gm") false [] (Some (js "k")) false)
                               [] [])
                        (Click :: [Input (js "gm!")]) in
  let y := sys_step before (Settle (Resolved None)) in
  log y = [SendTransaction (MkSendArgs (js "k") (js "gm") (js "post") [])]
  /\ content (state y) = content (state before)
  /\ isSubmitting (state y) = false
  /\ outstanding y = [].
Proof.
  apply (@X9_no_result_is_silent (MkState (js "gm") false [] (Some (js "k")) false)
           [Input (js "gm!")]); reflexivity.
Defined.

(* ================================================================== *)
(** ** Emoji suggestions and their keys *)
(* ================================================================== *)

Section SuggestionFacts.

Lemma includesString_eq : forall hay needle,
    includesString hay needle =
    match strip_prefix needle hay with
    | Some _ => true
    | None =>
        match hay with
        | [] => false
        | _ :: hay' => includesString hay' needle
        end
    end.
Proof. destruct hay; reflexivity. Qed.

(** [includes] holds exactly of the substrings. *)
Lemma includesString_spec : forall hay needle,
    includesString hay needle = true <-> Substring needle hay.
Proof.
  intros hay needle. split.
  - induction hay as [|c hay IH]; rewrite includesString_eq.
    + destruct (strip_prefix needle []) as [r|] eqn:E; [|discriminate].
      intros _. apply strip_prefix_Some in E. now exists [], r.
    + destruct (strip_prefix needle (c :: hay)) as [r|] eqn:E.
      * intros _. apply strip_prefix_Some in E. now exists [], r.
      * intros H. destruct (IH H) as (a & b & ->). now exists (c :: a), b.
  - intros (a & b & ->). induction a as [|c a IH]; rewrite includesString_eq.
    + cbn [app]. now rewrite strip_prefix_app.
    + cbn [app]. destruct (strip_prefix needle (c :: a ++ needle ++ b));
        [reflexivity|exact IH].
Qed.

Lemma firstn_prefix : forall (A : Type) n (l : list A),
    exists rest, l = firstn n l ++ rest.
Proof. intros A n l. exists (skipn n l). symmetry. apply firstn_skipn. Qed.

Lemma In_firstn_list : forall (A : Type) n (l : list A) x,
    In x (firstn n l) -> In x l.
Proof.
  intros A n l x H. rewrite <- (firstn_skipn n l). apply in_or_app. now left.
Qed.

Lemma onKeyDown_bounds : forall suggestions i key,
    (0 <= i < Z.of_nat (length suggestions))%Z ->
    (0 <= activeIndex (onKeyDown suggestions i key)
     < Z.of_nat (length suggestions))%Z.
Proof.
  intros suggestions i key H. unfold onKeyDown.
  destruct suggestions as [|e l]; [exact H|].
  destruct key; cbn [activeIndex]; try exact H; try lia.
  - destruct (suggestionAt (e :: l) i); exact H.
  - destruct (suggestionAt (e :: l) i); exact H.
Qed.

Lemma pressKeys_bounds : forall suggestions keys i,
    (0 <= i < Z.of_nat (length suggestions))%Z ->
    (0 <= pressKeys suggestions i keys < Z.of_nat (length suggestions))%Z.
Proof.
  unfold pressKeys. induction keys as [|key keys IH]; intros i H; [exact H|].
  cbn [fold_left]. apply IH. now apply onKeyDown_bounds.
Qed.

Lemma suggestionAt_in_bounds : forall suggestions i,
    (0 <= i < Z.of_nat (length suggestions))%Z ->
    exists pick, suggestionAt suggestions i = Some pick /\ In pick suggestions.
Proof.
  intros suggestions i H. unfold suggestionAt.
  destruct (Z.ltb_spec i 0) as [Hneg|_]; [lia|].
  destruct (nth_error suggestions (Z.to_nat i)) as [pick|] eqn:E.
  - exists pick. split; [reflexivity|]. eapply nth_error_In; eauto.
  - apply nth_error_None in E. lia.
Qed.

Lemma findDescriptive_first : forall before d after,
    (forall n, In n before -> ~ Substring (js " ") n) ->
    Substring (js " ") d ->
    findDescriptive (before ++ d :: after) = Some d.
Proof.
  induction before as [|x before IH]; intros d after Hb Hd; cbn [app findDescriptive].
  - now rewrite (proj2 (includesString_spec d (js " ")) Hd).
  - destruct (includesString x (js " ")) eqn:E.
    + apply includesString_spec in E. exfalso. apply (Hb x); [now left|exact E].
    + apply IH; [|exact Hd]. intros n Hn. apply Hb. now right.
Qed.

Lemma findDescriptive_none : forall l,
    (forall n, In n l -> ~ Substring (js " ") n) ->
    findDescriptive l = None.
Proof.
  induction l as [|x l IH]; intros H; [reflexivity|].
  cbn [findDescriptive]. destruct (includesString x (js " ")) eqn:E.
  - apply includesString_spec in E. exfalso. apply (H x); [now left|exact E].
  - apply IH. intros n Hn. apply H. now right.
Qed.

End SuggestionFacts.

(** X10.  The suggestions for a query: none when the trimmed, lower-cased
    query is empty; otherwise the entries of the index whose search key
    contains it, in the order of the index, cut after the first 32: the
    result is the beginning of the list of matching entries and has 32
    entries when more than 32 match, all of them otherwise. *)
Theorem X10_suggestions : forall (toLowerCase : jsstring -> jsstring)
                                 emojiIndex emojiQuery,
    let trimmed := toLowerCase (trim emojiQuery) in
    let out := emojiSuggestions toLowerCase emojiIndex emojiQuery in
    let matching :=
      filter (fun entry => includesString (search entry) trimmed) emojiIndex in
    length out <= 32
    /\ (forall entry, In entry out ->
                      In entry emojiIndex /\ Substring trimmed (search entry))
    /\ (trimmed = [] -> out = [])
    /\ (trimmed <> [] ->
        exists rest,
          matching = out ++ rest
          /\ length out = Nat.min 32 (length matching))
    /\ (trimmed <> [] -> length matching <= 32 -> out = matching).
Proof.
  intros toLowerCase emojiIndex emojiQuery trimmed out matching.
  subst out. unfold emojiSuggestions. fold trimmed. fold matching.
  destruct trimmed as [|c t] eqn:Et; cbn [truthy negb].
  - split; [cbn; lia|]. split; [intros entry []|].
    split; [reflexivity|]. split; intros Hne; congruence.
  - split; [rewrite length_firstn; lia|].
    split.
    { intros entry H. apply In_firstn_list in H. subst matching.
      apply filter_In in H. destruct H as [Hin H].
      split; [exact Hin|]. now apply includesString_spec in H. }
    split; [discriminate|].
    split.
    { intros _. destruct (firstn_prefix 32 matching) as [rest Hrest].
      exists rest. split; [exact Hrest|]. apply length_firstn. }
    intros _ Hlen. now apply firstn_all2.
Qed.

(** X11.  While the same non-empty list of suggestions is shown, the
    active index, starting from 0, stays inside the list whatever keys are
    pressed: the arrows move it by one and stop at both ends (no
    wrap-around), and Enter or Tab always commit the entry at the index,
    counted from 0. *)
Theorem X11_active_index_stays_in_list : forall suggestions keys,
    suggestions <> [] ->
    let i := pressKeys suggestions 0 keys in
    (0 <= i < Z.of_nat (length suggestions))%Z
    /\ (exists pick,
           nth_error suggestions (Z.to_nat i) = Some pick
           /\ onKeyDown suggestions i Enter
              = MkKeyResult true i (InsertSuggestion (emoji pick))
           /\ onKeyDown suggestions i Tab
              = MkKeyResult true i (InsertSuggestion (emoji pick)))
    /\ activeIndex (onKeyDown suggestions (Z.of_nat (length suggestions) - 1)
                              ArrowDown)
       = (Z.of_nat (length suggestions) - 1)%Z
    /\ activeIndex (onKeyDown suggestions 0 ArrowUp) = 0%Z
    /\ (forall j, (0 <= j < Z.of_nat (length suggestions) - 1)%Z ->
                  activeIndex (onKeyDown suggestions j ArrowDown) = (j + 1)%Z)
    /\ (forall j, (0 < j)%Z ->
                  activeIndex (onKeyDown suggestions j ArrowUp) = (j - 1)%Z).
Proof.
  intros suggestions keys Hne i.
  assert (H0 : (0 <= 0 < Z.of_nat (length suggestions))%Z).
  { destruct suggestions; [congruence|]. cbn [length]. lia. }
  assert (Hi : (0 <= i < Z.of_nat (length suggestions))%Z)
    by now apply pressKeys_bounds.
  split; [exact Hi|]. split; [|split; [|split; [|split]]].
  - destruct (suggestionAt_in_bounds suggestions Hi) as (pick & Hp & Hin).
    exists pick. split.
    { unfold suggestionAt in Hp.
      destruct (Z.ltb_spec i 0) as [Hneg|_]; [lia|exact Hp]. }
    unfold onKeyDown. destruct suggestions; [congruence|].
    rewrite Hp. auto.
  - unfold onKeyDown. destruct suggestions; [congruence|].
    cbn [activeIndex]. lia.
  - unfold onKeyDown. destruct suggestions; [congruence|].
    cbn [activeIndex]. lia.
  - intros j Hj. unfold onKeyDown. destruct suggestions; [congruence|].
    cbn [activeIndex]. lia.
  - intros j Hj. unfold onKeyDown. destruct suggestions; [congruence|].
    cbn [activeIndex]. lia.
Qed.

Lemma X11_active_index_stays_in_list_witness :
  let suggestions := [MkEmojiEntry (js "A") [js "a"] (js "a") (js "a");
                      MkEmojiEntry (js "B") [js "b"] (js "b") (js "b")] in
  let i := pressKeys suggestions 0 [ArrowDown; ArrowDown; ArrowDown; ArrowUp; ArrowUp] in
  (0 <= i < Z.of_nat (length suggestions))%Z
  /\ (exists pick,
         nth_error suggestions (Z.to_nat i) = Some pick
         /\ onKeyDown suggestions i Enter
            = MkKeyResult true i (InsertSuggestion (emoji pick))
         /\ onKeyDown suggestions i Tab
            = MkKeyResult true i (InsertSuggestion (emoji pick)))
  /\ activeIndex (onKeyDown suggestions (Z.of_nat (length suggestions) - 1)
                            ArrowDown)
     = (Z.of_nat (length suggestions) - 1)%Z
  /\ activeIndex (onKeyDown suggestions 0 ArrowUp) = 0%Z
  /\ (forall j, (0 <= j < Z.of_nat (length suggestions) - 1)%Z ->
                activeIndex (onKeyDown suggestions j ArrowDown) = (j + 1)%Z)
  /\ (forall j, (0 < j)%Z ->
                activeIndex (onKeyDown suggestions j ArrowUp) = (j - 1)%Z).
Proof.
  apply (@X11_active_index_stays_in_list
           [MkEmojiEntry (js "A") [js "a"] (js "a") (js "a");
            MkEmojiEntry (js "B") [js "b"] (js "b") (js "b")]
           [ArrowDown; ArrowDown; ArrowDown; ArrowUp; ArrowUp]).
  discriminate.
Defined.

(** X12.  The primary name of an entry is the first of its names that
    contains a space, and the first name when none does. *)
Theorem X12_primary_name : forall names,
    (forall before d after,
        names = before ++ d :: after ->
        (forall n, In n before -> ~ Substring (js " ") n) ->
        Substring (js " ") d ->
        pickPrimaryName names = d)
    /\ (forall first others,
           names = first :: others ->
           (forall n, In n names -> ~ Substring (js " ") n) ->
           pickPrimaryName names = first)
    /\ (names <> [] -> In (pickPrimaryName names) names).
Proof.
  intros names.
  assert (H1 : forall before d after,
             names = before ++ d :: after ->
             (forall n, In n before -> ~ Substring (js " ") n) ->
             Substring (js " ") d ->
             pickPrimaryName names = d).
  { intros before d after -> Hb Hd. unfold pickPrimaryName.
    rewrite (@findDescriptive_first before d after Hb Hd).
    destruct (before ++ d :: after) eqn:E; [now destruct before|].
    destruct d; [|reflexivity].
    destruct Hd as (a & b & Hd). now destruct a. }
  assert (H2 : forall first others,
             names = first :: others ->
             (forall n, In n names -> ~ Substring (js " ") n) ->
             pickPrimaryName names = first).
  { intros first others -> Hn. unfold pickPrimaryName.
    now rewrite (@findDescriptive_none (first :: others) Hn). }
  split; [exact H1|]. split; [exact H2|].
  intros Hne.
  assert (Hsplit : (exists before d after,
                       names = before ++ d :: after
                       /\ (forall n, In n before -> ~ Substring (js " ") n)
                       /\ Substring (js " ") d)
                   \/ (forall n, In n names -> ~ Substring (js " ") n)).
  { clear. induction names as [|x names IH].
    - right. intros n [].
    - destruct (includesString x (js " ")) eqn:E.
      + left. exists [], x, names. repeat split; [intros n []|].
        now apply includesString_spec.
      + destruct IH as [(before & d & after & -> & Hb & Hd)|Hn].
        * left. exists (x :: before), d, after. repeat split; [|exact Hd].
          intros n [<-|Hin]; [|now apply Hb].
          intros Hs. apply includesString_spec in Hs. congruence.
        * right. intros n [<-|Hin]; [|now apply Hn].
          intros Hs. apply includesString_spec in Hs. congruence. }
  destruct Hsplit as [(before & d & after & E & Hb & Hd)|Hn].
  - rewrite (H1 _ _ _ E Hb Hd). rewrite E. apply in_or_app. right. now left.
  - destruct names as [|first others]; [congruence|].
    rewrite (H2 _ _ eq_refl Hn). now left.
Qed.

(* ================================================================== *)
(** ** Insertion at the caret *)
(* ================================================================== *)

Unset Implicit Arguments.

Section CaretFacts.

Lemma firstn_exact : forall (A : Type) (a b : list A),
    firstn (length a) (a ++ b) = a.
Proof. induction a; simpl; intros; f_equal; auto. Qed.

Lemma skipn_exact : forall (A : Type) (a b : list A),
    skipn (length a) (a ++ b) = b.
Proof. induction a; simpl; auto. Qed.

Lemma nth_error_pieces : forall (A : Type) (l : list A) i x,
    nth_error l i = Some x ->
    l = firstn i l ++ x :: skipn (S i) l /\ length (firstn i l) = i.
Proof.
  induction l as [|y l IH]; intros i x H; destruct i as [|i]; try discriminate.
  - injection H as ->. auto.
  - cbn [nth_error] in H. destruct (IH _ _ H) as [E L].
    change (skipn (S (S i)) (y :: l)) with (skipn (S i) l).
    cbn [firstn length app]. split; [f_equal; exact E|now rewrite L].
Qed.

Lemma nth_error_middle : forall (A : Type) (a : list A) x b,
    nth_error (a ++ x :: b) (length a) = Some x.
Proof. induction a; simpl; auto. Qed.

Lemma skipn_S_middle : forall (A : Type) (a : list A) x b,
    skipn (S (length a)) (a ++ x :: b) = b.
Proof. induction a; simpl; auto. Qed.

Lemma nth_error_at : forall (A : Type) (a : list A) x b i,
    length a = i -> nth_error (a ++ x :: b) i = Some x.
Proof. intros A a x b i <-. apply nth_error_middle. Qed.

Lemma firstn_at : forall (A : Type) (a b : list A) i,
    length a = i -> firstn i (a ++ b) = a.
Proof. intros A a b i <-. apply firstn_exact. Qed.

Lemma skipn_at : forall (A : Type) (a b : list A) i,
    length a = i -> skipn i (a ++ b) = b.
Proof. intros A a b i <-. apply skipn_exact. Qed.

Lemma skipn_S_at : forall (A : Type) (a : list A) x b i,
    length a = i -> skipn (S i) (a ++ x :: b) = b.
Proof. intros A a x b i <-. apply skipn_S_middle. Qed.

(** A list cut at two offsets. *)
Lemma list_three : forall (A : Type) (l : list A) i j,
    i <= j ->
    l = firstn i l ++ skipn i (firstn j l) ++ skipn j l.
Proof.
  intros A l i j H.
  rewrite <- (firstn_skipn j l) at 1.
  rewrite <- (firstn_skipn i (firstn j l)) at 1.
  rewrite firstn_firstn, Nat.min_l by assumption.
  now rewrite <- app_assoc.
Qed.

Lemma firstn_length_le : forall (A : Type) (l : list A) i,
    i <= length l -> length (firstn i l) = i.
Proof. intros. rewrite length_firstn. lia. Qed.

Lemma text_of_cons : forall n l,
    text_of (n :: l) = serializeEditorContent n ++ text_of l.
Proof. reflexivity. Qed.

(** An element other than an image or a line break serializes to what its
    children serialize to, a block container adding one newline. *)
Lemma serialize_transparent : forall tagName attributes childNodes,
    eqs tagName (js "IMG") = false ->
    eqs tagName (js "BR") = false ->
    serializeEditorContent (ElementNode tagName attributes childNodes)
    = text_of childNodes
        ++ (if eqs tagName (js "DIV") || eqs tagName (js "P") then [LF] else []).
Proof.
  intros tagName attributes childNodes H1 H2.
  cbn [serializeEditorContent]. rewrite H1, H2, fold_left_app_concat.
  cbn [app]. fold (text_of childNodes).
  destruct (eqs tagName (js "DIV") || eqs tagName (js "P"));
    [reflexivity|now rewrite app_nil_r].
Qed.

Lemma container_cons : forall i path cs,
    container (i :: path) cs =
    match nth_error cs i with
    | Some (ElementNode _ _ childNodes) => container path childNodes
    | _ => None
    end.
Proof. reflexivity. Qed.

Lemma visible_cons : forall i path cs,
    visible (i :: path) cs =
    match nth_error cs i with
    | Some (ElementNode tagName _ childNodes) =>
        negb (eqs tagName (js "IMG")) && negb (eqs tagName (js "BR"))
        && visible path childNodes
    | _ => false
    end.
Proof. reflexivity. Qed.

Lemma context_cons : forall i path cs,
    context (i :: path) cs =
    match nth_error cs i with
    | Some (ElementNode tagName _ childNodes) =>
        (text_of (firstn i cs) ++ fst (context path childNodes),
         snd (context path childNodes)
           ++ (if eqs tagName (js "DIV") || eqs tagName (js "P") then [LF]
               else [])
           ++ text_of (skipn (S i) cs))
    | _ => ([], [])
    end.
Proof. reflexivity. Qed.

Lemma updateAt_cons : forall i path f cs,
    updateAt (i :: path) f cs =
    match nth_error cs i with
    | Some (ElementNode tagName attributes childNodes) =>
        match updateAt path f childNodes with
        | Some childNodes' =>
            Some (firstn i cs ++ ElementNode tagName attributes childNodes'
                    :: skipn (S i) cs)
        | None => None
        end
    | _ => None
    end.
Proof. reflexivity. Qed.

(** Rewriting the children of the element at a visible path: only what
    that element's children serialize to changes. *)
Lemma updateAt_spec : forall path f cs cs',
    updateAt path f cs = Some cs' ->
    visible path cs = true ->
    exists l l',
      container path cs = Some l
      /\ f l = Some l'
      /\ container path cs' = Some l'
      /\ context path cs' = context path cs
      /\ visible path cs' = true
      /\ text_of cs = fst (context path cs) ++ text_of l ++ snd (context path cs)
      /\ text_of cs' = fst (context path cs) ++ text_of l' ++ snd (context path cs).
Proof.
  induction path as [|i path IH]; intros f cs cs' Hu Hv.
  - cbn in Hu. exists cs, cs'. cbn. rewrite !app_nil_r. auto 10.
  - rewrite updateAt_cons in Hu. rewrite visible_cons in Hv.
    destruct (nth_error cs i) as [[d|t a c|k d]|] eqn:En; try discriminate.
    destruct (updateAt path f c) as [c1|] eqn:Ec; [|discriminate].
    injection Hu as Hu. symmetry in Hu.
    change (cs' = firstn i cs ++ ElementNode t a c1 :: skipn (S i) cs) in Hu.
    subst cs'.
    apply andb_true_iff in Hv. destruct Hv as [Hv Hvc].
    apply andb_true_iff in Hv. destruct Hv as [Himg Hbr].
    apply negb_true_iff in Himg, Hbr.
    destruct (IH f c c1 Ec Hvc) as (l & l' & C1 & Hf & C2 & Hctx & Hv' & T1 & T2).
    destruct (nth_error_pieces _ _ _ _ En) as [Ecs Elen].
    assert (En' : nth_error (firstn i cs ++ ElementNode t a c1 :: skipn (S i) cs) i
                  = Some (ElementNode t a c1)).
    { now apply nth_error_at. }
    assert (Ef : firstn i (firstn i cs ++ ElementNode t a c1 :: skipn (S i) cs)
                 = firstn i cs).
    { now apply firstn_at. }
    assert (Es : skipn (S i) (firstn i cs ++ ElementNode t a c1 :: skipn (S i) cs)
                 = skipn (S i) cs).
    { now apply skipn_S_at. }
    exists l, l'. rewrite !container_cons, !context_cons, !visible_cons.
    rewrite En, En', Ef, Es, Hctx, Himg, Hbr, Hv'. cbn [fst snd negb andb].
    repeat (split; [auto; fail|]).
    split.
    + rewrite Ecs at 1. unfold text_of at 1.
      rewrite map_app, concat_app. cbn [map concat].
      fold (text_of (firstn i cs)). fold (text_of (skipn (S i) cs)).
      rewrite serialize_transparent by assumption. rewrite T1.
      now rewrite <- !app_assoc.
    + unfold text_of at 1.
      rewrite map_app, concat_app. cbn [map concat].
      fold (text_of (firstn i cs)). fold (text_of (skipn (S i) cs)).
      rewrite serialize_transparent by assumption. rewrite T2.
      now rewrite <- !app_assoc.
Qed.

Lemma updateAt_total : forall path f cs l l',
    container path cs = Some l -> f l = Some l' ->
    exists cs', updateAt path f cs = Some cs'.
Proof.
  induction path as [|i path IH]; intros f cs l l' Hc Hf.
  - cbn in Hc. injection Hc as ->. exists l'. exact Hf.
  - rewrite container_cons in Hc. rewrite updateAt_cons.
    destruct (nth_error cs i) as [[d|t a c|k d]|]; try discriminate.
    destruct (IH f c l l' Hc Hf) as [c1 ->]. eauto.
Qed.

Lemma Divides_text : forall b cs x y, Divides b cs x y -> text_of cs = x ++ y.
Proof.
  intros [p off|p i off] cs x y H; cbn [Divides] in H.
  - destruct H as (_ & -> & ->). rewrite <- text_of_app.
    now rewrite firstn_skipn.
  - destruct H as (d & En & _ & -> & ->).
    destruct (nth_error_pieces _ _ _ _ En) as [Ecs _].
    rewrite Ecs at 1. rewrite text_of_app, text_of_cons.
    cbn [serializeEditorContent or_empty].
    rewrite <- (firstn_skipn off d) at 1. now rewrite <- !app_assoc.
Qed.

(** Deleting the range leaves its start dividing the text where the
    deleted part was. *)
Lemma deleteIn_Divides : forall b stop cs cs1,
    deleteIn b stop cs = Some cs1 ->
    exists x old y, text_of cs = x ++ old ++ y /\ Divides b cs1 x y.
Proof.
  intros [p off|p i off] stop cs cs1 H; cbn [deleteIn] in H.
  - destruct (Nat.leb_spec off stop) as [H1|]; [|discriminate].
    destruct (Nat.leb_spec stop (length cs)) as [H2|]; [|discriminate].
    cbn [andb] in H. injection H as <-.
    exists (text_of (firstn off cs)), (text_of (skipn off (firstn stop cs))),
      (text_of (skipn stop cs)).
    split.
    + rewrite <- !text_of_app. now rewrite <- list_three.
    + cbn [Divides].
      assert (L : length (firstn off cs) = off) by (apply firstn_length_le; lia).
      split; [rewrite length_app; lia|].
      split.
      * rewrite firstn_at by exact L; reflexivity.
      * rewrite skipn_at by exact L; reflexivity.
  - destruct (nth_error cs i) as [[d|t a c|k d]|] eqn:En; try discriminate.
    destruct (Nat.leb_spec off stop) as [H1|]; [|discriminate].
    destruct (Nat.leb_spec stop (length d)) as [H2|]; [|discriminate].
    cbn [andb] in H. injection H as <-.
    destruct (nth_error_pieces _ _ _ _ En) as [Ecs Elen].
    assert (L : length (firstn off d) = off) by (apply firstn_length_le; lia).
    exists (text_of (firstn i cs) ++ firstn off d), (skipn off (firstn stop d)),
      (skipn stop d ++ text_of (skipn (S i) cs)).
    split.
    + rewrite Ecs at 1. rewrite text_of_app, text_of_cons.
      cbn [serializeEditorContent or_empty].
      rewrite (list_three _ d off stop H1) at 1. now rewrite <- !app_assoc.
    + cbn [Divides]. exists (firstn off d ++ skipn stop d).
      split; [now apply nth_error_at|].
      split; [rewrite length_app; lia|].
      split.
      * rewrite firstn_at by exact Elen; rewrite firstn_at by exact L; reflexivity.
      * rewrite skipn_at by exact L; rewrite skipn_S_at by exact Elen; reflexivity.
Qed.

(** Inserting a node where the range starts always works, and leaves the
    start in front of the new node. *)
Lemma insertIn_Divides : forall b node cs x y,
    Divides b cs x y ->
    exists cs',
      insertIn b node cs = Some cs'
      /\ Divides b cs' x (serializeEditorContent node ++ y).
Proof.
  intros [p off|p i off] node cs x y H; cbn [Divides] in H; cbn [insertIn].
  - destruct H as (Hle & -> & ->).
    destruct (Nat.leb_spec off (length cs)) as [_|]; [|lia].
    eexists. split; [reflexivity|]. cbn [Divides].
    assert (L : length (firstn off cs) = off) by (apply firstn_length_le; lia).
    split; [rewrite length_app; lia|].
    split.
    + rewrite firstn_at by exact L; reflexivity.
    + rewrite skipn_at by exact L; reflexivity.
  - destruct H as (d & En & Hle & -> & ->). rewrite En.
    destruct (Nat.leb_spec off (length d)) as [_|]; [|lia].
    eexists. split; [reflexivity|]. cbn [Divides].
    destruct (nth_error_pieces _ _ _ _ En) as [Ecs Elen].
    assert (L : length (firstn off d) = off) by (apply firstn_length_le; lia).
    exists (firstn off d).
    split; [now apply nth_error_at|].
    split; [lia|].
    split.
    + rewrite firstn_at by exact Elen.
      replace (firstn off (firstn off d)) with (firstn off d)
        by (symmetry; apply firstn_all2; lia).
      reflexivity.
    + replace (skipn off (firstn off d)) with (@nil N)
        by (symmetry; apply skipn_all2; lia).
      rewrite skipn_S_at by exact Elen.
      rewrite !text_of_cons. cbn [serializeEditorContent or_empty app].
      reflexivity.
Qed.

(** The two steps on the whole tree. *)
Lemma deleteContents_spec : forall r cs cs1,
    deleteContents r cs = Some cs1 ->
    visible (boundaryPath (startAt r)) cs = true ->
    exists l1 x old y,
      container (boundaryPath (startAt r)) cs1 = Some l1
      /\ visible (boundaryPath (startAt r)) cs1 = true
      /\ Divides (startAt r) l1 x y
      /\ text_of cs
         = fst (context (boundaryPath (startAt r)) cs1) ++ (x ++ old ++ y)
             ++ snd (context (boundaryPath (startAt r)) cs1).
Proof.
  intros r cs cs1 H Hv. unfold deleteContents in H.
  destruct (updateAt_spec _ _ _ _ H Hv) as (l & l1 & C & Hf & C1 & Hc & Hv1 & T & _).
  destruct (deleteIn_Divides _ _ _ _ Hf) as (x & old & y & Tl & Hd).
  exists l1, x, old, y. rewrite Hc, T, Tl. auto.
Qed.

Lemma insertNode_spec : forall b node cs l x y,
    container (boundaryPath b) cs = Some l ->
    visible (boundaryPath b) cs = true ->
    Divides b l x y ->
    exists cs' l',
      insertNode b node cs = Some cs'
      /\ container (boundaryPath b) cs' = Some l'
      /\ visible (boundaryPath b) cs' = true
      /\ context (boundaryPath b) cs' = context (boundaryPath b) cs
      /\ Divides b l' x (serializeEditorContent node ++ y)
      /\ text_of cs'
         = fst (context (boundaryPath b) cs)
             ++ (x ++ serializeEditorContent node ++ y)
             ++ snd (context (boundaryPath b) cs).
Proof.
  intros b node cs l x y C Hv Hd.
  destruct (insertIn_Divides b node l x y Hd) as (l' & Hi & Hd').
  destruct (updateAt_total _ _ _ _ _ C Hi) as [cs' Hu].
  destruct (updateAt_spec _ _ _ _ Hu Hv) as (l0 & l0' & C0 & Hf & C1 & Hc & Hv1 & _ & T).
  rewrite C in C0. injection C0 as <-. rewrite Hi in Hf. injection Hf as <-.
  exists cs', l'. unfold insertNode. rewrite Hu, T, (Divides_text _ _ _ _ Hd'). auto 10.
Qed.

Lemma skipn_split : forall (A : Type) (l : list A) i j,
    i <= j -> skipn i l = skipn i (firstn j l) ++ skipn j l.
Proof.
  intros A l i j H. apply (app_inv_head (firstn i l)).
  rewrite firstn_skipn. now apply list_three.
Qed.

Lemma firstn_split : forall (A : Type) (l : list A) i j,
    i <= j -> firstn j l = firstn i l ++ skipn i (firstn j l).
Proof.
  intros A l i j H. rewrite <- (firstn_skipn i (firstn j l)) at 1.
  f_equal. rewrite firstn_firstn. f_equal. lia.
Qed.

(** Deleting the range, with the range's two ends named: the start divides
    the container's text into [x] and the rest, the end into the rest and
    [y], and afterwards the start divides it into [x] and [y]. *)
Lemma deleteIn_range : forall r cs cs1,
    deleteIn (startAt r) (endAt r) cs = Some cs1 ->
    exists x old y,
      Divides (startAt r) cs x (old ++ y)
      /\ Divides (endBoundary r) cs (x ++ old) y
      /\ Divides (startAt r) cs1 x y.
Proof.
  intros [[p off|p i off] stop] cs cs1 H;
    unfold endBoundary; cbn [startAt endAt deleteIn] in *.
  - destruct (Nat.leb_spec off stop) as [H1|]; [|discriminate].
    destruct (Nat.leb_spec stop (length cs)) as [H2|]; [|discriminate].
    cbn [andb] in H. injection H as <-.
    exists (text_of (firstn off cs)), (text_of (skipn off (firstn stop cs))),
      (text_of (skipn stop cs)).
    assert (L : length (firstn off cs) = off) by (apply firstn_length_le; lia).
    split; [|split]; cbn [Divides].
    + split; [lia|]. split; [reflexivity|].
      rewrite <- text_of_app. now rewrite <- skipn_split.
    + split; [lia|]. split; [|reflexivity].
      rewrite <- text_of_app. now rewrite <- firstn_split.
    + split; [rewrite length_app; lia|].
      split.
      * rewrite firstn_at by exact L; reflexivity.
      * rewrite skipn_at by exact L; reflexivity.
  - destruct (nth_error cs i) as [[d|t a c|k d]|] eqn:En; try discriminate.
    destruct (Nat.leb_spec off stop) as [H1|]; [|discriminate].
    destruct (Nat.leb_spec stop (length d)) as [H2|]; [|discriminate].
    cbn [andb] in H. injection H as <-.
    destruct (nth_error_pieces _ _ _ _ En) as [Ecs Elen].
    assert (L : length (firstn off d) = off) by (apply firstn_length_le; lia).
    exists (text_of (firstn i cs) ++ firstn off d), (skipn off (firstn stop d)),
      (skipn stop d ++ text_of (skipn (S i) cs)).
    split; [|split]; cbn [Divides].
    + exists d. split; [exact En|]. split; [lia|]. split; [reflexivity|].
      rewrite app_assoc. now rewrite <- skipn_split.
    + exists d. split; [exact En|]. split; [lia|]. split; [|reflexivity].
      rewrite <- app_assoc. now rewrite <- firstn_split.
    + exists (firstn off d ++ skipn stop d).
      split; [now apply nth_error_at|].
      split; [rewrite length_app; lia|].
      split.
      * rewrite firstn_at by exact Elen; rewrite firstn_at by exact L; reflexivity.
      * rewrite skipn_at by exact L; rewrite skipn_S_at by exact Elen; reflexivity.
Qed.

Lemma Divides_unique : forall b cs x y x' y',
    Divides b cs x y -> Divides b cs x' y' -> x = x' /\ y = y'.
Proof.
  intros [p off|p i off] cs x y x' y' H H'; cbn [Divides] in *.
  - destruct H as (_ & -> & ->). destruct H' as (_ & -> & ->). auto.
  - destruct H as (d & En & _ & -> & ->).
    destruct H' as (d' & En' & _ & -> & ->).
    rewrite En in En'. injection En' as <-. auto.
Qed.

Lemma deleteContents_range : forall r cs cs1,
    deleteContents r cs = Some cs1 ->
    visible (boundaryPath (startAt r)) cs = true ->
    exists l l1 x old y,
      container (boundaryPath (startAt r)) cs = Some l
      /\ container (boundaryPath (startAt r)) cs1 = Some l1
      /\ visible (boundaryPath (startAt r)) cs1 = true
      /\ context (boundaryPath (startAt r)) cs1
         = context (boundaryPath (startAt r)) cs
      /\ Divides (startAt r) l x (old ++ y)
      /\ Divides (endBoundary r) l (x ++ old) y
      /\ Divides (startAt r) l1 x y
      /\ text_of cs
         = fst (context (boundaryPath (startAt r)) cs) ++ (x ++ old ++ y)
             ++ snd (context (boundaryPath (startAt r)) cs).
Proof.
  intros r cs cs1 H Hv. unfold deleteContents in H.
  destruct (updateAt_spec _ _ _ _ H Hv) as (l & l1 & C & Hf & C1 & Hc & Hv1 & T & _).
  destruct (deleteIn_range _ _ _ Hf) as (x & old & y & D0 & D1 & D2).
  exists l, l1, x, old, y. rewrite T, (Divides_text _ _ _ _ D0). auto 10.
Qed.

End CaretFacts.

Section InsertionFacts.

Lemma not_endsWithNewline_space : forall s, ~ endsWithNewline (s ++ js " ").
Proof.
  intros s [s' H]. apply app_inj_tail in H. destruct H as [_ H]. discriminate H.
Qed.

Lemma serialize_emoteImage : forall url,
    serializeEditorContent (emoteImage url) = url.
Proof. reflexivity. Qed.

Lemma updateContentFromEditor_setEditor : forall cs s,
    editor (updateContentFromEditor (setEditor cs s)) = Some cs
    /\ surfaceContent (updateContentFromEditor (setEditor cs s))
       = stripTrailingNewlines (text_of cs)
    /\ lastContent (updateContentFromEditor (setEditor cs s))
       = surfaceContent (updateContentFromEditor (setEditor cs s)).
Proof.
  intros cs s. unfold updateContentFromEditor, setEditor.
  cbn [editor surfaceContent lastContent]. now rewrite editorValue_strip.
Qed.

(** Deleting inside one text node, with the parts named. *)
Lemma deleteIn_text : forall p i off stop l d,
    nth_error l i = Some (TextNode d) ->
    off <= stop -> stop <= length d ->
    exists l1,
      deleteIn (InText p i off) stop l = Some l1
      /\ Divides (InText p i off) l1
           (text_of (firstn i l) ++ firstn off d)
           (skipn stop d ++ text_of (skipn (S i) l))
      /\ text_of l = text_of (firstn i l) ++ d ++ text_of (skipn (S i) l).
Proof.
  intros p i off stop l d En H1 H2. cbn [deleteIn]. rewrite En.
  destruct (Nat.leb_spec off stop) as [_|]; [|lia].
  destruct (Nat.leb_spec stop (length d)) as [_|]; [|lia].
  cbn [andb]. eexists. split; [reflexivity|].
  destruct (nth_error_pieces _ _ _ _ En) as [Ecs Elen].
  assert (L : length (firstn off d) = off) by (apply firstn_length_le; lia).
  split.
  - cbn [Divides]. exists (firstn off d ++ skipn stop d).
    split; [now apply nth_error_at|].
    split; [rewrite length_app; lia|].
    split.
    + rewrite firstn_at by exact Elen. rewrite firstn_at by exact L. reflexivity.
    + rewrite skipn_at by exact L. rewrite skipn_S_at by exact Elen. reflexivity.
  - rewrite Ecs at 1. rewrite text_of_app, text_of_cons. reflexivity.
Qed.

(** What [updateEmojiQueryFromSelection] stores for a query. *)
Lemma emoji_query_found : forall text offset others q,
    QueryAt (slice 0 offset text) q -> q <> [] ->
    updateEmojiQueryFromSelection
      true (Some (MkRange (TextNode text) offset true :: others))
    = MkEmojiState q
        (Some (MkEmojiRange (TextNode text)
                 (Z.of_nat offset - Z.of_nat (length q) - 1)
                 (Z.of_nat offset))).
Proof.
  intros text offset others q Hq Hne.
  change (updateEmojiQueryFromSelection
            true (Some (MkRange (TextNode text) offset true :: others)))
    with (match exec emojiQueryRegex (slice 0 offset text) 0 with
          | None => clearEmoji
          | Some mt =>
              let query := or_empty (group (slice 0 offset text) mt 1) in
              if negb (truthy query) then clearEmoji
              else MkEmojiState query
                     (Some (MkEmojiRange (TextNode text)
                              (Z.of_nat offset - Z.of_nat (length query) - 1)
                              (Z.of_nat offset)))
          end).
  pose proof (exec_query (slice 0 offset text)) as Hx.
  destruct (exec emojiQueryRegex (slice 0 offset text) 0) as [mt|].
  - destruct Hx as (q' & Hq' & Hg).
    rewrite (QueryAt_unique Hq Hq'), Hg. cbn [or_empty].
    rewrite (QueryAt_unique Hq Hq') in Hne.
    destruct q'; [congruence|reflexivity].
  - now apply Hx in Hq.
Qed.

End InsertionFacts.

(** X13.  Inserting text at a caret or over a selection that lies in one
    container.  The start of the range divides the container's text into
    [x] and the rest, its end into the rest and [y]; with the text before
    and after the container, [x] and [y] are the editor's text before the
    range and after it.  The selected part between them goes, the new text
    takes its place and nothing else moves; [content] is the result without
    its trailing newlines.  The insertion cannot fail once the range is one
    the tree has. *)
Theorem X13_insert_text_at_caret : forall value range s childNodes deleted,
    editor s = Some childNodes ->
    visible (boundaryPath (startAt range)) childNodes = true ->
    deleteContents range childNodes = Some deleted ->
    exists l x selected y s' childNodes',
      container (boundaryPath (startAt range)) childNodes = Some l
      /\ Divides (startAt range) l x (selected ++ y)
      /\ Divides (endBoundary range) l (x ++ selected) y
      /\ concat (map serializeEditorContent childNodes)
         = (fst (context (boundaryPath (startAt range)) childNodes) ++ x)
             ++ selected
             ++ (y ++ snd (context (boundaryPath (startAt range)) childNodes))
      /\ insertTextAtCursor value (Ranged range) s = Some s'
      /\ editor s' = Some childNodes'
      /\ concat (map serializeEditorContent childNodes')
         = (fst (context (boundaryPath (startAt range)) childNodes) ++ x)
             ++ value
             ++ (y ++ snd (context (boundaryPath (startAt range)) childNodes))
      /\ surfaceContent s'
         = stripTrailingNewlines
             ((fst (context (boundaryPath (startAt range)) childNodes) ++ x)
                ++ value
                ++ (y ++ snd (context (boundaryPath (startAt range)) childNodes)))
      /\ lastContent s' = surfaceContent s'.
Proof.
  intros value range s childNodes deleted He Hv Hdel.
  destruct (deleteContents_range _ _ _ Hdel Hv)
    as (l & l1 & x & old & y & C & C1 & V1 & Hctx & D0 & De & D1 & T).
  destruct (insertNode_spec (startAt range) (TextNode value) deleted l1 x y C1 V1 D1)
    as (cs' & l' & Hins & _ & _ & _ & _ & T').
  destruct (updateContentFromEditor_setEditor cs' s) as (E1 & E2 & E3).
  exists l, x, old, y, (updateContentFromEditor (setEditor cs' s)), cs'.
  fold (text_of childNodes). fold (text_of cs').
  assert (Tnew : text_of cs'
                 = (fst (context (boundaryPath (startAt range)) childNodes) ++ x)
                     ++ value
                     ++ y ++ snd (context (boundaryPath (startAt range)) childNodes)).
  { rewrite T', Hctx. cbn [serializeEditorContent or_empty].
    now rewrite <- !app_assoc. }
  split; [exact C|]. split; [exact D0|]. split; [exact De|].
  split; [rewrite T; now rewrite <- !app_assoc|].
  split; [unfold insertTextAtCursor; now rewrite He, Hdel, Hins|].
  split; [exact E1|]. split; [exact Tnew|].
  split; [now rewrite E2, Tnew|exact E3].
Qed.

Lemma X13_insert_text_at_caret_witness :
  exists l x selected y s' childNodes',
    container [0] [ElementNode (js "DIV") [] [TextNode (js "hello world")]]
    = Some l
    /\ Divides (InText [0] 0 5) l x (selected ++ y)
    /\ Divides (endBoundary (MkDomRange (InText [0] 0 5) 11)) l (x ++ selected) y
    /\ concat (map serializeEditorContent
                   [ElementNode (js "DIV") [] [TextNode (js "hello world")]])
       = (fst (context [0] [ElementNode (js "DIV") [] [TextNode (js "hello world")]])
            ++ x)
           ++ selected
           ++ (y ++ snd (context [0] [ElementNode (js "DIV") []
                                        [TextNode (js "hello world")]]))
    /\ insertTextAtCursor (js "!")
         (Ranged (MkDomRange (InText [0] 0 5) 11))
         (MkSurface (Some [ElementNode (js "DIV") [] [TextNode (js "hello world")]])
                    (js "hello world") (js "hello world"))
       = Some s'
    /\ editor s' = Some childNodes'
    /\ concat (map serializeEditorContent childNodes')
       = (fst (context [0] [ElementNode (js "DIV") [] [TextNode (js "hello world")]])
            ++ x)
           ++ js "!"
           ++ (y ++ snd (context [0] [ElementNode (js "DIV") []
                                        [TextNode (js "hello world")]]))
    /\ surfaceContent s'
       = stripTrailingNewlines
           ((fst (context [0] [ElementNode (js "DIV") []
                                 [TextNode (js "hello world")]]) ++ x)
              ++ js "!"
              ++ (y ++ snd (context [0] [ElementNode (js "DIV") []
                                           [TextNode (js "hello world")]])))
    /\ lastContent s' = surfaceContent s'.
Proof.
  apply (X13_insert_text_at_caret (js "!")
           (MkDomRange (InText [0] 0 5) 11)
           (MkSurface (Some [ElementNode (js "DIV") [] [TextNode (js "hello world")]])
                      (js "hello world") (js "hello world"))
           [ElementNode (js "DIV") [] [TextNode (js "hello world")]]
           [ElementNode (js "DIV") [] [TextNode (js "hello")]]);
    reflexivity.
Defined.

(** X14.  Without a usable caret the helpers append.  With no editor the
    text state itself grows by the value, or by the URL and a space.  With
    an editor but no valid range the new node goes after the last child:
    [content] is the editor's text followed by the value, without trailing
    newlines; for an emote it is exactly the editor's text, the URL and a
    space, and nothing is stripped. *)
Theorem X14_insert_without_caret : forall value url selection s,
    (editor s = None ->
     insertTextAtCursor value selection s
     = Some (MkSurface None (lastContent s) (surfaceContent s ++ value))
     /\ insertEmoteAtCursor url selection s
        = Some (MkSurface None (lastContent s) (surfaceContent s ++ url ++ js " ")))
    /\ (forall childNodes,
           editor s = Some childNodes ->
           (exists s',
               insertTextAtCursor value NoValidRange s = Some s'
               /\ editor s' = Some (childNodes ++ [TextNode value])
               /\ surfaceContent s'
                  = stripTrailingNewlines
                      (concat (map serializeEditorContent childNodes) ++ value))
           /\ (exists s',
                  insertEmoteAtCursor url NoValidRange s = Some s'
                  /\ editor s'
                     = Some ((childNodes ++ [emoteImage url]) ++ [TextNode (js " ")])
                  /\ surfaceContent s'
                     = concat (map serializeEditorContent childNodes)
                         ++ url ++ js " ")).
Proof.
  intros value url selection s. split.
  - intros He. unfold insertTextAtCursor, insertEmoteAtCursor, setSurfaceContent.
    rewrite He. auto.
  - intros childNodes He. fold (text_of childNodes). split.
    + destruct (updateContentFromEditor_setEditor
                  (childNodes ++ [TextNode value]) s) as (E1 & E2 & _).
      eexists. split; [unfold insertTextAtCursor; rewrite He; reflexivity|].
      split; [exact E1|]. rewrite E2, text_of_app.
      unfold text_of at 2. cbn. now rewrite app_nil_r.
    + destruct (updateContentFromEditor_setEditor
                  ((childNodes ++ [emoteImage url]) ++ [TextNode (js " ")]) s)
        as (E1 & E2 & _).
      eexists. split; [unfold insertEmoteAtCursor; rewrite He; reflexivity|].
      split; [exact E1|]. rewrite E2, !text_of_app.
      unfold text_of at 2 3. cbn [map concat].
      rewrite serialize_emoteImage. cbn [serializeEditorContent or_empty].
      rewrite !app_nil_r, <- app_assoc.
      apply stripTrailingNewlines_fixed.
      rewrite app_assoc. apply not_endsWithNewline_space.
Qed.

(** X15.  Inserting an emote at a caret or over a selection that lies in
    one container.  With [x] the container's text before the start of the
    range and [y] its text after the end, the selected part between them is
    replaced by the image and then the space, in that order, the image
    carrying the URL; so the editor's text becomes the text before the
    range, the URL, a space, and the text after the range. *)
Theorem X15_insert_emote_at_caret : forall url range s childNodes deleted,
    editor s = Some childNodes ->
    visible (boundaryPath (startAt range)) childNodes = true ->
    deleteContents range childNodes = Some deleted ->
    exists l x selected y s' childNodes',
      container (boundaryPath (startAt range)) childNodes = Some l
      /\ Divides (startAt range) l x (selected ++ y)
      /\ Divides (endBoundary range) l (x ++ selected) y
      /\ concat (map serializeEditorContent childNodes)
         = (fst (context (boundaryPath (startAt range)) childNodes) ++ x)
             ++ selected
             ++ (y ++ snd (context (boundaryPath (startAt range)) childNodes))
      /\ insertEmoteAtCursor url (Ranged range) s = Some s'
      /\ editor s' = Some childNodes'
      /\ concat (map serializeEditorContent childNodes')
         = (fst (context (boundaryPath (startAt range)) childNodes) ++ x)
             ++ url ++ js " "
             ++ (y ++ snd (context (boundaryPath (startAt range)) childNodes))
      /\ surfaceContent s'
         = stripTrailingNewlines
             ((fst (context (boundaryPath (startAt range)) childNodes) ++ x)
                ++ url ++ js " "
                ++ (y ++ snd (context (boundaryPath (startAt range)) childNodes))).
Proof.
  intros url range s childNodes deleted He Hv Hdel.
  destruct (deleteContents_range _ _ _ Hdel Hv)
    as (l & l1 & x & old & y & C & C1 & V1 & Hctx & D0 & De & D1 & T).
  destruct (insertNode_spec (startAt range) (TextNode (js " ")) deleted l1 x y
                            C1 V1 D1)
    as (cs2 & l2 & Hins2 & C2 & V2 & Hctx2 & D2 & _).
  destruct (insertNode_spec (startAt range) (emoteImage url) cs2 l2 x _ C2 V2 D2)
    as (cs3 & l3 & Hins3 & _ & _ & _ & _ & T3).
  destruct (updateContentFromEditor_setEditor cs3 s) as (E1 & E2 & _).
  exists l, x, old, y, (updateContentFromEditor (setEditor cs3 s)), cs3.
  fold (text_of childNodes). fold (text_of cs3).
  assert (Tnew : text_of cs3
                 = (fst (context (boundaryPath (startAt range)) childNodes) ++ x)
                     ++ url ++ js " "
                     ++ y ++ snd (context (boundaryPath (startAt range)) childNodes)).
  { rewrite T3, Hctx2, Hctx, serialize_emoteImage.
    cbn [serializeEditorContent or_empty].
    now rewrite <- !app_assoc. }
  split; [exact C|]. split; [exact D0|]. split; [exact De|].
  split; [rewrite T; now rewrite <- !app_assoc|].
  split; [unfold insertEmoteAtCursor; cbv zeta; now rewrite He, Hdel, Hins2, Hins3|].
  split; [exact E1|]. split; [exact Tnew|]. now rewrite E2, Tnew.
Qed.

Lemma X15_insert_emote_at_caret_witness :
  exists l x selected y s' childNodes',
    container [] [TextNode (js "abc")] = Some l
    /\ Divides (InText [] 0 1) l x (selected ++ y)
    /\ Divides (endBoundary (MkDomRange (InText [] 0 1) 2)) l (x ++ selected) y
    /\ concat (map serializeEditorContent [TextNode (js "abc")])
       = (fst (context [] [TextNode (js "abc")]) ++ x)
           ++ selected
           ++ (y ++ snd (context [] [TextNode (js "abc")]))
    /\ insertEmoteAtCursor (js "https://cdn.7tv.app/emote/x/1x.webp")
         (Ranged (MkDomRange (InText [] 0 1) 2))
         (MkSurface (Some [TextNode (js "abc")]) (js "abc") (js "abc"))
       = Some s'
    /\ editor s' = Some childNodes'
    /\ concat (map serializeEditorContent childNodes')
       = (fst (context [] [TextNode (js "abc")]) ++ x)
           ++ js "https://cdn.7tv.app/emote/x/1x.webp" ++ js " "
           ++ (y ++ snd (context [] [TextNode (js "abc")]))
    /\ surfaceContent s'
       = stripTrailingNewlines
           ((fst (context [] [TextNode (js "abc")]) ++ x)
              ++ js "https://cdn.7tv.app/emote/x/1x.webp" ++ js " "
              ++ (y ++ snd (context [] [TextNode (js "abc")]))).
Proof.
  apply (X15_insert_emote_at_caret (js "https://cdn.7tv.app/emote/x/1x.webp")
           (MkDomRange (InText [] 0 1) 2)
           (MkSurface (Some [TextNode (js "abc")]) (js "abc") (js "abc"))
           [TextNode (js "abc")] [TextNode (js "ac")]);
    reflexivity.
Defined.

(** X16.  Choosing a suggestion replaces the typed query.  When the caret
    is at [offset] in a text node of the editor and the text up to it ends
    with a query, the range [updateEmojiQueryFromSelection] stores runs
    from the colon to the caret, and [insertEmojiSuggestion] with that
    range puts the emoji and a space in place of the colon and the query,
    in that text node: what the node holds before the colon and after the
    caret, the text of the nodes before it and the text of the nodes after
    it all stay where they are, and the query is cleared. *)
Theorem X16_suggestion_replaces_query :
  forall emoji s childNodes path index l data offset q others selection,
    editor s = Some childNodes ->
    visible path childNodes = true ->
    container path childNodes = Some l ->
    nth_error l index = Some (TextNode data) ->
    offset <= length data ->
    QueryAt (slice 0 offset data) q ->
    q <> [] ->
    let range :=
      MkEmojiRange (TextNode data)
        (Z.of_nat offset - Z.of_nat (length q) - 1) (Z.of_nat offset) in
    let before := fst (context path childNodes) ++ text_of (firstn index l) in
    let after := text_of (skipn (S index) l) ++ snd (context path childNodes) in
    let typed := firstn (offset - length q - 1) data in
    let rest := skipn offset data in
    exists s' childNodes',
      emojiRangeRef
        (updateEmojiQueryFromSelection
           true (Some (MkRange (TextNode data) offset true :: others)))
      = Some range
      /\ data = typed ++ ch ":" :: q ++ rest
      /\ concat (map serializeEditorContent childNodes)
         = before ++ data ++ after
      /\ insertEmojiSuggestion emoji (Some (MkRangeInfo path index range))
                               selection s
         = Some (s', clearEmoji)
      /\ editor s' = Some childNodes'
      /\ concat (map serializeEditorContent childNodes')
         = before ++ (typed ++ emoji ++ js " " ++ rest) ++ after
      /\ surfaceContent s'
         = stripTrailingNewlines
             (before ++ (typed ++ emoji ++ js " " ++ rest) ++ after).
Proof.
  intros emoji s childNodes path index l data offset q others selection
         He Hv Hc En Hoff Hq Hne range before after typed0 rest.
  pose proof (emoji_query_found data offset others q Hq Hne) as Hfound.
  destruct Hq as (typed & Eupto & _ & _).
  unfold slice in Eupto. cbn [skipn] in Eupto.
  assert (Elen : length (typed ++ ch ":" :: q) = offset).
  { rewrite <- Eupto. apply firstn_length_le. exact Hoff. }
  assert (Edata : data = (typed ++ ch ":" :: q) ++ skipn offset data).
  { rewrite <- Eupto. symmetry. apply firstn_skipn. }
  assert (Hlt : length typed = offset - length q - 1).
  { rewrite length_app in Elen. cbn [length] in Elen. lia. }
  assert (Hstart : Z.to_nat (Z.of_nat offset - Z.of_nat (length q) - 1)
                   = length typed).
  { rewrite length_app in Elen. cbn [length] in Elen. lia. }
  assert (Hnonneg : (Z.of_nat offset - Z.of_nat (length q) - 1 <? 0)%Z = false).
  { rewrite length_app in Elen. cbn [length] in Elen.
    apply Z.ltb_ge. lia. }
  destruct (deleteIn_text path index (length typed) offset l data En)
    as (l1 & Hdel & D1 & Tl).
  { rewrite length_app in Elen. lia. }
  { exact Hoff. }
  destruct (updateAt_total path
              (deleteIn (InText path index (length typed)) offset)
              childNodes l l1 Hc Hdel) as [deleted Hu].
  destruct (updateAt_spec _ _ _ _ Hu Hv)
    as (l0 & l0' & C0 & Hf & C1 & Hctx & V1 & T & _).
  rewrite Hc in C0. injection C0 as <-. rewrite Hdel in Hf. injection Hf as <-.
  destruct (insertNode_spec (InText path index (length typed))
              (TextNode (emoji ++ js " ")) deleted l1 _ _ C1 V1 D1)
    as (cs' & l' & Hins & _ & _ & _ & _ & T').
  destruct (updateContentFromEditor_setEditor cs' s) as (E1 & E2 & _).
  assert (Ftyped : firstn (length typed) data = typed).
  { rewrite Edata at 1. rewrite <- app_assoc. apply firstn_exact. }
  assert (Etyped : typed0 = typed).
  { unfold typed0. rewrite <- Hlt. exact Ftyped. }
  assert (Tnew : text_of cs'
                 = before ++ (typed ++ emoji ++ js " " ++ rest) ++ after).
  { rewrite T'. cbn [boundaryPath serializeEditorContent or_empty].
    rewrite Hctx, Ftyped. unfold before, after, rest.
    now rewrite <- !app_assoc. }
  exists (updateContentFromEditor (setEditor cs' s)), cs'.
  fold (text_of childNodes). fold (text_of cs'). rewrite Etyped.
  assert (Ed2 : typed ++ ch ":" :: q ++ skipn offset data = data).
  { rewrite Edata at 2. now rewrite <- app_assoc. }
  split; [now rewrite Hfound|].
  split; [unfold rest; now rewrite Ed2|].
  split.
  { rewrite T, Tl. unfold before, after. now rewrite <- !app_assoc. }
  split.
  { unfold insertEmojiSuggestion, range. rewrite He.
    cbn [info range_start range_end nodePath nodeIndex].
    rewrite Hnonneg.
    replace (Z.of_nat offset <? 0)%Z with false by (symmetry; apply Z.ltb_ge; lia).
    cbn [orb]. rewrite Hstart, Nat2Z.id. cbn [startAt].
    unfold deleteContents. cbn [startAt endAt boundaryPath].
    rewrite Hu, Hins. reflexivity. }
  split; [exact E1|]. split; [exact Tnew|]. now rewrite E2, Tnew.
Qed.

Lemma X16_suggestion_replaces_query_witness :
  let childNodes :=
    [TextNode (js ":a "); ElementNode (js "DIV") [] [TextNode (js "go :sm now")]] in
  let data := js "go :sm now" in
  let range := MkEmojiRange (TextNode data) (6 - 2 - 1) 6 in
  let before := fst (context [1] childNodes) ++ text_of (firstn 0 [TextNode data]) in
  let after := text_of (skipn 1 [TextNode data]) ++ snd (context [1] childNodes) in
  let typed := firstn (6 - 2 - 1) data in
  let rest := skipn 6 data in
  exists s' childNodes',
    emojiRangeRef
      (updateEmojiQueryFromSelection
         true (Some (MkRange (TextNode data) 6 true :: [])))
    = Some range
    /\ data = typed ++ ch ":" :: js "sm" ++ rest
    /\ concat (map serializeEditorContent childNodes) = before ++ data ++ after
    /\ insertEmojiSuggestion (js "E") (Some (MkRangeInfo [1] 0 range)) NoValidRange
         (MkSurface (Some childNodes) [] [])
       = Some (s', clearEmoji)
    /\ editor s' = Some childNodes'
    /\ concat (map serializeEditorContent childNodes')
       = before ++ (typed ++ js "E" ++ js " " ++ rest) ++ after
    /\ surfaceContent s'
       = stripTrailingNewlines
           (before ++ (typed ++ js "E" ++ js " " ++ rest) ++ after).
Proof.
  apply (X16_suggestion_replaces_query (js "E")
           (MkSurface
              (Some [TextNode (js ":a ");
                     ElementNode (js "DIV") [] [TextNode (js "go :sm now")]])
              [] [])
           [TextNode (js ":a ");
            ElementNode (js "DIV") [] [TextNode (js "go :sm now")]]
           [1] 0 [TextNode (js "go :sm now")] (js "go :sm now") 6 (js "sm") []
           NoValidRange).
  - reflexivity.
  - reflexivity.
  - reflexivity.
  - reflexivity.
  - cbn. repeat apply le_n_S. apply Nat.le_0_l.
  - exists (js "go "). split; [reflexivity|]. split.
    + repeat constructor.
    + right. exists (js "go"), (ch " "). split; reflexivity.
  - discriminate.
Defined.

(** X17.  Markup determines the text: two texts without U+0000 that
    render to the same markup are the same text. *)
Theorem X17_render_is_injective : forall text1 text2 html,
    Forall (fun c => c <> NUL) text1 ->
    Forall (fun c => c <> NUL) text2 ->
    renderContentHtml text1 = Some html ->
    renderContentHtml text2 = Some html ->
    text1 = text2.
Proof.
  intros text1 text2 html H1 H2 R1 R2.
  apply renderContentHtml_renders in R1, R2.
  destruct (run_renders R1 H1 []) as (n1 & Hrun1 & T1).
  destruct (run_renders R2 H2 []) as (n2 & Hrun2 & T2).
  rewrite Hrun1 in Hrun2. injection Hrun2 as <-.
  cbn [rev app] in T1, T2. unfold text_of at 2 in T1. unfold text_of at 2 in T2.
  cbn in T1, T2. congruence.
Qed.

Lemma X17_render_is_injective_witness : js "a<b" = js "a<b".
Proof.
  apply (X17_render_is_injective (js "a<b") (js "a<b") (js "a&lt;b")).
  - cbn. repeat (constructor; [discriminate|]). constructor.
  - cbn. repeat (constructor; [discriminate|]). constructor.
  - reflexivity.
  - reflexivity.
Defined.

(* ================================================================== *)
(** ** The emoji index *)
(* ================================================================== *)

Section EmojiDataFacts.

Import EmojiData.

Lemma split_nonempty : forall sep s, split sep s <> [].
Proof.
  intros sep s. destruct s as [|c s]; cbn [split]; [discriminate|].
  destruct (c =? sep)%N; [discriminate|].
  destruct (split sep s); discriminate.
Qed.

Lemma split_app_sep : forall sep a b,
    split sep (a ++ sep :: b) = split sep a ++ split sep b.
Proof.
  intros sep a b. induction a as [|c a IH].
  - cbn [app split]. now rewrite N.eqb_refl.
  - cbn [app split]. rewrite IH.
    destruct (c =? sep)%N; [reflexivity|].
    destruct (split sep a) as [|p ps] eqn:E; [|reflexivity].
    now destruct (split_nonempty sep a).
Qed.

Lemma split_plain : forall sep part,
    ~ In sep part -> split sep part = [part].
Proof.
  intros sep part. induction part as [|c part IH]; intros H; [reflexivity|].
  cbn [split]. destruct (N.eqb_spec c sep) as [->|_].
  - destruct H. now left.
  - rewrite IH; [reflexivity|]. intros Hin. apply H. now right.
Qed.

Lemma split_join : forall sep parts,
    parts <> [] ->
    Forall (fun part => ~ In sep part) parts ->
    split sep (join [sep] parts) = parts.
Proof.
  intros sep parts Hne Hall. induction Hall as [|p l Hp Hl IH]; [easy|].
  cbn [join]. destruct l as [|q l]; [now apply split_plain|].
  change (p ++ [sep] ++ join [sep] (q :: l))
    with (p ++ sep :: join [sep] (q :: l)).
  rewrite split_app_sep, split_plain by assumption.
  rewrite IH by discriminate. reflexivity.
Qed.

Lemma hexDigit_range : forall c d,
    hexDigit c = Some d ->
    (0 <= d <= 15)%Z
    /\ ((48 <= c <= 57)%N \/ (97 <= c <= 102)%N \/ (65 <= c <= 70)%N).
Proof.
  intros c d. unfold hexDigit, is_digit, in_range.
  destruct (N.leb_spec 48 c), (N.leb_spec c 57); cbn [andb].
  1: intros [= <-]; lia.
  all: destruct (N.leb_spec 97 c), (N.leb_spec c 102); cbn [andb];
    try (intros [= <-]; lia).
  all: destruct (N.leb_spec 65 c), (N.leb_spec c 70); cbn [andb];
    try (intros [= <-]; lia); try discriminate.
Qed.

Lemma hexDigit_not_space : forall c d,
    hexDigit c = Some d -> is_space c = false.
Proof.
  intros c d H. apply hexDigit_range in H. destruct H as [_ H].
  unfold is_space, in_range.
  repeat (apply orb_false_intro);
    try (apply N.eqb_neq; lia);
    apply andb_false_iff;
    ((left; apply N.leb_gt; lia) || (right; apply N.leb_gt; lia)).
Qed.

Lemma hexPrefix_all : forall s digits,
    map hexDigit s = map Some digits -> hexPrefix s = digits.
Proof.
  induction s as [|c s IH]; intros [|d digits] H; try discriminate;
    [reflexivity|].
  cbn [map] in H. injection H as Hc Hs.
  cbn [hexPrefix]. rewrite Hc. f_equal. now apply IH.
Qed.

Lemma radix16_snoc : forall digits d,
    radix16 (digits ++ [d]) = (16 * radix16 digits + d)%Z.
Proof.
  intros digits d. unfold radix16. now rewrite fold_left_app.
Qed.

Lemma HexNumeral_digits : forall s v,
    HexNumeral s v ->
    exists digits,
      digits <> [] /\ map hexDigit s = map Some digits /\ radix16 digits = v.
Proof.
  induction 1 as [c d Hc|s v c d _ (digits & Hne & Hm & Hv) Hc].
  - exists [d]. split; [discriminate|]. split; [cbn; now rewrite Hc|].
    unfold radix16. cbn [fold_left]. lia.
  - exists (digits ++ [d]). split; [|split].
    + now destruct digits.
    + rewrite !map_app, Hm. cbn [map]. now rewrite Hc.
    + rewrite radix16_snoc. now rewrite Hv.
Qed.

Lemma HexNumeral_nonneg : forall s v, HexNumeral s v -> (0 <= v)%Z.
Proof.
  induction 1 as [c d Hc|s v c d _ IH Hc];
    apply hexDigit_range in Hc; lia.
Qed.

Lemma HexNumeral_no_dash : forall s v, HexNumeral s v -> ~ In 45%N s.
Proof.
  induction 1 as [c d Hc|s v c d _ IH Hc];
    apply hexDigit_range in Hc; destruct Hc as [_ Hc].
  - intros [->|[]]. lia.
  - rewrite in_app_iff. intros [Hin|[->|[]]]; [now apply IH|lia].
Qed.

Lemma parseInt16_numeral : forall s v,
    HexNumeral s v -> parseInt16 s = Int v.
Proof.
  intros s v H. destruct (HexNumeral_digits s v H) as (digits & Hne & Hm & Hv).
  pose proof (hexPrefix_all s digits Hm) as Hp.
  destruct s as [|c s]; [now destruct digits|].
  destruct digits as [|d digits]; [easy|].
  cbn [map] in Hm. injection Hm as Hc Hs.
  pose proof (hexDigit_not_space c d Hc) as Hsp.
  pose proof (hexDigit_range c d Hc) as [_ Rc].
  unfold parseInt16. cbn [trimStart]. rewrite Hsp.
  assert (E45 : (c =? 45)%N = false) by (apply N.eqb_neq; lia).
  assert (E43 : (c =? 43)%N = false) by (apply N.eqb_neq; lia).
  rewrite E45, E43. cbn [orb].
  match goal with
  | |- context [hexPrefix ?t] => assert (Es : t = c :: s)
  end.
  { destruct s as [|x s]; [reflexivity|].
    destruct digits as [|d' digits]; [discriminate|].
    cbn [map] in Hs. injection Hs as Hx _.
    apply hexDigit_range in Hx. destruct Hx as [_ Rx].
    assert (E120 : (x =? 120)%N = false) by (apply N.eqb_neq; lia).
    assert (E88 : (x =? 88)%N = false) by (apply N.eqb_neq; lia).
    rewrite E120, E88. cbn [orb]. now rewrite andb_false_r. }
  rewrite Es, Hp. f_equal. rewrite Hv. lia.
Qed.

Lemma fromCodePoint_ints : forall cps,
    Forall (fun cp => 0 <= cp <= 1114111)%Z cps ->
    fromCodePoint (map Int cps) = Some (concat (map utf16 cps)).
Proof.
  induction 1 as [|cp cps Hcp _ IH]; [reflexivity|].
  cbn [map fromCodePoint concat].
  destruct (Z.ltb_spec cp 0); [lia|].
  destruct (Z.ltb_spec 1114111 cp); [lia|].
  cbn [orb]. now rewrite IH.
Qed.

Lemma fromCodePoint_refuses : forall codePoints,
    Exists (fun x => match x with
                     | NaN => True
                     | Int z => (z < 0 \/ 1114111 < z)%Z
                     end) codePoints ->
    fromCodePoint codePoints = None.
Proof.
  induction 1 as [x l Hx|x l _ IH].
  - destruct x as [|z]; [reflexivity|]. cbn [fromCodePoint].
    destruct (Z.ltb_spec z 0); [reflexivity|].
    destruct (Z.ltb_spec 1114111 z); [reflexivity|]. lia.
  - destruct x as [|z]; [reflexivity|]. cbn [fromCodePoint].
    rewrite IH. now destruct (_ || _).
Qed.

Lemma fromCodePoint_accepts : forall codePoints s,
    fromCodePoint codePoints = Some s ->
    Forall (fun x => exists z, x = Int z /\ (0 <= z <= 1114111)%Z) codePoints.
Proof.
  induction codePoints as [|x l IH]; intros s H; [constructor|].
  destruct x as [|z]; [discriminate|]. cbn [fromCodePoint] in H.
  destruct (Z.ltb_spec z 0); [discriminate|].
  destruct (Z.ltb_spec 1114111 z); [discriminate|].
  cbn [orb] in H. destruct (fromCodePoint l) as [s'|] eqn:E; [|discriminate].
  constructor; [exists z; split; [reflexivity|lia]|]. now apply (IH s').
Qed.

Lemma findDescriptive_In : forall l d,
    findDescriptive l = Some d -> In d l.
Proof.
  induction l as [|x l IH]; intros d H; [discriminate|].
  cbn [findDescriptive] in H.
  destruct (includesString x (js " ")).
  - injection H as <-. now left.
  - right. now apply IH.
Qed.

Lemma pickPrimaryName_In : forall l,
    l <> [] -> In (pickPrimaryName l) l.
Proof.
  intros [|first l] H; [easy|]. unfold pickPrimaryName.
  destruct (findDescriptive (first :: l)) as [d|] eqn:E; [|now left].
  destruct (truthy d); [|now left].
  now apply findDescriptive_In.
Qed.

Lemma mapAll_Some : forall (A B : Type) (f : A -> option B) l ys,
    mapAll f l = Some ys -> Forall2 (fun x y => f x = Some y) l ys.
Proof.
  induction l as [|x l IH]; intros ys H.
  - injection H as <-. constructor.
  - cbn [mapAll] in H. destruct (f x) as [y|] eqn:E; [|discriminate].
    destruct (mapAll f l) as [ys'|] eqn:E'; [|discriminate].
    injection H as <-. constructor; [assumption|]. now apply IH.
Qed.

Lemma mapAll_None : forall (A B : Type) (f : A -> option B) l,
    mapAll f l = None <-> exists x, In x l /\ f x = None.
Proof.
  induction l as [|x l IH].
  - split; [discriminate|]. now intros (x & [] & _).
  - cbn [mapAll]. destruct (f x) as [y|] eqn:E.
    + destruct (mapAll f l) as [ys|].
      * split; [discriminate|]. intros (x' & [<-|Hin] & Hx); [congruence|].
        destruct IH as [_ IH]. discriminate IH. now exists x'.
      * split; [|reflexivity]. intros _.
        destruct IH as [IH _]. destruct (IH eq_refl) as (x' & Hin & Hx).
        exists x'. split; [now right|assumption].
    + split; [|reflexivity]. intros _. exists x. split; [now left|assumption].
Qed.

End EmojiDataFacts.

Section EmojiDecoding.

Import EmojiData.

Lemma parseInt16_numerals : forall parts cps,
    Forall2 HexNumeral parts cps ->
    map parseInt16 parts = map Int cps
    /\ Forall (fun part => ~ In 45%N part) parts
    /\ Forall (fun cp => (0 <= cp)%Z) cps.
Proof.
  induction 1 as [|part cp parts cps Hp _ (IH1 & IH2 & IH3)].
  - repeat split; constructor.
  - cbn [map]. rewrite (parseInt16_numeral part cp Hp), IH1.
    split; [reflexivity|]. split; constructor; try assumption.
    + now apply (HexNumeral_no_dash part cp).
    + now apply (HexNumeral_nonneg part cp).
Qed.

(** X18.  [toEmoji] decodes the notation of the data file: for numerals of
    radix 16 joined by dashes, each the number of a code point (at most
    10FFFF), the result is the UTF-16 form of these code points, in
    order. *)
Theorem X18_toEmoji_decodes : forall parts cps,
    parts <> [] ->
    Forall2 HexNumeral parts cps ->
    Forall (fun cp => (cp <= 1114111)%Z) cps ->
    toEmoji (join (js "-") parts) = Some (concat (map utf16 cps)).
Proof.
  intros parts cps Hne Hnum Hmax.
  destruct (parseInt16_numerals parts cps Hnum) as (Hmap & Hdash & Hpos).
  unfold toEmoji. change (js "-") with [45%N].
  rewrite (split_join 45%N parts Hne Hdash), Hmap.
  apply fromCodePoint_ints.
  rewrite Forall_forall in *. intros cp Hin.
  specialize (Hmax cp Hin). specialize (Hpos cp Hin). lia.
Qed.

Lemma X18_toEmoji_decodes_witness :
  toEmoji (join (js "-") [js "1f600"; js "fe0f"])
  = Some (concat (map utf16 [128512; 65039]%Z)).
Proof.
  apply (X18_toEmoji_decodes [js "1f600"; js "fe0f"] [128512; 65039]%Z).
  - discriminate.
  - constructor; [|constructor; [|constructor]].
    + apply (@hex_more (js "1f60") 8032%Z (ch "0") 0%Z); [|reflexivity].
      apply (@hex_more (js "1f6") 502%Z (ch "0") 0%Z); [|reflexivity].
      apply (@hex_more (js "1f") 31%Z (ch "6") 6%Z); [|reflexivity].
      apply (@hex_more (js "1") 1%Z (ch "f") 15%Z); [|reflexivity].
      apply (@hex_digit (ch "1") 1%Z). reflexivity.
    + apply (@hex_more (js "fe0") 4064%Z (ch "f") 15%Z); [|reflexivity].
      apply (@hex_more (js "fe") 254%Z (ch "0") 0%Z); [|reflexivity].
      apply (@hex_more (js "f") 15%Z (ch "e") 14%Z); [|reflexivity].
      apply (@hex_digit (ch "f") 15%Z). reflexivity.
  - repeat constructor; discriminate.
Defined.

(** X21.  [toEmoji] throws on a malformed value: when a part between
    dashes is empty (a dash first or last, or two in a row), or is a
    numeral above 10FFFF, there is no result. *)
Theorem X21_toEmoji_throws : forall unicode part,
    In part (split 45 unicode) ->
    part = [] \/ (exists cp, HexNumeral part cp /\ (1114111 < cp)%Z) ->
    toEmoji unicode = None.
Proof.
  intros unicode part Hin Hbad. unfold toEmoji.
  apply fromCodePoint_refuses. rewrite Exists_exists.
  exists (parseInt16 part). split; [now apply in_map|].
  destruct Hbad as [->|(cp & Hnum & Hcp)]; [exact I|].
  rewrite (parseInt16_numeral part cp Hnum). now right.
Qed.

Lemma X21_toEmoji_throws_witness : toEmoji (js "1f600-") = None.
Proof.
  apply (X21_toEmoji_throws (js "1f600-") []).
  - vm_compute. right. left. reflexivity.
  - left. reflexivity.
Defined.

End EmojiDecoding.

Section EmojiIndexFacts.

Import EmojiData.

Variable toLowerCase : jsstring -> jsstring.

Lemma Forall2_concat_map :
  forall (A B C : Type) (R : A -> B -> Prop) (g : C -> list A) cs lists,
    Forall2 (fun c l => Forall2 R (g c) l) cs lists ->
    Forall2 R (concat (map g cs)) (concat lists).
Proof.
  induction 1 as [|c l cs lists Hc _ IH]; [constructor|].
  cbn [map concat]. now apply Forall2_app.
Qed.

Lemma filter_concat_map :
  forall (A C : Type) (f : A -> bool) (g : C -> list A) cs,
    concat (map (fun c => filter f (g c)) cs) = filter f (concat (map g cs)).
Proof.
  induction cs as [|c cs IH]; [reflexivity|].
  cbn [map concat]. now rewrite filter_app, IH.
Qed.

Lemma Forall2_impl_In :
  forall (A B : Type) (R R' : A -> B -> Prop) l l',
    (forall x y, In x l -> R x y -> R' x y) ->
    Forall2 R l l' -> Forall2 R' l l'.
Proof.
  intros A B R R' l l' H F. induction F as [|x y l l' Hxy _ IH]; [constructor|].
  constructor.
  - apply H; [now left|assumption].
  - apply IH. intros x' y' Hin. apply H. now right.
Qed.

Lemma indexEntry_Indexed : forall entry e,
    kept entry = true ->
    indexEntry toLowerCase entry = Some e ->
    Indexed toLowerCase entry e.
Proof.
  intros [raw|] e Hk He; [|discriminate].
  cbn [kept indexEntry] in Hk, He.
  destruct (u raw) as [unicode|] eqn:Eu; [|discriminate].
  destruct (n raw) as [l|] eqn:En;
    [|now rewrite andb_false_r in Hk].
  destruct (toEmoji unicode) as [emo|] eqn:Et; [|discriminate].
  injection He as <-. exists raw, unicode. cbn [names emoji primaryName search].
  assert (Hl : l <> []).
  { intros ->. cbn in Hk. now rewrite andb_false_r in Hk. }
  repeat split; try assumption; try reflexivity.
  now apply pickPrimaryName_In.
Qed.

(** X19.  The index lists the entries of the data file that have a
    non-empty [u] and a non-empty array [n], category after category and in
    their order, one index entry for each: its names are the entry's, its
    emoji is the decoded [u], its primary name is one of its names, and
    its search text is the names joined by spaces, in lower case. *)
Theorem X19_index_entries : forall categories index,
    emojiIndex toLowerCase categories = Some index ->
    Forall2 (Indexed toLowerCase) (filter kept (concat (map entriesOf categories))) index.
Proof.
  intros categories index H. unfold emojiIndex in H.
  destruct (mapAll _ categories) as [lists|] eqn:E; [|discriminate].
  injection H as <-. apply mapAll_Some in E.
  rewrite <- filter_concat_map.
  apply (Forall2_concat_map _ _ _ (Indexed toLowerCase)
           (fun c => filter kept (entriesOf c)) categories lists).
  apply (Forall2_impl_In _ _ _ _ _ _ (fun _ _ _ H => H)) in E.
  revert E. apply Forall2_impl_In. intros category l _ Hl.
  apply mapAll_Some in Hl. revert Hl. apply Forall2_impl_In.
  intros entry e Hin He. apply filter_In in Hin.
  now apply indexEntry_Indexed.
Qed.

(** X20.  One bad entry fails the whole index: building it throws exactly
    when some entry that passes the filter has a [u] that [toEmoji]
    cannot decode. *)
Theorem X20_index_throws : forall categories,
    emojiIndex toLowerCase categories = None
    <-> exists category raw unicode,
        In category categories
        /\ In (Some raw) (entriesOf category)
        /\ kept (Some raw) = true
        /\ u raw = Some unicode
        /\ toEmoji unicode = None.
Proof.
  intros categories. unfold emojiIndex.
  destruct (mapAll _ categories) as [lists|] eqn:E.
  - split; [discriminate|].
    intros (category & raw & unicode & Hc & Hr & Hk & Hu & Ht).
    assert (N : mapAll (fun category =>
                          mapAll (indexEntry toLowerCase)
                                 (filter kept (entriesOf category)))
                       categories = None).
    { apply mapAll_None. exists category. split; [assumption|].
      apply mapAll_None. exists (Some raw). split.
      - apply filter_In. now split.
      - cbn [indexEntry]. now rewrite Hu, Ht. }
    congruence.
  - split; [|reflexivity]. intros _.
    apply mapAll_None in E. destruct E as (category & Hc & E).
    apply mapAll_None in E. destruct E as (entry & Hin & He).
    apply filter_In in Hin. destruct Hin as [Hin Hk].
    destruct entry as [raw|]; [|discriminate].
    cbn [kept] in Hk. cbn [indexEntry] in He.
    destruct (u raw) as [unicode|] eqn:Eu; [|discriminate].
    exists category, raw, unicode.
    repeat split; try assumption.
    + cbn [kept]. now rewrite Eu.
    + now destruct (toEmoji unicode).
Qed.

End EmojiIndexFacts.

Lemma X19_index_entries_witness :
  Forall2 (EmojiData.Indexed (fun s => s))
    (filter EmojiData.kept
       (concat (map EmojiData.entriesOf
          [Some [Some (EmojiData.MkRawEntry (Some [js "grinning face"])
                                             (Some (js "1f600")));
                 None;
                 Some (EmojiData.MkRawEntry None (Some (js "1f601")))];
           None])))
    [MkEmojiEntry [55357; 56832]%N [js "grinning face"]
                  (js "grinning face") (js "grinning face")].
Proof.
  apply (X19_index_entries (fun s => s)).
  reflexivity.
Defined.

(* ================================================================== *)
(** ** Calls between renders *)
(* ================================================================== *)

Section RenderFacts.

Lemma sends_app : forall a b, sends (a ++ b) = sends a + sends b.
Proof. intros a b. unfold sends. now rewrite filter_app, length_app. Qed.

Lemma invoke_refused : forall c,
    canPost (shown c) = false -> invoke c = c.
Proof.
  intros [l s i e] H. unfold invoke, handlePost.
  cbn [shown live inflight effects] in *. rewrite H.
  now rewrite !app_nil_r.
Qed.

Lemma invoke_sends : forall c,
    canPost (shown c) = true ->
    invoke c
    = MkComponent (setIsSubmitting true (live c)) (shown c)
        (inflight c ++ [shown c])
        (effects c
           ++ [SendTransaction
                 (MkSendArgs (or_empty (privateKey (shown c))) (content (shown c))
                    (js "post")
                    (map (fun m => pubkey m) (validatedMentions (shown c))))]).
Proof.
  intros c H. unfold invoke, handlePost. now rewrite H.
Qed.

Lemma flag_refuses : forall s, isSubmitting s = true -> canPost s = false.
Proof. intros s H. unfold canPost. rewrite H. apply andb_false_r. Qed.

Lemma disabled_refuses : forall s, postDisabled s = true -> canPost s = false.
Proof.
  intros s H. unfold postDisabled in H. unfold canPost.
  destruct (truthy (trim (content s))); [|reflexivity].
  cbn [negb orb] in H. rewrite H. apply andb_false_r.
Qed.

(** The system of [Submit] is this one with a render after every event. *)
Lemma sys_step_rendered : forall y e,
    act (act (rendered y) (action_of e)) Commit = rendered (sys_step y e).
Proof.
  intros [s out lg] [|o|v|l]; unfold rendered;
    cbn [action_of act sys_step state outstanding log live shown inflight effects].
  - unfold invoke, handlePost. cbn [shown live inflight effects].
    now destruct (canPost s).
  - destruct out as [|closure others]; [reflexivity|].
    cbn [nth_error firstn skipn app].
    now destruct (handlePostSettle closure o s).
  - reflexivity.
  - reflexivity.
Qed.

(** Once a render shows the flag, nothing is sent until a send settles. *)
Lemma flagged_perform : forall actions c,
    isSubmitting (live c) = true ->
    isSubmitting (shown c) = true ->
    forallb (fun a => negb (is_resolve a)) actions = true ->
    effects (perform c actions) = effects c
    /\ inflight (perform c actions) = inflight c
    /\ isSubmitting (live (perform c actions)) = true.
Proof.
  unfold perform.
  induction actions as [|a actions IH]; intros c Hl Hs Hno; [auto|].
  cbn [forallb] in Hno. apply andb_true_iff in Hno. destruct Hno as [Ha Hno].
  cbn [fold_left].
  assert (Hstep : isSubmitting (live (act c a)) = true
                  /\ isSubmitting (shown (act c a)) = true
                  /\ effects (act c a) = effects c
                  /\ inflight (act c a) = inflight c).
  { destruct a as [| | |i o|v|l]; cbn [act].
    - rewrite (invoke_refused c (flag_refuses _ Hs)). auto.
    - destruct (postDisabled (shown c)); [auto|].
      rewrite (invoke_refused c (flag_refuses _ Hs)). auto.
    - cbn. auto.
    - discriminate Ha.
    - cbn. auto.
    - cbn. auto. }
  destruct Hstep as (H1 & H2 & H3 & H4).
  destruct (IH (act c a) H1 H2 Hno) as (I1 & I2 & I3).
  rewrite I1, I2, I3, H3, H4. auto.
Qed.

End RenderFacts.

(** C6.  Two calls of [handlePost] with no render between them both send.
    The guard reads [isSubmitting] as the render that made the handler had
    it, and [setIsSubmitting(true)] of the first call only shows in the
    next render: the second call still reads [false].  After mounting,
    typing "hello" and a render, two calls, or two clicks on the button,
    give two [sendTransaction] calls and two sends outstanding, where the
    claim has one. *)
Theorem C6_double_send :
  let c := perform (mounted (Some (js "key")) false)
                   [Edit (js "hello"); Commit; Invoke; Invoke] in
  let c' := perform (mounted (Some (js "key")) false)
                    [Edit (js "hello"); Commit; Press; Press] in
  sends (effects c) = 2
  /\ inflight c = [MkState (js "hello") false [] (Some (js "key")) false;
                   MkState (js "hello") false [] (Some (js "key")) false]
  /\ effects c
     = [SendTransaction (MkSendArgs (js "key") (js "hello") (js "post") []);
        SendTransaction (MkSendArgs (js "key") (js "hello") (js "post") [])]
  /\ c' = c.
Proof. repeat split. Qed.

(** X22.  The Post button and its handler.  A click changes nothing
    exactly when the button is disabled in the render on display, or that
    render has no private key or an empty one: an enabled button without a
    key ignores the click, with no send, no message and no change of state.
    Every other click sends once, with the key, the text and the mentions
    of the render on display, and sets the flag in the live state.  The
    handler of a render whose button is disabled would do nothing if it
    were called. *)
Theorem X22_button_and_handler : forall c,
    (act c Press = c
     <-> postDisabled (shown c) = true
         \/ privateKey (shown c) = None \/ privateKey (shown c) = Some [])
    /\ (act c Press <> c ->
        exists key,
          privateKey (shown c) = Some key
          /\ act c Press
             = MkComponent (setIsSubmitting true (live c)) (shown c)
                 (inflight c ++ [shown c])
                 (effects c
                    ++ [SendTransaction
                          (MkSendArgs key (content (shown c)) (js "post")
                             (map (fun m => pubkey m)
                                  (validatedMentions (shown c))))]))
    /\ (postDisabled (shown c) = true -> act c Invoke = c).
Proof.
  intros c.
  assert (Hsent : canPost (shown c) = true -> invoke c <> c).
  { intros Hc E. rewrite (invoke_sends c Hc) in E.
    apply (f_equal (fun x => length (effects x))) in E.
    cbn [effects] in E. rewrite length_app in E. cbn [length] in E. lia. }
  split; [|split].
  - cbn [act]. split.
    + intros E. destruct (postDisabled (shown c)) eqn:Hd; [now left|right].
      destruct (canPost (shown c)) eqn:Hc; [now destruct (Hsent eq_refl)|].
      unfold postDisabled in Hd. apply orb_false_iff in Hd.
      destruct Hd as [Ht Hb]. apply negb_false_iff in Ht.
      unfold canPost in Hc. rewrite Ht, Hb in Hc. cbn [negb andb] in Hc.
      rewrite andb_true_r in Hc.
      destruct (privateKey (shown c)) as [[|k key]|]; auto. discriminate.
    + intros [Hd|Hk]; [now rewrite Hd|].
      destruct (postDisabled (shown c)); [reflexivity|].
      apply invoke_refused. unfold canPost.
      destruct Hk as [-> | ->]; cbn [truthy]; now rewrite andb_false_r.
  - cbn [act]. intros Hne.
    destruct (postDisabled (shown c)); [now destruct Hne|].
    destruct (canPost (shown c)) eqn:Hc;
      [|now destruct Hne; apply invoke_refused].
    rewrite (invoke_sends c Hc).
    unfold canPost in Hc. apply andb_true_iff in Hc. destruct Hc as [Hc _].
    apply andb_true_iff in Hc. destruct Hc as [_ Hk].
    destruct (privateKey (shown c)) as [key|]; [|discriminate].
    exists key. split; reflexivity.
  - intros Hd. cbn [act]. apply invoke_refused. now apply disabled_refuses.
Qed.

Lemma X22_button_and_handler_witness :
  let c := perform (mounted (Some (js "k")) false) [Edit (js "gm"); Commit] in
  exists key,
    privateKey (shown c) = Some key
    /\ act c Press
       = MkComponent (setIsSubmitting true (live c)) (shown c)
           (inflight c ++ [shown c])
           (effects c
              ++ [SendTransaction
                    (MkSendArgs key (content (shown c)) (js "post")
                       (map (fun m => pubkey m) (validatedMentions (shown c))))]).
Proof.
  intros c.
  apply (proj1 (proj2 (X22_button_and_handler c))).
  intros E. discriminate E.
Defined.

(** X23.  The guard across renders.  When a call sends and React then
    renders, nothing sends again until a send settles, whatever is called,
    clicked, typed, validated or rendered in between: one send more in
    all, the outstanding sends grown by that one, and the flag still set. *)
Theorem X23_guard_after_render : forall c actions,
    canPost (shown c) = true ->
    forallb (fun a => negb (is_resolve a)) actions = true ->
    let c' := perform c (Invoke :: Commit :: actions) in
    sends (effects c') = S (sends (effects c))
    /\ inflight c' = inflight c ++ [shown c]
    /\ isSubmitting (live c') = true.
Proof.
  intros c actions Hc Hno c'. subst c'. unfold perform. cbn [fold_left act].
  rewrite (invoke_sends c Hc). cbn [live shown inflight effects].
  fold (perform
          (MkComponent (setIsSubmitting true (live c))
             (setIsSubmitting true (live c)) (inflight c ++ [shown c])
             (effects c
                ++ [SendTransaction
                      (MkSendArgs (or_empty (privateKey (shown c)))
                         (content (shown c)) (js "post")
                         (map (fun m => pubkey m) (validatedMentions (shown c))))]))
          actions).
  match goal with
  | |- context [perform ?x actions] =>
      destruct (flagged_perform actions x eq_refl eq_refl Hno) as (F1 & F2 & F3)
  end.
  rewrite F1, F2, F3. cbn [effects inflight]. rewrite sends_app.
  split; [cbn; lia|auto].
Qed.

Lemma X23_guard_after_render_witness :
  let c := perform (mounted (Some (js "k")) false) [Edit (js "gm"); Commit] in
  let c' := perform c (Invoke :: Commit :: [Press; Invoke; Edit (js "gm!"); Commit;
                                            Invoke]) in
  sends (effects c') = S (sends (effects c))
  /\ inflight c' = inflight c ++ [shown c]
  /\ isSubmitting (live c') = true.
Proof.
  apply (X23_guard_after_render
           (perform (mounted (Some (js "k")) false) [Edit (js "gm"); Commit])
           [Press; Invoke; Edit (js "gm!"); Commit; Invoke]);
    reflexivity.
Defined.
